(** * Beignet (GBE) code generation back end: IR well-formedness, label
      sorting, CFG construction, instruction scheduling and the compile
      driver, embedded from the C++ sources.

    Conventions of the embedding.
    - Pointers to objects owned by a container are the position of the
      object in that container ([BasicBlock*] is a block number,
      [ScheduleDAGNode*] and [SelectionInstruction*] are the position of the
      instruction in the block being scheduled); [NULL] is [None].
    - [uint32_t] quantities on which the code performs arithmetic are in [Z]
      with the wrap-around written with [wrap32].
    - A failed [GBE_ASSERT] or an access the C++ leaves undefined is the
      [None] outcome of the operation. *)

From Stdlib Require Import ZArith Lia List Bool.
From stdpp Require Import base option list gmap.

Local Open Scope Z_scope.

Definition wrap32 (x : Z) : Z := x mod 2 ^ 32.
Definition wrap16 (x : Z) : Z := x mod 2 ^ 16.

Lemma wrap32_range x : 0 <= wrap32 x < 2 ^ 32.
Proof. unfold wrap32. apply Z.mod_pos_bound. lia. Qed.

Lemma wrap32_small x : 0 <= x < 2 ^ 32 -> wrap32 x = x.
Proof. intros. unfold wrap32. apply Z.mod_small. lia. Qed.

Lemma wrap32_succ x : wrap32 (wrap32 x + 1) = wrap32 (x + 1).
Proof. unfold wrap32. rewrite Zplus_mod_idemp_l. reflexivity. Qed.

(* ===================================================================== *)
(** * backend/gen_program.cpp : the compile driver *)
(* ===================================================================== *)

Module GenProgram.

Record CodeGenStrategy := {
  simdWidth : Z;
  limitRegisterPressure : bool
}.

(** [static const struct CodeGenStrategy codeGenStrategy[]] *)
Definition codeGenStrategy : list CodeGenStrategy :=
  [ {| simdWidth := 16; limitRegisterPressure := false |};
    {| simdWidth := 16; limitRegisterPressure := true |};
    {| simdWidth := 8;  limitRegisterPressure := false |};
    {| simdWidth := 8;  limitRegisterPressure := true |} ].

(** What one call of [compileKernel] did: the strategies for which a
    [GenContext] was built and run, in order, and the kernel returned
    ([None] is the [NULL] that trips the final [GBE_ASSERTM]). *)
Record Outcome (Kernel : Type) := {
  attempted : list CodeGenStrategy;
  kernel : option Kernel
}.
Arguments attempted {Kernel} _.
Arguments kernel {Kernel} _.

Section CompileKernel.
Context {Kernel : Type}.
(** [GenContext(unit, name, limitRegisterPressure).compileKernel()] once
    the function's SIMD width has been forced to the strategy's width;
    gen_context.cpp is not part of the sources. *)
Variable ctxCompileKernel : CodeGenStrategy -> option Kernel.

(** [for (; codeGen < codeGenNum; ++codeGen)], [n] iterations left. *)
Fixpoint tryStrategies (n codeGen : nat) : Outcome Kernel :=
  match n with
  | O => {| attempted := []; kernel := None |}
  | S n' =>
      match codeGenStrategy !! codeGen with
      | None => {| attempted := []; kernel := None |}
      | Some s =>
          match ctxCompileKernel s with
          | Some k => {| attempted := [s]; kernel := Some k |}
          | None =>
              let r := tryStrategies n' (S codeGen) in
              {| attempted := s :: attempted r; kernel := kernel r |}
          end
      end
  end.

(** [GenProgram::compileKernel]; [fnSimdWidth] is [fn->getSimdWidth()]
    read before the loop. *)
Definition compileKernel (fnSimdWidth : Z) : Outcome Kernel :=
  let codeGenNum := if decide (fnSimdWidth <> 0) then 2%nat else 4%nat in
  let codeGen := if decide (fnSimdWidth = 8) then 2%nat else 0%nat in
  tryStrategies (codeGenNum - codeGen) codeGen.

(** The strategies whose width is [w], in table order. *)
Definition strategiesOfWidth (w : Z) : list CodeGenStrategy :=
  filter (fun s => simdWidth s = w) codeGenStrategy.

(** The prefix of [l] up to and including the first success. *)
Fixpoint untilFirstSuccess (l : list CodeGenStrategy) : Outcome Kernel :=
  match l with
  | [] => {| attempted := []; kernel := None |}
  | s :: l' =>
      match ctxCompileKernel s with
      | Some k => {| attempted := [s]; kernel := Some k |}
      | None =>
          let r := untilFirstSuccess l' in
          {| attempted := s :: attempted r; kernel := kernel r |}
      end
  end.

Lemma tryStrategies_untilFirstSuccess n codeGen :
  (codeGen + n <= length codeGenStrategy)%nat ->
  tryStrategies n codeGen =
  untilFirstSuccess (take n (drop codeGen codeGenStrategy)).
Proof.
  revert codeGen. induction n as [|n IH]; intros codeGen Hlen; [done|].
  destruct (codeGenStrategy !! codeGen) as [s|] eqn:Hs.
  - rewrite (drop_S _ _ _ Hs). cbn [take untilFirstSuccess tryStrategies].
    rewrite Hs. destruct (ctxCompileKernel s); [done|].
    by rewrite IH by lia.
  - apply lookup_ge_None in Hs. lia.
Qed.

(** Not pinned: the four strategies, in table order, up to the first
    success. *)
Lemma compileKernel_unpinned :
  compileKernel 0 = untilFirstSuccess codeGenStrategy.
Proof.
  unfold compileKernel. repeat case_decide; try lia.
  rewrite tryStrategies_untilFirstSuccess by (cbn; lia). done.
Qed.

(** Pinned to 16: the two SIMD16 strategies only. *)
Lemma compileKernel_pinned16 :
  compileKernel 16 = untilFirstSuccess (strategiesOfWidth 16).
Proof.
  unfold compileKernel. repeat case_decide; try lia.
  rewrite tryStrategies_untilFirstSuccess by (cbn; lia). done.
Qed.

(** C1 (failing input): when the function's SIMD width is pinned to 8 the
    loop starts at index 2 with bound 2, so no strategy at all is
    attempted and the returned kernel is [NULL], whereas the two SIMD8
    strategies exist in the table. *)
Theorem compileKernel_pinned8_attempts_nothing :
  attempted (compileKernel 8) = [] /\
  kernel (compileKernel 8) = None /\
  length (strategiesOfWidth 8) = 2%nat.
Proof. done. Qed.

(** The strategies [compileKernel] walks through for a function whose
    width is [w]: the table when the width is free, its first two entries
    when it is forced to anything but 8. *)
Definition candidates (w : Z) : list CodeGenStrategy :=
  if decide (w = 0) then codeGenStrategy else take 2 codeGenStrategy.

Lemma untilFirstSuccess_spec l :
  exists n : nat,
    (n <= length l)%nat /\
    attempted (untilFirstSuccess l) = take n l /\
    (forall i s, (S i < n)%nat -> l !! i = Some s ->
                 ctxCompileKernel s = None) /\
    (kernel (untilFirstSuccess l) = None ->
     n = length l /\ forall s, s ∈ l -> ctxCompileKernel s = None) /\
    (forall k, kernel (untilFirstSuccess l) = Some k ->
               exists s, last (attempted (untilFirstSuccess l)) = Some s /\
                         ctxCompileKernel s = Some k).
Proof.
  induction l as [|s l (n & Hn & Hatt & Hfail & Hnone & Hsome)].
  - exists 0%nat. split_and!; try done.
    + intros _. split; [done|]. by intros s ?%elem_of_nil.
  - cbn [untilFirstSuccess]. destruct (ctxCompileKernel s) as [k|] eqn:Hs.
    + exists 1%nat. cbn. split_and!; try done; try lia.
      intros k' [= <-]. by exists s.
    + exists (S n). cbn [attempted kernel length take]. split_and!.
      * lia.
      * by rewrite Hatt.
      * intros [|i] s' Hi; cbn; [by intros [= <-]|].
        apply Hfail. lia.
      * intros Hk. destruct (Hnone Hk) as [-> Hall]. split; [done|].
        intros s' [->|?]%elem_of_cons; [done|by apply Hall].
      * intros k Hk. destruct (Hsome k Hk) as (s' & Hlast & Hs').
        exists s'. split; [|done].
        destruct (attempted (untilFirstSuccess l)); [done|].
        by rewrite last_cons, Hlast.
Qed.

(** X16: for a function whose SIMD width is free, or forced to a value
    other than 8 (16, but also 4 or 32), [compileKernel] runs the
    strategies of [candidates] in table order and stops at the first one
    that yields a kernel: every strategy attempted before the last one
    failed, the kernel returned is the one of the last strategy attempted,
    and [NULL] is returned only when every candidate was attempted and
    failed. *)
Theorem compileKernel_first_success (w : Z) :
  w <> 8 ->
  exists n : nat,
    (n <= length (candidates w))%nat /\
    attempted (compileKernel w) = take n (candidates w) /\
    (forall i s, (S i < n)%nat -> candidates w !! i = Some s ->
                 ctxCompileKernel s = None) /\
    (kernel (compileKernel w) = None ->
     n = length (candidates w) /\
     forall s, s ∈ candidates w -> ctxCompileKernel s = None) /\
    (forall k, kernel (compileKernel w) = Some k ->
               exists s, last (attempted (compileKernel w)) = Some s /\
                         ctxCompileKernel s = Some k).
Proof.
  intros Hw.
  assert (Heq : compileKernel w = untilFirstSuccess (candidates w)).
  { unfold compileKernel, candidates. repeat case_decide; try lia.
    - by rewrite tryStrategies_untilFirstSuccess by (cbn; lia).
    - by rewrite tryStrategies_untilFirstSuccess by (cbn; lia). }
  rewrite Heq. apply untilFirstSuccess_spec.
Qed.

(** The loop of [compileKernel] with the function's SIMD width as state:
    each iteration runs [setSimdWidth(simdWidth)] before the context is
    built, over the unit it gets by const reference. *)
Fixpoint tryStrategiesFn (n codeGen : nat) (fnSimdWidth : Z)
  : Outcome Kernel * Z :=
  match n with
  | O => ({| attempted := []; kernel := None |}, fnSimdWidth)
  | S n' =>
      match codeGenStrategy !! codeGen with
      | None => ({| attempted := []; kernel := None |}, fnSimdWidth)
      | Some s =>
          let fnSimdWidth := simdWidth s in
          match ctxCompileKernel s with
          | Some k => ({| attempted := [s]; kernel := Some k |}, fnSimdWidth)
          | None =>
              let '(r, w) := tryStrategiesFn n' (S codeGen) fnSimdWidth in
              ({| attempted := s :: attempted r; kernel := kernel r |}, w)
          end
      end
  end.

(** [GenProgram::compileKernel] with the width it leaves in the
    function. *)
Definition compileKernelFn (fnSimdWidth : Z) : Outcome Kernel * Z :=
  let codeGenNum := if decide (fnSimdWidth <> 0) then 2%nat else 4%nat in
  let codeGen := if decide (fnSimdWidth = 8) then 2%nat else 0%nat in
  tryStrategiesFn (codeGenNum - codeGen) codeGen fnSimdWidth.

Lemma tryStrategiesFn_spec n : forall codeGen w,
  fst (tryStrategiesFn n codeGen w) = tryStrategies n codeGen /\
  snd (tryStrategiesFn n codeGen w) =
  match last (attempted (tryStrategies n codeGen)) with
  | Some s => simdWidth s
  | None => w
  end.
Proof.
  induction n as [|n IH]; intros codeGen w; [done|]. cbn.
  destruct (codeGenStrategy !! codeGen) as [s|]; [|done].
  destruct (ctxCompileKernel s) as [k|]; [done|].
  destruct (IH (S codeGen) (simdWidth s)) as [IH1 IH2].
  destruct (tryStrategiesFn n (S codeGen) (simdWidth s)) as [r w'].
  cbn [fst snd] in *. subst r. split; [done|]. cbn [attempted].
  rewrite IH2. cbn [snd]. rewrite last_cons.
  by destruct (last (attempted (tryStrategies n (S codeGen)))).
Qed.

Lemma compileKernelFn_spec w :
  fst (compileKernelFn w) = compileKernel w /\
  snd (compileKernelFn w) =
  match last (attempted (compileKernel w)) with
  | Some s => simdWidth s
  | None => w
  end.
Proof. apply tryStrategiesFn_spec. Qed.

(** X17: a call of [compileKernel] that returns a kernel leaves the
    function forced to the width of that kernel's strategy, so compiling
    the same function once more walks through the two SIMD16 strategies
    only when the first kernel was a SIMD16 one, and attempts nothing,
    returning [NULL], when it was a SIMD8 one. *)
Theorem compileKernel_again (w : Z) (k : Kernel) :
  kernel (fst (compileKernelFn w)) = Some k ->
  exists s,
    last (attempted (fst (compileKernelFn w))) = Some s /\
    ctxCompileKernel s = Some k /\
    snd (compileKernelFn w) = simdWidth s /\
    (simdWidth s = 16 \/ simdWidth s = 8) /\
    (simdWidth s = 16 ->
     fst (compileKernelFn (snd (compileKernelFn w)))
     = untilFirstSuccess (take 2 codeGenStrategy)) /\
    (simdWidth s = 8 ->
     compileKernelFn (snd (compileKernelFn w))
     = ({| attempted := []; kernel := None |}, 8)).
Proof.
  destruct (compileKernelFn_spec w) as [-> ->]. intros Hk.
  assert (Hw : w <> 8) by (by intros ->).
  assert (Heq : compileKernel w = untilFirstSuccess (candidates w)).
  { unfold compileKernel, candidates. repeat case_decide; try lia.
    - by rewrite tryStrategies_untilFirstSuccess by (cbn; lia).
    - by rewrite tryStrategies_untilFirstSuccess by (cbn; lia). }
  destruct (untilFirstSuccess_spec (candidates w))
    as (n & Hn & Hatt & _ & _ & Hsome).
  rewrite <- Heq in Hatt, Hsome.
  destruct (Hsome k Hk) as (s & Hlast & Hs).
  exists s. rewrite Hlast.
  assert (Hin : s ∈ codeGenStrategy).
  { apply last_Some_elem_of in Hlast. rewrite Hatt in Hlast.
    apply elem_of_take in Hlast as (i & Hi & _).
    apply list_elem_of_lookup_2 in Hi. unfold candidates in Hi.
    case_decide; [done|].
    by apply elem_of_take in Hi as (j & ?%list_elem_of_lookup_2 & _). }
  split_and!; try done.
  - unfold codeGenStrategy in Hin.
    repeat (apply elem_of_cons in Hin as [->|Hin]); cbn; auto.
    by apply elem_of_nil in Hin.
  - intros ->. destruct (compileKernelFn_spec 16) as [-> _].
    apply compileKernel_pinned16.
  - by intros ->.
Qed.

End CompileKernel.

(** A context that succeeds with limited register pressure only. *)
Definition demoContext (s : CodeGenStrategy) : option nat :=
  if limitRegisterPressure s then Some (Z.to_nat (simdWidth s)) else None.

Lemma compileKernel_first_success_witness :
  exists n : nat,
    (n <= length (candidates 0))%nat /\
    attempted (compileKernel demoContext 0) = take n (candidates 0).
Proof.
  destruct (compileKernel_first_success demoContext 0 ltac:(lia))
    as (n & Hn & Hatt & _).
  exists n. split; [exact Hn|exact Hatt].
Defined.

Lemma compileKernel_again_witness :
  exists s, last (attempted (fst (compileKernelFn demoContext 0))) = Some s /\
            demoContext s = Some 16%nat.
Proof.
  destruct (compileKernel_again demoContext 0 16%nat eq_refl)
    as (s & Hlast & Hs & _).
  exists s. split; [exact Hlast|exact Hs].
Defined.

End GenProgram.

(* ===================================================================== *)
(** * ir/instruction.{hpp,cpp}, ir/function.{hpp,cpp} : the scalar IR *)
(* ===================================================================== *)

Module IR.

Local Open Scope nat_scope.

(** [ir::Type] (the enumerators named by [Function::outImmediate]). *)
Inductive IRType :=
| TYPE_BOOL | TYPE_S8 | TYPE_U8 | TYPE_S16 | TYPE_U16 | TYPE_S32 | TYPE_U32
| TYPE_S64 | TYPE_U64 | TYPE_HALF | TYPE_FLOAT | TYPE_DOUBLE.

#[global] Instance IRType_eq_dec : EqDecision IRType.
Proof. solve_decision. Defined.

(** Modelled from the spec: [ir::RegisterFamily] of ir/register.hpp, which
    is not part of the sources (only [FAMILY_BOOL] is named by them). *)
Inductive RegisterFamily :=
| FAMILY_BOOL | FAMILY_BYTE | FAMILY_WORD | FAMILY_DWORD | FAMILY_QWORD.

#[global] Instance RegisterFamily_eq_dec : EqDecision RegisterFamily.
Proof. solve_decision. Defined.

(** The [TYPE_SAFE] 16-bit indices; they are only compared and used as
    positions, so they are natural numbers here. *)
Abbreviation Register := nat (only parsing).
Abbreviation Tuple := nat (only parsing).
Abbreviation LabelIndex := nat (only parsing).
Abbreviation ImmediateIndex := nat (only parsing).

(** [ir::Opcode] (the opcodes that have an emission function). *)
Inductive Opcode :=
| OP_MOV | OP_COS | OP_SIN | OP_RCP | OP_ABS | OP_LOG | OP_SQR | OP_RSQ
| OP_RNDD | OP_RNDE | OP_RNDU | OP_RNDZ
| OP_POW | OP_MUL | OP_ADD | OP_SUB | OP_DIV | OP_REM | OP_SHL | OP_SHR
| OP_ASR | OP_BSF | OP_BSB | OP_OR | OP_XOR | OP_AND
| OP_SEL
| OP_EQ | OP_NE | OP_LE | OP_LT | OP_GE | OP_GT
| OP_CVT | OP_BRA | OP_RET | OP_LOAD | OP_STORE | OP_LOADI | OP_SYNC
| OP_TYPED_WRITE | OP_SAMPLE | OP_LABEL
| OP_INVALID.

#[global] Instance Opcode_eq_dec : EqDecision Opcode.
Proof. solve_decision. Defined.

Inductive AddressSpace :=
| MEM_GLOBAL | MEM_LOCAL | MEM_CONSTANT | MEM_PRIVATE | MEM_INVALID.

(** The classes of [namespace internal], one constructor per class, with
    the fields each class declares. *)
Inductive Instruction :=
| UnaryInstruction (opcode : Opcode) (type : IRType) (dst src : Register)
| BinaryInstruction (opcode : Opcode) (type : IRType)
                    (dst src0 src1 : Register)
| SelectInstruction (type : IRType) (dst : Register) (src : Tuple)
| CompareInstruction (opcode : Opcode) (type : IRType)
                     (dst src0 src1 : Register)
| ConvertInstruction (dstType srcType : IRType) (dst src : Register)
| BranchInstruction (opcode : Opcode) (predicate : Register)
                    (labelIndex : LabelIndex) (hasPredicate hasLabel : bool)
| LoadInstruction (type : IRType) (offset : Register) (values : Tuple)
                  (addrSpace : AddressSpace) (valueNum : nat)
                  (dwAligned : bool)
| StoreInstruction (type : IRType) (offset : Register) (values : Tuple)
                   (addrSpace : AddressSpace) (valueNum : nat)
                   (dwAligned : bool)
| SampleInstruction
| TypedWriteInstruction
| LoadImmInstruction (type : IRType) (dst : Register)
                     (immediateIndex : ImmediateIndex)
| SyncInstruction (parameters : Z)
| LabelInstruction (labelIndex : LabelIndex)
| InvalidInstruction.

#[global] Instance AddressSpace_eq_dec : EqDecision AddressSpace.
Proof. solve_decision. Defined.

#[global] Instance Instruction_eq_dec : EqDecision Instruction.
Proof. solve_decision. Defined.

(** Emission functions of instruction.cpp. *)
Definition BRA (labelIndex : LabelIndex) : Instruction :=
  BranchInstruction OP_BRA 0 labelIndex false true.
Definition BRA_pred (labelIndex : LabelIndex) (pred : Register) : Instruction :=
  BranchInstruction OP_BRA pred labelIndex true true.
Definition RET : Instruction := BranchInstruction OP_RET 0 0 false false.
Definition LABEL (labelIndex : LabelIndex) : Instruction :=
  LabelInstruction labelIndex.
Definition SYNC (parameters : Z) : Instruction :=
  SyncInstruction (wrap32 parameters).

Definition getOpcode (insn : Instruction) : Opcode :=
  match insn with
  | UnaryInstruction op _ _ _ => op
  | BinaryInstruction op _ _ _ _ => op
  | SelectInstruction _ _ _ => OP_SEL
  | CompareInstruction op _ _ _ _ => op
  | ConvertInstruction _ _ _ _ => OP_CVT
  | BranchInstruction op _ _ _ _ => op
  | LoadInstruction _ _ _ _ _ _ => OP_LOAD
  | StoreInstruction _ _ _ _ _ _ => OP_STORE
  | SampleInstruction => OP_SAMPLE
  | TypedWriteInstruction => OP_TYPED_WRITE
  | LoadImmInstruction _ _ _ => OP_LOADI
  | SyncInstruction _ => OP_SYNC
  | LabelInstruction _ => OP_LABEL
  | InvalidInstruction => OP_INVALID
  end.

(** [SYNC_*] bits of instruction.hpp. *)
Definition SYNC_WORKGROUP_EXEC : Z := Z.shiftl 1 0.
Definition SYNC_LOCAL_READ_FENCE : Z := Z.shiftl 1 1.
Definition SYNC_LOCAL_WRITE_FENCE : Z := Z.shiftl 1 2.
Definition SYNC_GLOBAL_READ_FENCE : Z := Z.shiftl 1 3.
Definition SYNC_GLOBAL_WRITE_FENCE : Z := Z.shiftl 1 4.
Definition SYNC_INVALID : Z := Z.shiftl 1 5.

Record RegisterData := { family : RegisterFamily }.

(** Modelled from the spec: [ir::RegisterFile] of ir/register.hpp, which is
    not part of the sources: one entry per virtual register, and the tuples
    stored back to back in one vector, a tuple being the position of its
    first register. *)
Record RegisterFile := {
  regs : list RegisterData;
  regTuples : list Register
}.

Record Immediate := { immType : IRType }.

Inductive Profile := PROFILE_C | PROFILE_OCL.

#[global] Instance Profile_eq_dec : EqDecision Profile.
Proof. solve_decision. Defined.

(** [BasicBlock]: the instruction list and the CFG fields; block pointers
    are block numbers in [Function::blocks]. *)
Record BasicBlock := {
  insns : list Instruction;
  predecessors : gset nat;
  successors : gset nat;
  nextBlock : option nat;
  prevBlock : option nat
}.

Record Function := {
  labels : list (option nat);
  immediates : list Immediate;
  blocks : list BasicBlock;
  file : RegisterFile;
  profile : Profile;
  simdWidth : Z
}.

Definition regNum (fn : Function) : nat := length (regs (file fn)).
Definition tupleNum (fn : Function) : nat := length (regTuples (file fn)).
Definition labelNum (fn : Function) : nat := length (labels fn).
Definition immediateNum (fn : Function) : nat := length (immediates fn).
Definition blockNum (fn : Function) : nat := length (blocks fn).

(** [file.get(reg)], [file.get(ID, which)], [immediates[ID]]: an
    out-of-range access is [None]. *)
Definition getRegisterData (fn : Function) (reg : Register)
  : option RegisterData := regs (file fn) !! reg.
Definition getRegister (fn : Function) (ID : Tuple) (which : nat)
  : option Register := regTuples (file fn) !! (ID + which).
Definition getImmediate (fn : Function) (ID : ImmediateIndex)
  : option Immediate := immediates fn !! ID.

Section WellFormed.
(** Of ir/type.hpp and ir/profile.hpp, which are not part of the
    sources: the family of a type, the number of special registers of
    the OpenCL profile and the stack pointer among them. *)
Variable getFamily : IRType -> RegisterFamily.
Variable ocl_regNum : Z.
Variable ocl_stackptr : Register.

Definition getFirstSpecialReg (fn : Function) : Z :=
  if decide (profile fn = PROFILE_OCL) then 0%Z else (2 ^ 32 - 1)%Z.

Definition getSpecialRegNum (fn : Function) : Z :=
  if decide (profile fn = PROFILE_OCL) then wrap32 ocl_regNum
  else (2 ^ 32 - 1)%Z.

Definition isSpecialReg (fn : Function) (reg : Register) : bool :=
  let ID := Z.of_nat reg in
  let firstID := getFirstSpecialReg fn in
  let specialNum := getSpecialRegNum fn in
  bool_decide (firstID <= ID)%Z &&
  bool_decide (ID < wrap32 (firstID + specialNum))%Z.

Definition checkRegisterData (fam : RegisterFamily) (ID : Register)
           (fn : Function) : bool :=
  if bool_decide (regNum fn <= ID) then false
  else match getRegisterData fn ID with
       | Some reg => bool_decide (family reg = fam)
       | None => false
       end.

Definition checkSpecialRegForWrite (reg : Register) (fn : Function)
  : bool :=
  negb (isSpecialReg fn reg && negb (bool_decide (reg = ocl_stackptr))).

Definition checkTypeFamily (type : IRType) (fam : list IRType) : bool :=
  bool_decide (type ∈ fam).

Definition madType : list IRType := [TYPE_FLOAT].
Definition allButBool : list IRType :=
  [TYPE_S8; TYPE_U8; TYPE_S16; TYPE_U16; TYPE_S32; TYPE_U32;
   TYPE_FLOAT; TYPE_DOUBLE].
Definition logicalType : list IRType :=
  [TYPE_S8; TYPE_U8; TYPE_S16; TYPE_U16; TYPE_S32; TYPE_U32; TYPE_BOOL].

(** [NaryInstruction<srcNum>::wellFormed] *)
Definition wellFormedNary (fn : Function) (opcode : Opcode)
           (type : IRType) (dst : Register) (src : list Register) : bool :=
  let fam := getFamily type in
  checkSpecialRegForWrite dst fn &&
  checkRegisterData fam dst fn &&
  forallb (fun s => checkRegisterData fam s fn) src &&
  match opcode with
  | OP_OR | OP_XOR | OP_AND => checkTypeFamily type logicalType
  | OP_POW | OP_COS | OP_SIN | OP_RCP | OP_ABS | OP_RSQ | OP_SQR
  | OP_RNDD | OP_RNDE | OP_RNDU | OP_RNDZ =>
      checkTypeFamily TYPE_FLOAT [TYPE_FLOAT]
  | _ => checkTypeFamily type allButBool
  end.

(** The loop over the registers of a tuple: [None] when a read leaves
    the tuple vector. *)
Fixpoint checkTuple (fn : Function) (check : Register -> bool)
         (ID : Tuple) (first n : nat) : option bool :=
  match n with
  | O => Some true
  | S n' =>
      match getRegister fn ID first with
      | None => None
      | Some regID =>
          if check regID then checkTuple fn check ID (S first) n'
          else Some false
      end
  end.

(** [SelectInstruction::wellFormed] *)
Definition wellFormedSelect (fn : Function) (type : IRType)
           (dst : Register) (src : Tuple) : option bool :=
  let fam := getFamily type in
  if negb (checkSpecialRegForWrite dst fn) then Some false
  else if negb (checkRegisterData fam dst fn) then Some false
  else if bool_decide (tupleNum fn < src + 3) then Some false
  else
    match checkTuple fn (fun r => checkRegisterData FAMILY_BOOL r fn)
                     src 0 1 with
    | Some true =>
        match checkTuple fn (fun r => checkRegisterData fam r fn)
                         src 1 2 with
        | Some true => Some (checkTypeFamily type allButBool)
        | r => r
        end
    | r => r
    end.

(** [CompareInstruction::wellFormed] *)
Definition wellFormedCompare (fn : Function) (type : IRType)
           (dst src0 src1 : Register) : bool :=
  checkSpecialRegForWrite dst fn &&
  checkRegisterData FAMILY_BOOL dst fn &&
  forallb (fun s => checkRegisterData (getFamily type) s fn) [src0; src1] &&
  checkTypeFamily type allButBool.

(** [ConvertInstruction::wellFormed] *)
Definition wellFormedConvert (fn : Function) (dstType srcType : IRType)
           (dst src : Register) : bool :=
  checkSpecialRegForWrite dst fn &&
  checkRegisterData (getFamily dstType) dst fn &&
  checkRegisterData (getFamily srcType) src fn &&
  checkTypeFamily dstType allButBool &&
  checkTypeFamily srcType allButBool.

(** [wellFormedLoadStore] *)
Definition wellFormedLoadStore (fn : Function) (type : IRType)
           (offset : Register) (values : Tuple) (valueNum : nat)
  : option bool :=
  if bool_decide (regNum fn <= offset) then Some false
  else if bool_decide (tupleNum fn < values + valueNum) then Some false
  else
    match checkTuple fn (fun r => checkRegisterData (getFamily type) r fn)
                     values 0 valueNum with
    | Some true => Some (checkTypeFamily type allButBool)
    | r => r
    end.

Definition MAX_SRC_NUM : nat := 8.
Definition MAX_DST_NUM : nat := 8.

(** [LoadInstruction::wellFormed]: the destinations are read from the
    tuple vector before the tuple bound is checked. *)
Definition wellFormedLoad (fn : Function) (type : IRType)
           (offset : Register) (values : Tuple) (valueNum : nat)
  : option bool :=
  match checkTuple fn (fun r => checkSpecialRegForWrite r fn)
                   values 0 valueNum with
  | Some true =>
      if bool_decide (MAX_DST_NUM < valueNum) then Some false
      else wellFormedLoadStore fn type offset values valueNum
  | r => r
  end.

(** [StoreInstruction::wellFormed] *)
Definition wellFormedStore (fn : Function) (type : IRType)
           (offset : Register) (values : Tuple) (valueNum : nat)
  : option bool :=
  if bool_decide (MAX_SRC_NUM < valueNum + 1) then Some false
  else wellFormedLoadStore fn type offset values valueNum.

(** [LoadImmInstruction::wellFormed] *)
Definition wellFormedLoadImm (fn : Function) (type : IRType)
           (dst : Register) (immediateIndex : ImmediateIndex) : bool :=
  if bool_decide (immediateNum fn <= immediateIndex) then false
  else match getImmediate fn immediateIndex with
       | None => false
       | Some imm =>
           if negb (bool_decide (type = immType imm)) then false
           else
             checkSpecialRegForWrite dst fn &&
             checkRegisterData (getFamily type) dst fn &&
             checkTypeFamily type allButBool
       end.

(** [SyncInstruction::wellFormed] *)
Definition wellFormedSync (parameters : Z) : bool :=
  let maxParams :=
    Z.lor SYNC_WORKGROUP_EXEC
      (Z.lor SYNC_LOCAL_READ_FENCE
         (Z.lor SYNC_LOCAL_WRITE_FENCE
            (Z.lor SYNC_GLOBAL_READ_FENCE SYNC_GLOBAL_WRITE_FENCE))) in
  if bool_decide (maxParams < parameters)%Z then false
  else if bool_decide (parameters = 0%Z) then false
  else true.

(** [LabelInstruction::wellFormed] *)
Definition wellFormedLabel (fn : Function) (labelIndex : LabelIndex)
  : bool :=
  if bool_decide (labelNum fn <= labelIndex) then false else true.

(** [BranchInstruction::wellFormed] *)
Definition wellFormedBranch (fn : Function) (predicate : Register)
           (labelIndex : LabelIndex) (hasPredicate hasLabel : bool)
  : bool :=
  if hasLabel && bool_decide (labelNum fn <= labelIndex) then false
  else if hasPredicate && negb (checkRegisterData FAMILY_BOOL predicate fn)
       then false
  else true.

(** [Instruction::wellFormed]: the dispatch on the opcode's class. *)
Definition wellFormed (fn : Function) (insn : Instruction) : option bool :=
  match insn with
  | UnaryInstruction op type dst src =>
      Some (wellFormedNary fn op type dst [src])
  | BinaryInstruction op type dst src0 src1 =>
      Some (wellFormedNary fn op type dst [src0; src1])
  | SelectInstruction type dst src => wellFormedSelect fn type dst src
  | CompareInstruction _ type dst src0 src1 =>
      Some (wellFormedCompare fn type dst src0 src1)
  | ConvertInstruction dstType srcType dst src =>
      Some (wellFormedConvert fn dstType srcType dst src)
  | BranchInstruction _ predicate labelIndex hasPredicate hasLabel =>
      Some (wellFormedBranch fn predicate labelIndex hasPredicate hasLabel)
  | LoadInstruction type offset values _ valueNum _ =>
      wellFormedLoad fn type offset values valueNum
  | StoreInstruction type offset values _ valueNum _ =>
      wellFormedStore fn type offset values valueNum
  | SampleInstruction => Some true
  | TypedWriteInstruction => Some true
  | LoadImmInstruction type dst immediateIndex =>
      Some (wellFormedLoadImm fn type dst immediateIndex)
  | SyncInstruction parameters => Some (wellFormedSync parameters)
  | LabelInstruction labelIndex => Some (wellFormedLabel fn labelIndex)
  | InvalidInstruction => Some false
  end.

(** The operand accessors of the policies ([getSrcNum], [getSrc],
    [getDstNum], [getDst]). *)
Definition getSrcNum (insn : Instruction) : nat :=
  match insn with
  | UnaryInstruction _ _ _ _ => 1
  | BinaryInstruction _ _ _ _ _ => 2
  | SelectInstruction _ _ _ => 3
  | CompareInstruction _ _ _ _ _ => 2
  | ConvertInstruction _ _ _ _ => 1
  | BranchInstruction _ _ _ hasPredicate _ => if hasPredicate then 1 else 0
  | LoadInstruction _ _ _ _ _ _ => 1
  | StoreInstruction _ _ _ _ valueNum _ => valueNum + 1
  | _ => 0
  end.

Definition getDstNum (insn : Instruction) : nat :=
  match insn with
  | UnaryInstruction _ _ _ _ | BinaryInstruction _ _ _ _ _
  | SelectInstruction _ _ _ | CompareInstruction _ _ _ _ _
  | ConvertInstruction _ _ _ _ | LoadImmInstruction _ _ _ => 1
  | LoadInstruction _ _ _ _ valueNum _ => valueNum
  | _ => 0
  end.

Definition getSrc (fn : Function) (insn : Instruction) (ID : nat)
  : option Register :=
  match insn with
  | UnaryInstruction _ _ _ src => [src] !! ID
  | BinaryInstruction _ _ _ src0 src1 => [src0; src1] !! ID
  | SelectInstruction _ _ src =>
      if bool_decide (ID < 3) then getRegister fn src ID else None
  | CompareInstruction _ _ _ src0 src1 => [src0; src1] !! ID
  | ConvertInstruction _ _ _ src => [src] !! ID
  | BranchInstruction _ predicate _ hasPredicate _ =>
      if hasPredicate && bool_decide (ID = 0) then Some predicate else None
  | LoadInstruction _ offset _ _ _ _ => [offset] !! ID
  | StoreInstruction _ offset values _ valueNum _ =>
      if bool_decide (ID < valueNum + 1) then
        if bool_decide (ID = 0) then Some offset
        else getRegister fn values (ID - 1)
      else None
  | _ => None
  end.

Definition getDst (fn : Function) (insn : Instruction) (ID : nat)
  : option Register :=
  match insn with
  | UnaryInstruction _ _ dst _ | BinaryInstruction _ _ dst _ _
  | SelectInstruction _ dst _ | CompareInstruction _ _ dst _ _
  | ConvertInstruction _ _ dst _ | LoadImmInstruction _ dst _ =>
      [dst] !! ID
  | LoadInstruction _ _ values _ valueNum _ =>
      if bool_decide (ID < valueNum) then getRegister fn values ID
      else None
  | _ => None
  end.

(** ** What [wellFormed] guarantees *)

(** The family an operand must have, as the comments of the [wellFormed]
methods state it: the family of the instruction's type, except the
boolean destination of a compare, the boolean first source of a select and
the boolean predicate of a branch; types of a conversion apply to their own
side; nothing is required of the address register of a load or a store. *)
Definition requiredSrcFamily (insn : Instruction) (ID : nat)
  : option RegisterFamily :=
  match insn with
  | UnaryInstruction _ type _ _ | BinaryInstruction _ type _ _ _
  | CompareInstruction _ type _ _ _ => Some (getFamily type)
  | SelectInstruction type _ _ =>
      Some (if bool_decide (ID = 0) then FAMILY_BOOL else getFamily type)
  | ConvertInstruction _ srcType _ _ => Some (getFamily srcType)
  | BranchInstruction _ _ _ _ _ => Some FAMILY_BOOL
  | StoreInstruction type _ _ _ _ _ =>
      if bool_decide (ID = 0) then None else Some (getFamily type)
  | _ => None
  end.

Definition requiredDstFamily (insn : Instruction) : option RegisterFamily :=
  match insn with
  | UnaryInstruction _ type _ _ | BinaryInstruction _ type _ _ _
  | SelectInstruction type _ _ | LoadInstruction type _ _ _ _ _
  | LoadImmInstruction type _ _ => Some (getFamily type)
  | CompareInstruction _ _ _ _ _ => Some FAMILY_BOOL
  | ConvertInstruction dstType _ _ _ => Some (getFamily dstType)
  | _ => None
  end.

(** A register is in the register file and of the required family. *)
Definition registerOK (fn : Function) (required : option RegisterFamily)
           (reg : Register) : Prop :=
  reg < regNum fn /\
  forall fam, required = Some fam ->
              family <$> getRegisterData fn reg = Some fam.

(** A written register is not a special one, the stack pointer apart. *)
Definition writableOK (fn : Function) (reg : Register) : Prop :=
  isSpecialReg fn reg = true -> reg = ocl_stackptr.

(** The tuple, label and immediate indices an instruction holds are in
bounds. *)
Definition indicesInBounds (fn : Function) (insn : Instruction) : Prop :=
  match insn with
  | SelectInstruction _ _ src => src + 3 <= tupleNum fn
  | LoadInstruction _ _ values _ valueNum _
  | StoreInstruction _ _ values _ valueNum _ =>
      values + valueNum <= tupleNum fn
  | LoadImmInstruction _ _ immediateIndex => immediateIndex < immediateNum fn
  | LabelInstruction labelIndex => labelIndex < labelNum fn
  | BranchInstruction _ _ labelIndex _ hasLabel =>
      hasLabel = true -> labelIndex < labelNum fn
  | _ => True
  end.

Lemma checkRegisterData_true fam reg fn :
  checkRegisterData fam reg fn = true -> registerOK fn (Some fam) reg.
Proof.
  unfold checkRegisterData, registerOK. case_bool_decide; [done|].
  destruct (getRegisterData fn reg) as [d|]; [|done].
  intros Hd%bool_decide_eq_true. split; [lia|].
  intros fam' [= <-]. by rewrite <- Hd.
Qed.

Lemma registerOK_weaken fn fam reg :
  registerOK fn (Some fam) reg -> registerOK fn None reg.
Proof. intros [? _]. split; [done|]. by intros. Qed.

Lemma checkSpecialRegForWrite_true reg fn :
  checkSpecialRegForWrite reg fn = true -> writableOK fn reg.
Proof.
  unfold checkSpecialRegForWrite, writableOK. intros H Hs. rewrite Hs in H.
  cbn in H. apply negb_true_iff, negb_false_iff in H.
  by apply bool_decide_eq_true in H.
Qed.

Lemma checkTuple_true fn check ID first n :
  checkTuple fn check ID first n = Some true ->
  forall i, first <= i < first + n ->
            exists reg, getRegister fn ID i = Some reg /\ check reg = true.
Proof.
  revert first. induction n as [|n IH]; intros first H i Hi; [lia|].
  cbn [checkTuple] in H.
  destruct (getRegister fn ID first) as [r|] eqn:Hr; [|done].
  destruct (check r) eqn:Hc; [|done].
  destruct (decide (i = first)) as [->|Hne]; [by eauto|].
  apply (IH (S first) H). lia.
Qed.

Lemma wellFormedLoadStore_true fn type offset values valueNum :
  wellFormedLoadStore fn type offset values valueNum = Some true ->
  offset < regNum fn /\ values + valueNum <= tupleNum fn /\
  forall i, i < valueNum ->
            exists reg, getRegister fn values i = Some reg /\
                        registerOK fn (Some (getFamily type)) reg.
Proof.
  unfold wellFormedLoadStore. repeat case_bool_decide; try done.
  destruct (checkTuple _ _ _ _ _) as [[]|] eqn:Ht; try done.
  intros _. split_and!; [lia..|].
  intros i Hi. destruct (checkTuple_true _ _ _ _ _ Ht i) as (r & ? & ?); [lia|].
  exists r. split; [done|]. by apply checkRegisterData_true.
Qed.

Ltac andb_hyps :=
  repeat match goal with
         | H : _ && _ = true |- _ => apply andb_prop in H as [? ?]
         end.

Ltac operand_ok :=
  cbn; eexists; split_and!; [reflexivity|..];
  eauto using checkRegisterData_true, checkSpecialRegForWrite_true.

(** C5 (amended): an instruction that [wellFormed] accepts has every source
and destination register inside the function's register file and, the
address register of a load or a store apart (it is only checked to be in the
register file), of the family its opcode and type require (boolean
destination of a compare, boolean first source of a select), every tuple,
label and immediate index it holds in bounds, and writes no special register
other than the stack pointer. *)
Theorem wellFormed_operands (fn : Function) (insn : Instruction) :
  wellFormed fn insn = Some true ->
  (forall ID, ID < getSrcNum insn ->
     exists reg, getSrc fn insn ID = Some reg /\
                 registerOK fn (requiredSrcFamily insn ID) reg) /\
  (forall ID, ID < getDstNum insn ->
     exists reg, getDst fn insn ID = Some reg /\
                 registerOK fn (requiredDstFamily insn) reg /\
                 writableOK fn reg) /\
  indicesInBounds fn insn.
Proof.
  destruct insn; cbn [wellFormed getSrcNum getDstNum getSrc getDst
                      requiredSrcFamily requiredDstFamily indicesInBounds].
  - (* unary *)
    intros [= H]. unfold wellFormedNary in H. cbn [forallb] in H.
    andb_hyps.
    split_and!; [| |done]; intros [|ID] HID; try lia; operand_ok.
  - (* binary *)
    intros [= H]. unfold wellFormedNary in H. cbn [forallb] in H.
    andb_hyps.
    split_and!; [| |done]; intros [|[|ID]] HID; try lia; operand_ok.
  - (* select *)
    unfold wellFormedSelect.
    destruct (checkSpecialRegForWrite dst fn) eqn:Hw; [|done].
    destruct (checkRegisterData (getFamily type) dst fn) eqn:Hd; [|done].
    cbn [negb]. case_bool_decide; [done|].
    destruct (checkTuple _ _ _ 0 1) as [[]|] eqn:H0; try done.
    destruct (checkTuple _ _ _ 1 2) as [[]|] eqn:H1; try done.
    intros _. split_and!; [| |lia].
    + intros ID HID. rewrite bool_decide_eq_true_2 by done.
      destruct (decide (ID = 0)) as [->|Hne].
      * destruct (checkTuple_true _ _ _ _ _ H0 0) as (r & ? & ?); [lia|].
        eauto using checkRegisterData_true.
      * rewrite (bool_decide_eq_false_2 (ID = 0)) by done.
        destruct (checkTuple_true _ _ _ _ _ H1 ID) as (r & ? & ?); [lia|].
        eauto using checkRegisterData_true.
    + intros [|ID] HID; [|lia]. operand_ok.
  - (* compare *)
    intros [= H]. unfold wellFormedCompare in H. cbn [forallb] in H.
    andb_hyps.
    split_and!; [| |done]; intros [|[|ID]] HID; try lia; operand_ok.
  - (* convert *)
    intros [= H]. unfold wellFormedConvert in H.
    andb_hyps.
    split_and!; [| |done]; intros [|ID] HID; try lia; operand_ok.
  - (* branch *)
    intros [= H]. unfold wellFormedBranch in H.
    destruct hasLabel, hasPredicate; cbn in H;
      repeat case_bool_decide; try done;
      (split_and!; [|intros ID HID; lia|intros; lia]);
      intros [|ID] HID; try lia; cbn.
    + destruct (checkRegisterData FAMILY_BOOL predicate fn) eqn:Hp; [|done].
      eauto using checkRegisterData_true.
    + destruct (checkRegisterData FAMILY_BOOL predicate fn) eqn:Hp; [|done].
      eauto using checkRegisterData_true.
  - (* load *)
    unfold wellFormedLoad.
    destruct (checkTuple _ _ _ _ _) as [[]|] eqn:Hsp; try done.
    case_bool_decide; [done|].
    intros (Ho & Ht & Hv)%wellFormedLoadStore_true.
    split_and!; [| |done].
    + intros [|ID] HID; [|lia]. cbn. eexists; split; [done|]. split; [done|].
      by intros.
    + intros ID HID. rewrite bool_decide_eq_true_2 by done.
      destruct (Hv ID HID) as (r & Hr & Hok).
      destruct (checkTuple_true _ _ _ _ _ Hsp ID) as (r' & Hr' & Hw); [lia|].
      rewrite Hr in Hr'. injection Hr' as <-.
      eauto using checkSpecialRegForWrite_true.
  - (* store *)
    unfold wellFormedStore. case_bool_decide; [done|].
    intros (Ho & Ht & Hv)%wellFormedLoadStore_true.
    split_and!; [|intros; lia|done].
    intros ID HID. rewrite bool_decide_eq_true_2 by lia.
    destruct (decide (ID = 0)) as [->|Hne].
    + cbn. eexists; split; [done|]. split; [done|]. by intros.
    + rewrite !(bool_decide_eq_false_2 (ID = 0)) by done.
      destruct (Hv (ID - 1)) as (r & Hr & Hok); [lia|]. eauto.
  - (* sample *) intros _. split_and!; [intros; lia..|done].
  - (* typed write *) intros _. split_and!; [intros; lia..|done].
  - (* load immediate *)
    intros [= H]. unfold wellFormedLoadImm in H.
    case_bool_decide; [done|].
    destruct (getImmediate fn immediateIndex); [|done].
    case_bool_decide; [|done]. cbn [negb] in H.
    andb_hyps.
    split_and!; [intros; lia| |lia].
    intros [|ID] HID; [|lia]. operand_ok.
  - (* sync *) intros _. split_and!; [intros; lia..|done].
  - (* label *)
    intros [= H]. unfold wellFormedLabel in H. case_bool_decide; [done|].
    split_and!; [intros; lia..|lia].
  - (* invalid *) done.
Qed.

(** The largest legal fence mask: the OR of the five scope bits. *)
Definition syncMaxParams : Z :=
  Z.lor SYNC_WORKGROUP_EXEC
    (Z.lor SYNC_LOCAL_READ_FENCE
       (Z.lor SYNC_LOCAL_WRITE_FENCE
          (Z.lor SYNC_GLOBAL_READ_FENCE SYNC_GLOBAL_WRITE_FENCE))).

(** C6: a sync instruction is rejected exactly when its parameter mask is
zero or strictly above the OR of the five scope bits (which is 31), and
accepted for every other mask, that is for every mask from 1 up to that
maximum ([parameters] is a [uint32_t], so a non-zero mask is positive). *)
Theorem wellFormed_sync (fn : Function) (parameters : Z) :
  (wellFormed fn (SyncInstruction parameters) = Some false <->
   parameters = 0%Z \/ (syncMaxParams < parameters)%Z) /\
  (wellFormed fn (SyncInstruction parameters) = Some true <->
   parameters <> 0%Z /\ (parameters <= syncMaxParams)%Z) /\
  syncMaxParams = 31%Z.
Proof.
  cbn [wellFormed]. unfold wellFormedSync. fold syncMaxParams.
  assert (syncMaxParams = 31%Z) as -> by reflexivity.
  repeat case_bool_decide; split_and!; try done; split; intros;
    try done; try lia; intuition (try lia; try done).
Qed.

End WellFormed.

(** A concrete function and load instruction on which the guarantee of
[wellFormed] is exercised. *)
Definition demoFamily (t : IRType) : RegisterFamily :=
  match t with
  | TYPE_BOOL => FAMILY_BOOL
  | TYPE_S8 | TYPE_U8 => FAMILY_BYTE
  | TYPE_S16 | TYPE_U16 | TYPE_HALF => FAMILY_WORD
  | TYPE_S32 | TYPE_U32 | TYPE_FLOAT => FAMILY_DWORD
  | TYPE_S64 | TYPE_U64 | TYPE_DOUBLE => FAMILY_QWORD
  end.

Definition demoFunction : Function :=
  {| labels := [];
     immediates := [];
     blocks := [];
     file := {| regs := [ {| family := FAMILY_DWORD |};
                          {| family := FAMILY_DWORD |};
                          {| family := FAMILY_DWORD |};
                          {| family := FAMILY_DWORD |};
                          {| family := FAMILY_BOOL |} ];
                regTuples := [1; 3] |};
     profile := PROFILE_OCL;
     simdWidth := 0 |}.

Definition demoLoad : Instruction :=
  LoadInstruction TYPE_U32 2 0 MEM_GLOBAL 2 true.

Lemma wellFormed_operands_witness :
  wellFormed demoFamily 2 1 demoFunction demoLoad = Some true /\
  indicesInBounds demoFunction demoLoad.
Proof.
  split; [reflexivity|].
  apply (wellFormed_operands demoFamily 2 1 demoFunction demoLoad).
  reflexivity.
Defined.

(** The claim about the sources, as the spec words it: the opcode and the
type of an instruction require a family of each of its sources, and every
source of an instruction that [wellFormed] accepts has that family. *)
Definition getType (insn : Instruction) : option IRType :=
  match insn with
  | UnaryInstruction _ type _ _ | BinaryInstruction _ type _ _ _
  | SelectInstruction type _ _ | CompareInstruction _ type _ _ _
  | LoadInstruction type _ _ _ _ _ | StoreInstruction type _ _ _ _ _
  | LoadImmInstruction type _ _ => Some type
  | _ => None
  end.

Definition sourcesAsClaimed
           (required : Opcode -> option IRType -> nat -> RegisterFamily)
           (fn : Function) (insn : Instruction) : Prop :=
  forall ID reg,
    getSrc fn insn ID = Some reg ->
    family <$> getRegisterData fn reg
    = Some (required (getOpcode insn) (getType insn) ID).

(** The load of [demoLoad] with a boolean register for its address. *)
Definition demoLoadBoolAddress : Instruction :=
  LoadInstruction TYPE_U32 4 0 MEM_GLOBAL 2 true.

(** C5 (counterexample): [wellFormed] accepts two loads of the same type,
one whose address register is a dword register and one whose address
register is a boolean register, so that no family is required of the
address of a load: the address register is only checked to be in the
register file. *)
Lemma wellFormed_operands_counterexample :
  wellFormed demoFamily 2 1 demoFunction demoLoad = Some true /\
  wellFormed demoFamily 2 1 demoFunction demoLoadBoolAddress = Some true /\
  (family <$> (getSrc demoFunction demoLoadBoolAddress 0
               ≫= getRegisterData demoFunction)) = Some FAMILY_BOOL /\
  ~ exists required,
      forall insn,
        insn ∈ [demoLoad; demoLoadBoolAddress] ->
        wellFormed demoFamily 2 1 demoFunction insn = Some true ->
        sourcesAsClaimed required demoFunction insn.
Proof.
  split; [reflexivity|]. split; [reflexivity|]. split; [reflexivity|].
  intros (required & Hreq).
  pose proof (Hreq demoLoad ltac:(left) eq_refl 0 2 eq_refl) as H1.
  pose proof (Hreq demoLoadBoolAddress ltac:(right; left) eq_refl 0 4 eq_refl)
    as H2.
  cbn in H1, H2. congruence.
Qed.

(** ** ir/function.cpp : [Function::sortLabels] and [Function::computeCFG] *)

(** [LabelIndex(x)] for a [uint32_t] [x]: the conversion to the 16-bit
index type. *)
Definition toLabelIndex (x : Z) : LabelIndex := Z.to_nat (wrap16 x).

(** [BasicBlock::foreach] with a functor that may replace the visited
instruction and that updates the captured variables [st]. *)
Fixpoint foreachState {S : Type}
         (functor : S -> Instruction -> S * Instruction)
         (st : S) (l : list Instruction) : S * list Instruction :=
  match l with
  | [] => (st, [])
  | insn :: l' =>
      let '(st1, insn') := functor st insn in
      let '(st2, l'') := foreachState functor st1 l' in
      (st2, insn' :: l'')
  end.

Definition withInsns (bb : BasicBlock) (l : list Instruction) : BasicBlock :=
  {| insns := l;
     predecessors := predecessors bb;
     successors := successors bb;
     nextBlock := nextBlock bb;
     prevBlock := prevBlock bb |}.

(** [Function::foreachInstruction] with such a functor. *)
Fixpoint foreachInstructionState {S : Type}
         (functor : S -> Instruction -> S * Instruction)
         (st : S) (bbs : list BasicBlock) : S * list BasicBlock :=
  match bbs with
  | [] => (st, [])
  | bb :: bbs' =>
      let '(st1, l) := foreachState functor st (insns bb) in
      let '(st2, bbs'') := foreachInstructionState functor st1 bbs' in
      (st2, withInsns bb l :: bbs'')
  end.

(** First functor of [sortLabels]: [st] is [last] and [labelMap];
[std::map::insert] keeps the entry of a key that is already bound. *)
Definition renameLabel (st : Z * gmap nat nat) (insn : Instruction)
  : (Z * gmap nat nat) * Instruction :=
  match insn with
  | LabelInstruction index =>
      let newLabel := LABEL (toLabelIndex (fst st)) in
      let labelMap :=
        match snd st !! index with
        | Some _ => snd st
        | None => <[index := toLabelIndex (fst st)]> (snd st)
        end in
      ((wrap32 (fst st + 1), labelMap), newLabel)
  | _ => (st, insn)
  end.

(** Second functor of [sortLabels]; [None] when [getLabelIndex] asserts or
when [labelMap.find] returns [end()]. *)
Definition patchBranch (labelMap : gmap nat nat) (insn : Instruction)
  : option Instruction :=
  match insn with
  | BranchInstruction op predicate index hasPredicate hasLabel =>
      if decide (op = OP_BRA) then
        if hasLabel then
          match labelMap !! index with
          | None => None
          | Some newIndex =>
              Some (if hasPredicate then BRA_pred newIndex predicate
                    else BRA newIndex)
          end
        else None
      else Some insn
  | _ => Some insn
  end.

Definition patchBlock (labelMap : gmap nat nat) (bb : BasicBlock)
  : option BasicBlock :=
  withInsns bb <$> mapM (patchBranch labelMap) (insns bb).

(** Third loop of [sortLabels], [b] being the number of the block visited;
[None] when [getFirstInstruction] asserts or the [cast] fails. *)
Fixpoint resetLabels (labels : list (option nat)) (bbs : list BasicBlock)
         (b : nat) : option (list (option nat)) :=
  match bbs with
  | [] => Some labels
  | bb :: bbs' =>
      match head (insns bb) with
      | Some (LabelInstruction index) =>
          if decide (index < length labels) then
            resetLabels (<[index := Some b]> labels) bbs' (S b)
          else None
      | _ => None
      end
  end.

Definition withBlocks (fn : Function) (labels : list (option nat))
           (blocks : list BasicBlock) : Function :=
  {| labels := labels;
     immediates := immediates fn;
     blocks := blocks;
     file := file fn;
     profile := profile fn;
     simdWidth := simdWidth fn |}.

(** The label map [sortLabels] builds in its first loop. *)
Definition sortLabelsMap (fn : Function) : gmap nat nat :=
  snd (fst (foreachInstructionState renameLabel (0%Z, ∅) (blocks fn))).

(** [Function::sortLabels] *)
Definition sortLabels (fn : Function) : option Function :=
  let '((last, labelMap), bbs1) :=
    foreachInstructionState renameLabel (0%Z, ∅) (blocks fn) in
  bbs2 ← mapM (patchBlock labelMap) bbs1;
  labels' ← resetLabels (resize (Z.to_nat last) None (labels fn)) bbs2 0;
  Some (withBlocks fn labels' bbs2).

(** [Function::computeCFG], first loop. *)
Fixpoint clearCFG (prev : option nat) (b : nat) (bbs : list BasicBlock)
  : list BasicBlock :=
  match bbs with
  | [] => []
  | bb :: bbs' =>
      {| insns := insns bb;
         predecessors := ∅;
         successors := ∅;
         nextBlock := if bbs' is [] then nextBlock bb else Some (S b);
         prevBlock := if prev is Some p then Some p else prevBlock bb |}
      :: clearCFG (Some b) (S b) bbs'
  end.

Definition insertSuccessor (to : nat) (bb : BasicBlock) : BasicBlock :=
  {| insns := insns bb;
     predecessors := predecessors bb;
     successors := {[to]} ∪ successors bb;
     nextBlock := nextBlock bb;
     prevBlock := prevBlock bb |}.

Definition insertPredecessor (from : nat) (bb : BasicBlock) : BasicBlock :=
  {| insns := insns bb;
     predecessors := {[from]} ∪ predecessors bb;
     successors := successors bb;
     nextBlock := nextBlock bb;
     prevBlock := prevBlock bb |}.

(** [from->successors.insert(to); to->predecessors.insert(from)] *)
Definition addEdge (from to : nat) (bbs : list BasicBlock)
  : list BasicBlock :=
  alter (insertPredecessor from) to (alter (insertSuccessor to) from bbs).

(** One call of the second functor of [computeCFG], on block [b]; the state
is the block vector and [jumpToNext]. *)
Definition cfgVisit (st : list BasicBlock * option nat) (b : nat)
  : option (list BasicBlock * option nat) :=
  let bbs := if snd st is Some j then addEdge j b (fst st) else fst st in
  match bbs !! b with
  | None => None
  | Some bb =>
      match last (insns bb) with
      | None => Some (bbs, None)
      | Some (BranchInstruction op _ label hasPredicate hasLabel) =>
          if decide (op = OP_BRA) then
            if hasLabel then
              match bbs !! label with
              | None => None
              | Some _ =>
                  Some (addEdge b label bbs,
                        if hasPredicate then Some b else None)
              end
            else None
          else Some (bbs, None)
      | Some _ => Some (bbs, Some b)
      end
  end.

Fixpoint cfgLoop (st : list BasicBlock * option nat) (bs : list nat)
  : option (list BasicBlock * option nat) :=
  match bs with
  | [] => Some st
  | b :: bs' => st' ← cfgVisit st b; cfgLoop st' bs'
  end.

(** [Function::computeCFG] *)
Definition computeCFG (fn : Function) : option Function :=
  st ← cfgLoop (clearCFG None 0 (blocks fn), None) (seq 0 (blockNum fn));
  Some (withBlocks fn (labels fn) (fst st)).

(** ** [sortLabels] *)

Section SortLabels.

(** All instructions of the function, in instruction order. *)
Definition allInsns (bbs : list BasicBlock) : list Instruction :=
  concat (map insns bbs).

Definition labelOf (insn : Instruction) : option LabelIndex :=
  match insn with LabelInstruction k => Some k | _ => None end.

(** The indices carried by the label instructions, in instruction order. *)
Definition labelIndices (l : list Instruction) : list LabelIndex :=
  omap labelOf l.

Definition countLabels (l : list Instruction) : nat :=
  length (labelIndices l).

(** What [sortLabels] needs to run to its end: at most 65536 label
instructions, every [bra] names a label that some label instruction
carries, and every block starts with a label instruction. *)
Definition sortLabelsPre (fn : Function) : bool :=
  bool_decide (Z.of_nat (countLabels (allInsns (blocks fn))) <= 2 ^ 16)%Z &&
  forallb (fun insn =>
             match insn with
             | BranchInstruction op _ l _ hl =>
                 if decide (op = OP_BRA)
                 then hl && bool_decide
                               (l ∈ labelIndices (allInsns (blocks fn)))
                 else true
             | _ => true
             end) (allInsns (blocks fn)) &&
  forallb (fun bb => match head (insns bb) with
                     | Some (LabelInstruction _) => true
                     | _ => false
                     end) (blocks fn).

Lemma labelIndices_app l1 l2 :
  labelIndices (l1 ++ l2) = labelIndices l1 ++ labelIndices l2.
Proof. apply omap_app. Qed.

Lemma countLabels_app l1 l2 :
  countLabels (l1 ++ l2) = countLabels l1 + countLabels l2.
Proof. unfold countLabels. by rewrite labelIndices_app, length_app. Qed.

Lemma labelIndices_cons insn l :
  labelIndices (insn :: l) =
  match labelOf insn with
  | Some k => k :: labelIndices l
  | None => labelIndices l
  end.
Proof. reflexivity. Qed.

Lemma countLabels_cons insn l :
  countLabels (insn :: l) =
  match labelOf insn with
  | Some _ => S (countLabels l)
  | None => countLabels l
  end.
Proof. unfold countLabels. rewrite labelIndices_cons. by destruct (labelOf insn). Qed.

Lemma foreachState_app {S : Type} (f : S -> Instruction -> S * Instruction)
      st l1 l2 :
  foreachState f st (l1 ++ l2) =
  let '(st1, l1') := foreachState f st l1 in
  let '(st2, l2') := foreachState f st1 l2 in
  (st2, l1' ++ l2').
Proof.
  revert st. induction l1 as [|i l1 IH]; intros st; cbn.
  - by destruct (foreachState f st l2).
  - destruct (f st i) as [st1 i']. rewrite IH.
    destruct (foreachState f st1 l1) as [st2 l1'].
    by destruct (foreachState f st2 l2).
Qed.

Lemma foreachState_length {S : Type}
      (f : S -> Instruction -> S * Instruction) st l :
  length (snd (foreachState f st l)) = length l.
Proof.
  revert st. induction l as [|i l IH]; intros st; cbn; [done|].
  destruct (f st i) as [st1 i']. specialize (IH st1).
  destruct (foreachState f st1 l). cbn in *. by rewrite IH.
Qed.

(** The walk over the blocks is the walk over all instructions, and keeps
the shape of the blocks. *)
Lemma foreachInstructionState_flat {S : Type}
      (f : S -> Instruction -> S * Instruction) st bbs :
  foreachState f st (allInsns bbs) =
  (fst (foreachInstructionState f st bbs),
   allInsns (snd (foreachInstructionState f st bbs))) /\
  Forall2 (fun bb bb' => length (insns bb') = length (insns bb))
          bbs (snd (foreachInstructionState f st bbs)).
Proof.
  revert st. induction bbs as [|bb bbs IH]; intros st; cbn; [done|].
  unfold allInsns in *. cbn. rewrite foreachState_app.
  pose proof (foreachState_length f st (insns bb)) as Hlen.
  destruct (foreachState f st (insns bb)) as [st1 l1].
  destruct (IH st1) as [IH1 IH2]. rewrite IH1.
  destruct (foreachInstructionState f st1 bbs) as [st2 bbs']. cbn in *.
  split; [done|]. by constructor.
Qed.

(** First loop, on the flat instruction list. *)
Lemma renameLabel_spec l last m :
  (0 <= last)%Z -> (last + Z.of_nat (countLabels l) <= 2 ^ 16)%Z ->
  let r := foreachState renameLabel (last, m) l in
  fst (fst r) = (last + Z.of_nat (countLabels l))%Z /\
  labelIndices (snd r) = seq (Z.to_nat last) (countLabels l) /\
  (forall x y, m !! x = Some y -> snd (fst r) !! x = Some y) /\
  (forall x, is_Some (snd (fst r) !! x) <->
             is_Some (m !! x) \/ x ∈ labelIndices l) /\
  (forall q x, l !! q = Some (LabelInstruction x) -> m !! x = None ->
               (forall q', q' < q -> l !! q' <> Some (LabelInstruction x)) ->
               exists k, snd (fst r) !! x = Some k /\
                         snd r !! q = Some (LabelInstruction k)).
Proof.
  revert last m. induction l as [|insn l IH]; intros last m Hlast Hbound.
  { cbn. split_and!; try done.
    - lia.
    - intros x. split; [by left|]. intros [?|H]; [done|]. inversion H. }
  cbn [foreachState].
  destruct (renameLabel (last, m) insn) as [[last1 m1] insn'] eqn:Hf.
  assert (Hcases :
    (exists x, insn = LabelInstruction x /\
               last1 = (last + 1)%Z /\
               insn' = LabelInstruction (Z.to_nat last) /\
               m1 = match m !! x with
                    | Some _ => m
                    | None => <[x := Z.to_nat last]> m
                    end) \/
    (labelOf insn = None /\ last1 = last /\ m1 = m /\ insn' = insn)).
  { destruct insn; try (right; by injection Hf as <- <- <-).
    left. eexists. split; [done|]. cbn in Hf.
    rewrite countLabels_cons in Hbound. cbn [labelOf] in Hbound.
    assert (toLabelIndex last = Z.to_nat last) as Hti.
    { unfold toLabelIndex, wrap16. rewrite Z.mod_small; [done|lia]. }
    rewrite Hti in Hf. rewrite wrap32_small in Hf by lia.
    by injection Hf as <- <- <-. }
  specialize (IH last1 m1).
  destruct (foreachState renameLabel (last1, m1) l) as [[last2 m2] l'] eqn:Hr.
  cbn [fst snd] in *.
  destruct Hcases as [(x0 & -> & -> & -> & Hm1)|(Hnl & -> & -> & ->)].
  - rewrite countLabels_cons in *. rewrite !labelIndices_cons.
    cbn [labelOf] in *.
    destruct IH as (IH1 & IH2 & IH3 & IH4 & IH5); [lia..|].
    assert (Hgrow : forall x y, m !! x = Some y -> m1 !! x = Some y).
    { intros x y Hxy. rewrite Hm1. destruct (m !! x0) eqn:Hx0; [done|].
      rewrite lookup_insert_ne; [done|]. intros ->. congruence. }
    split_and!.
    + lia.
    + cbn. rewrite IH2. f_equal. f_equal. lia.
    + eauto.
    + intros x. rewrite IH4. rewrite Hm1. rewrite elem_of_cons.
      destruct (m !! x0) eqn:Hx0.
      * split; [intros [?|?]; eauto|]. intros [?|[->|?]]; eauto.
      * destruct (decide (x = x0)) as [->|Hne].
        -- rewrite lookup_insert_eq. split; eauto.
        -- rewrite lookup_insert_ne by done. split; [intros [?|?]; eauto|].
           intros [?|[?|?]]; eauto. done.
    + intros [|q] x Hq Hmx Hfirst.
      * injection Hq as ->. exists (Z.to_nat last). split; [|done].
        apply IH3. rewrite Hm1, Hmx. apply lookup_insert_eq.
      * cbn in Hq. assert (x <> x0) as Hne.
        { intros ->. by apply (Hfirst 0); [lia|]. }
        apply (IH5 q x Hq).
        -- rewrite Hm1. destruct (m !! x0); [done|].
           by rewrite lookup_insert_ne.
        -- intros q' Hq'. apply (Hfirst (S q')). lia.
  - rewrite countLabels_cons in *. rewrite !labelIndices_cons.
    rewrite Hnl in *.
    destruct IH as (IH1 & IH2 & IH3 & IH4 & IH5); [lia..|].
    split_and!; try done.
    + intros [|q] x Hq Hmx Hfirst.
      * injection Hq as ->. done.
      * apply (IH5 q x Hq Hmx). intros q' Hq'. apply (Hfirst (S q')). lia.
Qed.


(** What a functor that is pointwise in relation [R] does to a list and to
the blocks. *)
Lemma foreachState_pointwise {S : Type}
      (f : S -> Instruction -> S * Instruction)
      (R : Instruction -> Instruction -> Prop) st l :
  (forall st' i, R i (snd (f st' i))) ->
  Forall2 R l (snd (foreachState f st l)).
Proof.
  intros HR. revert st. induction l as [|i l IH]; intros st; cbn; [done|].
  specialize (HR st i). destruct (f st i) as [st1 i']. specialize (IH st1).
  destruct (foreachState f st1 l). cbn in *. by constructor.
Qed.

Lemma foreachInstructionState_pointwise {S : Type}
      (f : S -> Instruction -> S * Instruction)
      (R : Instruction -> Instruction -> Prop) st bbs :
  (forall st' i, R i (snd (f st' i))) ->
  Forall2 (fun bb bb' => Forall2 R (insns bb) (insns bb'))
          bbs (snd (foreachInstructionState f st bbs)).
Proof.
  intros HR. revert st. induction bbs as [|bb bbs IH]; intros st; cbn; [done|].
  pose proof (foreachState_pointwise f R st (insns bb) HR) as H1.
  destruct (foreachState f st (insns bb)) as [st1 l1]. specialize (IH st1).
  destruct (foreachInstructionState f st1 bbs). cbn in *. by constructor.
Qed.

Lemma Forall2_blocks_flat (R : Instruction -> Instruction -> Prop) bbs bbs' :
  Forall2 (fun bb bb' => Forall2 R (insns bb) (insns bb')) bbs bbs' ->
  Forall2 R (allInsns bbs) (allInsns bbs').
Proof.
  unfold allInsns. induction 1; cbn; [done|]. by apply Forall2_app.
Qed.

(** The first loop turns labels into labels and keeps the rest. *)
Definition renamed (i i' : Instruction) : Prop :=
  (is_Some (labelOf i) <-> is_Some (labelOf i')) /\
  (labelOf i = None -> i' = i).

Lemma renameLabel_renamed st i : renamed i (snd (renameLabel st i)).
Proof.
  destruct i; cbn; unfold renamed; cbn; split; try done;
    split; intros; by eexists.
Qed.

(** The second loop keeps labels, retargets [bra] and keeps the rest. *)
Definition patched (m : gmap nat nat) (i i2 : Instruction) : Prop :=
  patchBranch m i = Some i2.

Lemma patched_label m i i2 : patched m i i2 -> labelOf i2 = labelOf i.
Proof.
  unfold patched. destruct i; cbn; try by intros [= <-].
  repeat case_decide; try by intros [= <-].
  destruct hasLabel; [|done]. destruct (m !! labelIndex); [|done].
  intros [= <-]. by destruct hasPredicate.
Qed.

Lemma patched_labelIndices m l l2 :
  Forall2 (patched m) l l2 -> labelIndices l2 = labelIndices l.
Proof.
  induction 1 as [|i i2 l l2 H _ IH]; [done|].
  rewrite !labelIndices_cons, IH. by rewrite (patched_label m i i2).
Qed.

Lemma patchBlock_insns m bb bb2 :
  patchBlock m bb = Some bb2 -> Forall2 (patched m) (insns bb) (insns bb2).
Proof.
  unfold patchBlock. destruct (mapM _ _) as [l2|] eqn:Hm; [|done].
  intros [= <-]. cbn. by apply mapM_Some in Hm.
Qed.

Lemma head_label_in bbs b bb k :
  bbs !! b = Some bb -> head (insns bb) = Some (LabelInstruction k) ->
  k ∈ labelIndices (allInsns bbs).
Proof.
  revert b. induction bbs as [|bb0 bbs IH]; intros b Hb Hh; [done|].
  unfold allInsns. cbn. fold (allInsns bbs). rewrite labelIndices_app.
  apply elem_of_app. destruct b as [|b].
  - injection Hb as ->. left. destruct (insns bb) as [|i l]; [done|].
    injection Hh as ->. rewrite labelIndices_cons. cbn. left.
  - right. by apply (IH b).
Qed.

Lemma elem_of_allInsns bbs b bb i :
  bbs !! b = Some bb -> i ∈ insns bb -> i ∈ allInsns bbs.
Proof.
  revert b. induction bbs as [|bb0 bbs IH]; intros b Hb Hi; [done|].
  unfold allInsns. cbn. fold (allInsns bbs). apply elem_of_app.
  destruct b as [|b]; [injection Hb as ->; by left|].
  right. by apply (IH b).
Qed.

Lemma heads_distinct bbs :
  NoDup (labelIndices (allInsns bbs)) ->
  forall i i' bb bb' k,
    i < i' -> bbs !! i = Some bb -> bbs !! i' = Some bb' ->
    head (insns bb) = Some (LabelInstruction k) ->
    head (insns bb') <> Some (LabelInstruction k).
Proof.
  induction bbs as [|bb0 bbs IH]; intros Hnd i i' bb bb' k Hlt Hi Hi' Hh Hh';
    [done|].
  unfold allInsns in Hnd. cbn in Hnd. fold (allInsns bbs) in Hnd.
  rewrite labelIndices_app in Hnd. apply NoDup_app in Hnd as (_ & Hdis & Hnd).
  destruct i' as [|i']; [lia|]. cbn in Hi'. destruct i as [|i].
  - injection Hi as ->. apply (Hdis k).
    + apply (head_label_in [bb] 0 bb k) in Hh; [|done].
      unfold allInsns in Hh. cbn in Hh. by rewrite app_nil_r in Hh.
    + by apply (head_label_in bbs i' bb' k).
  - cbn in Hi. apply (IH Hnd i i' bb bb' k); done || lia.
Qed.

Lemma resetLabels_spec bbs labels b0 :
  (forall i bb, bbs !! i = Some bb ->
                exists k, head (insns bb) = Some (LabelInstruction k) /\
                          k < length labels) ->
  (forall i i' bb bb' k,
      i < i' -> bbs !! i = Some bb -> bbs !! i' = Some bb' ->
      head (insns bb) = Some (LabelInstruction k) ->
      head (insns bb') <> Some (LabelInstruction k)) ->
  exists labels',
    resetLabels labels bbs b0 = Some labels' /\
    length labels' = length labels /\
    (forall i bb k, bbs !! i = Some bb ->
                    head (insns bb) = Some (LabelInstruction k) ->
                    labels' !! k = Some (Some (b0 + i))) /\
    (forall k, (forall i bb, bbs !! i = Some bb ->
                             head (insns bb) <> Some (LabelInstruction k)) ->
               labels' !! k = labels !! k).
Proof.
  revert labels b0. induction bbs as [|bb bbs IH]; intros labels b0 Hh Hd.
  { exists labels. by split_and!. }
  destruct (Hh 0 bb eq_refl) as (k0 & Hk0 & Hlt0).
  cbn [resetLabels]. rewrite Hk0, decide_True by done.
  destruct (IH (<[k0 := Some b0]> labels) (S b0)) as (labels' & Hr & Hl & Hs & Ho).
  { intros i bb' Hi. rewrite length_insert. apply (Hh (S i) bb' Hi). }
  { intros i i' bb1 bb2 k Hlt H1 H2. apply (Hd (S i) (S i') bb1 bb2 k); done || lia. }
  exists labels'. split_and!; [done|by rewrite Hl, length_insert| |].
  - intros [|i] bb' k Hi Hk.
    + injection Hi as <-. rewrite Hk0 in Hk. injection Hk as <-.
      rewrite Ho.
      * rewrite list_lookup_insert_eq by done. f_equal. f_equal. lia.
      * intros i bb' Hi. apply (Hd 0 (S i) bb bb' k0); done || lia.
    + rewrite (Hs i bb' k Hi Hk). f_equal. f_equal. lia.
  - intros k Hk. rewrite Ho.
    + apply list_lookup_insert_ne. intros <-. by apply (Hk 0 bb).
    + intros i bb' Hi. apply (Hk (S i) bb' Hi).
Qed.


(** Is the instruction a [bra]? *)
Definition isBra (insn : Instruction) : bool :=
  match insn with
  | BranchInstruction op _ _ _ _ => bool_decide (op = OP_BRA)
  | _ => false
  end.

Lemma sortLabelsPre_bra fn insn :
  sortLabelsPre fn = true -> insn ∈ allInsns (blocks fn) ->
  forall op pred l hp hl,
    insn = BranchInstruction op pred l hp hl -> op = OP_BRA ->
    hl = true /\ l ∈ labelIndices (allInsns (blocks fn)).
Proof.
  unfold sortLabelsPre. intros Hpre Hin op pred l hp hl -> ->.
  apply andb_prop in Hpre as [Hpre _]. apply andb_prop in Hpre as [_ Hpre].
  rewrite forallb_forall in Hpre. rewrite list_elem_of_In in Hin.
  specialize (Hpre _ Hin). cbn in Hpre.
  apply andb_prop in Hpre as [-> Hpre]. by apply bool_decide_eq_true in Hpre.
Qed.

Lemma sortLabelsPre_head fn b bb :
  sortLabelsPre fn = true -> blocks fn !! b = Some bb ->
  exists k, head (insns bb) = Some (LabelInstruction k).
Proof.
  unfold sortLabelsPre. intros Hpre Hb.
  apply andb_prop in Hpre as [_ Hpre].
  rewrite forallb_forall in Hpre. apply list_elem_of_lookup_2 in Hb.
  rewrite list_elem_of_In in Hb. specialize (Hpre _ Hb). cbn in Hpre.
  destruct (head (insns bb)) as [[]|]; try done. by eexists.
Qed.

(** C8: on a function that [sortLabels] can process, it returns a function
with the same block shape in which the label instructions carry
0, 1, 2, ... in instruction order; the label table has one entry per label
and sends the label at the head of a block to that block; a label
instruction (the first one carrying its old index) gets the new index the
label map gives its old index, every [bra] is retargeted through that same
map with its predicate kept, and all other instructions are untouched. *)
Theorem sortLabels_dense (fn : Function) :
  sortLabelsPre fn = true ->
  exists fn',
    sortLabels fn = Some fn' /\
    map (fun bb => length (insns bb)) (blocks fn') =
    map (fun bb => length (insns bb)) (blocks fn) /\
    labelIndices (allInsns (blocks fn')) =
    seq 0 (countLabels (allInsns (blocks fn))) /\
    length (labels fn') = countLabels (allInsns (blocks fn)) /\
    (forall b bb k,
        blocks fn' !! b = Some bb ->
        head (insns bb) = Some (LabelInstruction k) ->
        labels fn' !! k = Some (Some b)) /\
    (forall q x,
        allInsns (blocks fn) !! q = Some (LabelInstruction x) ->
        (forall q', q' < q ->
                    allInsns (blocks fn) !! q' <> Some (LabelInstruction x)) ->
        exists k, sortLabelsMap fn !! x = Some k /\
                  allInsns (blocks fn') !! q = Some (LabelInstruction k)) /\
    (forall q pred x hp hl,
        allInsns (blocks fn) !! q =
        Some (BranchInstruction OP_BRA pred x hp hl) ->
        exists k, sortLabelsMap fn !! x = Some k /\
                  allInsns (blocks fn') !! q =
                  Some (if hp then BRA_pred k pred else BRA k)) /\
    (forall q insn,
        allInsns (blocks fn) !! q = Some insn ->
        labelOf insn = None -> isBra insn = false ->
        allInsns (blocks fn') !! q = Some insn).
Proof.
  intros Hpre.
  pose proof Hpre as Hpre'. unfold sortLabelsPre in Hpre'.
  apply andb_prop in Hpre' as [Hpre' _].
  apply andb_prop in Hpre' as [H16%bool_decide_eq_true _].
  unfold sortLabels, sortLabelsMap.
  pose proof (foreachInstructionState_flat renameLabel (0%Z, ∅) (blocks fn))
    as [Hflat Hshape].
  pose proof (foreachInstructionState_pointwise renameLabel renamed
                (0%Z, ∅) (blocks fn) renameLabel_renamed) as Hpw.
  destruct (foreachInstructionState renameLabel (0%Z, ∅) (blocks fn))
    as [[last m] bbs1] eqn:Hr.
  cbn [fst snd] in *.
  pose proof (renameLabel_spec (allInsns (blocks fn)) 0%Z ∅) as Hspec.
  rewrite Hflat in Hspec. cbn [fst snd] in Hspec.
  destruct Hspec as (Hlast & Hidx & _ & Hdom & Hfirst); [lia|lia|].
  set (n := countLabels (allInsns (blocks fn))) in *.
  pose proof (Forall2_blocks_flat _ _ _ Hpw) as Hpwflat.
  (* the second loop runs through *)
  assert (Hok : forall i0 i1, i0 ∈ allInsns (blocks fn) -> renamed i0 i1 ->
                              is_Some (patchBranch m i1)).
  { intros i0 i1 Hin [Hl Hnl]. destruct (labelOf i0) as [k|] eqn:Hk.
    - destruct (proj1 Hl) as [k' Hk']; [by eexists|].
      by destruct i1.
    - rewrite (Hnl eq_refl).
      destruct i0; try by eexists. cbn.
      destruct (decide (opcode = OP_BRA)) as [->|]; [|by eexists].
      destruct (sortLabelsPre_bra fn _ Hpre Hin _ _ _ _ _ eq_refl eq_refl)
        as [-> Hin'].
      destruct (proj2 (Hdom labelIndex)) as [k' ->]; [by right|].
      by eexists. }
  assert (Hmap : is_Some (mapM (patchBlock m) bbs1)).
  { apply mapM_is_Some. apply Forall_forall. intros bb1 Hbb1.
    apply list_elem_of_lookup_1 in Hbb1 as [b Hb1].
    destruct (Forall2_lookup_r _ _ _ _ _ Hpw Hb1) as (bb0 & Hb0 & Hins).
    cbn. unfold patchBlock.
    assert (is_Some (mapM (patchBranch m) (insns bb1))) as [l2 ->];
      [|by eexists].
    apply mapM_is_Some. apply Forall_forall. intros i1 Hi1.
    apply list_elem_of_lookup_1 in Hi1 as [q Hq].
    destruct (Forall2_lookup_r _ _ _ _ _ Hins Hq) as (i0 & Hq0 & Hren).
    apply (Hok i0 i1); [|done].
    apply (elem_of_allInsns _ b bb0); [done|].
    by eapply list_elem_of_lookup_2. }
  destruct Hmap as [bbs2 Hbbs2]. rewrite Hbbs2. cbn [mbind option_bind].
  apply mapM_Some in Hbbs2.
  assert (Hp2 : Forall2 (fun bb bb2 =>
                           Forall2 (patched m) (insns bb) (insns bb2))
                        bbs1 bbs2).
  { eapply Forall2_impl; [exact Hbbs2|]. intros. by apply patchBlock_insns. }
  pose proof (Forall2_blocks_flat _ _ _ Hp2) as Hp2flat.
  assert (Hidx2 : labelIndices (allInsns bbs2) = seq 0 n).
  { rewrite (patched_labelIndices m _ _ Hp2flat). exact Hidx. }
  (* the label table *)
  assert (Hheads : forall b bb2, bbs2 !! b = Some bb2 ->
            exists k, head (insns bb2) = Some (LabelInstruction k) /\ k < n).
  { intros b bb2 Hb2.
    destruct (Forall2_lookup_r _ _ _ _ _ Hp2 Hb2) as (bb1 & Hb1 & Hi12).
    destruct (Forall2_lookup_r _ _ _ _ _ Hpw Hb1) as (bb0 & Hb0 & Hi01).
    destruct (sortLabelsPre_head fn b bb0 Hpre Hb0) as [k0 Hk0].
    destruct (insns bb0) as [|i0 l0]; [done|]. injection Hk0 as ->.
    inversion Hi01 as [|? i1 ? l1 [Hl _] _ Heq0 Heq1]; subst.
    rewrite <- Heq1 in Hi12.
    inversion Hi12 as [|? i2 ? l2 Hpat _ Heq2 Heq3]; subst.
    destruct (proj1 Hl) as [k Hk]; [by eexists|].
    apply patched_label in Hpat. rewrite Hk in Hpat.
    destruct i2; try done. cbn in Hpat. injection Hpat as ->.
    exists k. split; [done|].
    assert (k ∈ seq 0 n) as Hin.
    { rewrite <- Hidx2. apply (head_label_in bbs2 b bb2 k Hb2).
      by rewrite <- Heq3. }
    apply elem_of_seq in Hin. lia. }
  assert (Hlen0 : Z.to_nat last = n) by lia.
  destruct (resetLabels_spec bbs2 (resize (Z.to_nat last) None (labels fn)) 0)
    as (labels' & Hreset & Hlen' & Htable & _).
  { intros b bb2 Hb2. rewrite length_resize, Hlen0. by apply (Hheads b). }
  { apply heads_distinct. rewrite Hidx2. apply NoDup_seq. }
  rewrite Hreset. cbn [mbind option_bind].
  eexists. split; [reflexivity|]. cbn [blocks labels withBlocks].
  split_and!.
  - apply list_eq. intros b. rewrite !list_lookup_fmap.
    destruct (bbs2 !! b) as [bb2|] eqn:Hb2.
    + destruct (Forall2_lookup_r _ _ _ _ _ Hp2 Hb2) as (bb1 & Hb1 & Hi12).
      destruct (Forall2_lookup_r _ _ _ _ _ Hshape Hb1) as (bb0 & Hb0 & Hl01).
      rewrite Hb0. cbn. f_equal.
      apply Forall2_length in Hi12. lia.
    + apply lookup_ge_None in Hb2.
      rewrite <- (Forall2_length _ _ _ Hp2) in Hb2.
      rewrite <- (Forall2_length _ _ _ Hshape) in Hb2.
      apply lookup_ge_None in Hb2. by rewrite Hb2.
  - exact Hidx2.
  - by rewrite Hlen', length_resize.
  - intros b bb k Hb Hk. by rewrite (Htable b bb k Hb Hk).
  - intros q x Hq Hfst.
    destruct (Hfirst q x Hq (lookup_empty x) Hfst) as (k & Hmk & Hq1).
    exists k. split; [done|].
    destruct (Forall2_lookup_l _ _ _ _ _ Hp2flat Hq1) as (i2 & -> & Hpat).
    unfold patched in Hpat. cbn in Hpat. by injection Hpat as <-.
  - intros q pred x hp hl Hq.
    destruct (Forall2_lookup_l _ _ _ _ _ Hpwflat Hq) as (i1 & Hq1 & [_ Hsame]).
    rewrite (Hsame eq_refl) in Hq1.
    destruct (Forall2_lookup_l _ _ _ _ _ Hp2flat Hq1) as (i2 & Hq2 & Hpat).
    unfold patched in Hpat. cbn in Hpat.
    destruct hl; [|done]. destruct (m !! x) as [k|]; [|done].
    injection Hpat as <-. by exists k.
  - intros q insn Hq Hnl Hnb.
    destruct (Forall2_lookup_l _ _ _ _ _ Hpwflat Hq) as (i1 & Hq1 & [_ Hsame]).
    rewrite (Hsame Hnl) in Hq1.
    destruct (Forall2_lookup_l _ _ _ _ _ Hp2flat Hq1) as (i2 & -> & Hpat).
    unfold patched in Hpat. destruct insn; try by injection Hpat as <-.
    cbn in Hnb, Hpat. apply bool_decide_eq_false in Hnb.
    rewrite decide_False in Hpat by done. by injection Hpat as <-.
Qed.

End SortLabels.

(** Two blocks whose labels are out of order and a branch to the second. *)
Definition demoUnsorted : Function :=
  {| labels := [None; None; None; None; None; None; None; None];
     immediates := [];
     blocks :=
       [ {| insns := [LABEL 7; BRA 3]; predecessors := ∅; successors := ∅;
            nextBlock := None; prevBlock := None |};
         {| insns := [LABEL 3; RET]; predecessors := ∅; successors := ∅;
            nextBlock := None; prevBlock := None |} ];
     file := {| regs := []; regTuples := [] |};
     profile := PROFILE_OCL;
     simdWidth := 0 |}.

Lemma sortLabels_dense_witness :
  sortLabelsPre demoUnsorted = true /\
  exists fn', sortLabels demoUnsorted = Some fn'.
Proof.
  split; [reflexivity|].
  destruct (sortLabels_dense demoUnsorted eq_refl) as (fn' & H & _).
  exists fn'. exact H.
Defined.

(** ** [computeCFG] *)

Section ComputeCFG.

(** The block that carries label [l]: the first one whose first instruction
is that label. *)
Definition blockOfLabel (fn : Function) (l : LabelIndex) : option nat :=
  fst <$> list_find (fun bb => head (insns bb) = Some (LabelInstruction l))
                    (blocks fn).

(** The block that textually follows block [b], as a set. *)
Definition nextBlockSet (fn : Function) (b : nat) : gset nat :=
  if decide (S b < blockNum fn) then {[S b]} else ∅.

(** Successors by branch and by fall-through, read off a block's last
instruction. *)
Definition jumpSet (bb : BasicBlock) : gset nat :=
  match last (insns bb) with
  | Some (BranchInstruction op _ label _ _) =>
      if decide (op = OP_BRA) then {[label]} else ∅
  | _ => ∅
  end.

Definition fallsThrough (bb : BasicBlock) : bool :=
  match last (insns bb) with
  | None => false
  | Some (BranchInstruction op _ _ hasPredicate _) =>
      bool_decide (op = OP_BRA) && hasPredicate
  | Some _ => true
  end.

(** Every [bra] that ends a block names a label, and the block carrying
that label is the block of that number: the state [sortLabels] leaves. *)
Definition branchTargetsSorted (fn : Function) : bool :=
  forallb (fun bb =>
             match last (insns bb) with
             | Some (BranchInstruction op _ l _ hl) =>
                 if decide (op = OP_BRA)
                 then hl && bool_decide (blockOfLabel fn l = Some l)
                 else true
             | _ => true
             end) (blocks fn).

Definition branchTargetsSortedAt (fn : Function) : Prop :=
  forall b bb op pred l hp hl,
    blocks fn !! b = Some bb ->
    last (insns bb) = Some (BranchInstruction op pred l hp hl) ->
    op = OP_BRA ->
    hl = true /\ blockOfLabel fn l = Some l.

Lemma branchTargetsSorted_at fn :
  branchTargetsSorted fn = true -> branchTargetsSortedAt fn.
Proof.
  unfold branchTargetsSorted. rewrite forallb_forall.
  intros H b bb op pred l hp hl Hb Hlast ->.
  specialize (H bb). rewrite Hlast in H. cbn in H.
  rewrite <- list_elem_of_In in H.
  apply list_elem_of_lookup_2 in Hb. specialize (H Hb).
  apply andb_prop in H as [-> H]. by apply bool_decide_eq_true in H.
Qed.

Lemma blockOfLabel_lt fn l t : blockOfLabel fn l = Some t -> t < blockNum fn.
Proof.
  unfold blockOfLabel, blockNum.
  destruct (list_find _ _) as [[i bb]|] eqn:Hf; [|done].
  intros [= <-]. apply list_find_Some in Hf as (Hi & _).
  by apply lookup_lt_Some in Hi.
Qed.

Lemma addEdge_length from to bbs : length (addEdge from to bbs) = length bbs.
Proof. unfold addEdge. by rewrite !length_alter. Qed.

Lemma addEdge_lookup from to bbs a :
  addEdge from to bbs !! a =
  (fun bb => (if decide (a = to) then insertPredecessor from else id)
               ((if decide (a = from) then insertSuccessor to else id) bb))
    <$> bbs !! a.
Proof.
  unfold addEdge. rewrite !list_lookup_alter.
  repeat case_decide; subst; try lia; by destruct (bbs !! _).
Qed.

Lemma addEdge_successors from to bbs a bb' :
  addEdge from to bbs !! a = Some bb' ->
  exists x, bbs !! a = Some x /\ insns bb' = insns x /\
            successors bb' =
            if decide (a = from) then {[to]} ∪ successors x
            else successors x.
Proof.
  rewrite addEdge_lookup. destruct (bbs !! a) as [x|]; [|done].
  cbn. intros [= <-]. exists x. split; [done|].
  by repeat case_decide.
Qed.

Lemma clearCFG_length prev b bbs : length (clearCFG prev b bbs) = length bbs.
Proof.
  revert prev b. induction bbs as [|bb bbs IH]; intros; cbn; [done|].
  by rewrite IH.
Qed.

Lemma clearCFG_lookup prev b bbs a bb' :
  clearCFG prev b bbs !! a = Some bb' ->
  exists bb, bbs !! a = Some bb /\ insns bb' = insns bb /\
             successors bb' = ∅ /\ predecessors bb' = ∅.
Proof.
  revert prev b a. induction bbs as [|bb bbs IH]; intros prev b a; [done|].
  destruct a as [|a]; cbn.
  - intros [= <-]. by exists bb.
  - apply IH.
Qed.

Variable fn : Function.

(** State of the second loop once blocks [0 .. k-1] have been visited. *)
Record cfgInv (k : nat) (st : list BasicBlock * option nat) : Prop := {
  inv_length : length (fst st) = blockNum fn;
  inv_insns : forall a bb', fst st !! a = Some bb' ->
                exists bb, blocks fn !! a = Some bb /\ insns bb' = insns bb;
  inv_succ : forall a bb', fst st !! a = Some bb' ->
               successors bb' =
               if decide (a < k) then
                 jumpSet bb' ∪
                 (if fallsThrough bb' && bool_decide (S a < k)
                  then {[S a]} else ∅)
               else ∅;
  inv_jump : forall j, snd st = Some j <->
               k = S j /\ exists bb', fst st !! j = Some bb' /\
                                      fallsThrough bb' = true;
  inv_conv : forall a b bba bbb,
               fst st !! a = Some bba -> fst st !! b = Some bbb ->
               a ∈ predecessors bbb <-> b ∈ successors bba
}.

Lemma cfgInv_init : cfgInv 0 (clearCFG None 0 (blocks fn), None).
Proof.
  split; cbn [fst snd].
  - apply clearCFG_length.
  - intros a bb' (bb & ? & ? & _)%clearCFG_lookup. eauto.
  - intros a bb' (bb & ? & ? & -> & _)%clearCFG_lookup.
    rewrite decide_False by lia. done.
  - intros j. split; [done|]. intros [? _]. lia.
  - intros a b bba bbb (? & ? & ? & Hs & _)%clearCFG_lookup
           (? & ? & ? & _ & Hp)%clearCFG_lookup.
    rewrite Hs, Hp. set_solver.
Qed.

Lemma jumpSet_insns bb bb' : insns bb' = insns bb -> jumpSet bb' = jumpSet bb.
Proof. unfold jumpSet. by intros ->. Qed.

Lemma fallsThrough_insns bb bb' :
  insns bb' = insns bb -> fallsThrough bb' = fallsThrough bb.
Proof. unfold fallsThrough. by intros ->. Qed.

(** The edge [from -> to] added to a state that tracks converse edges. *)
Lemma addEdge_conv from to bbs :
  (forall a b bba bbb, bbs !! a = Some bba -> bbs !! b = Some bbb ->
                       a ∈ predecessors bbb <-> b ∈ successors bba) ->
  from < length bbs -> to < length bbs ->
  forall a b bba bbb,
    addEdge from to bbs !! a = Some bba ->
    addEdge from to bbs !! b = Some bbb ->
    a ∈ predecessors bbb <-> b ∈ successors bba.
Proof.
  intros Hconv Hfrom Hto a b bba bbb.
  rewrite !addEdge_lookup.
  destruct (bbs !! a) as [xa|] eqn:Ha; [|done].
  destruct (bbs !! b) as [xb|] eqn:Hb; [|done].
  cbn. intros [= <-] [= <-]. specialize (Hconv a b xa xb Ha Hb).
  repeat case_decide; subst; cbn; try lia; clear Ha Hb Hfrom Hto; set_solver.
Qed.

Hypothesis Hsorted : branchTargetsSortedAt fn.

Lemma cfgVisit_inv k st :
  k < blockNum fn -> cfgInv k st ->
  exists st', cfgVisit st k = Some st' /\ cfgInv (S k) st'.
Proof.
  intros Hk [Hlen Hins Hsucc Hjump Hconv]. destruct st as [bbs j].
  cbn [fst snd] in *. unfold cfgVisit. cbn [fst snd].
  (* the pending fall-through edge *)
  set (bbs1 := if j is Some j' then addEdge j' k bbs else bbs).
  assert (Hlen1 : length bbs1 = blockNum fn).
  { subst bbs1. destruct j; [by rewrite addEdge_length|done]. }
  assert (Hins1 : forall a bb', bbs1 !! a = Some bb' ->
             exists bb, blocks fn !! a = Some bb /\ insns bb' = insns bb).
  { subst bbs1. destruct j as [j'|]; [|done]. intros a bb'.
    rewrite addEdge_lookup. destruct (bbs !! a) as [x|] eqn:Hx; [|done].
    cbn. intros [= <-]. destruct (Hins a x Hx) as (bb & ? & ?).
    exists bb. split; [done|]. by repeat case_decide. }
  assert (Hsucc1 : forall a bb', bbs1 !! a = Some bb' ->
             successors bb' =
             if decide (a < k) then
               jumpSet bb' ∪ (if fallsThrough bb' then {[S a]} else ∅)
             else ∅).
  { subst bbs1. intros a bb'. destruct j as [j'|] eqn:Hj.
    - destruct (proj1 (Hjump j') eq_refl) as (-> & bj & Hbj & Hft).
      intros (x & Hx & Hix & ->)%addEdge_successors.
      rewrite (jumpSet_insns x bb'), (fallsThrough_insns x bb') by done.
      rewrite (Hsucc a x Hx).
      destruct (decide (a = j')) as [->|Hne].
      + rewrite Hx in Hbj. injection Hbj as <-. rewrite Hft.
        rewrite !decide_True by lia. cbn.
        rewrite bool_decide_eq_false_2 by lia. clear; set_solver.
      + destruct (decide (a < S j')) as [Hlt|]; [|done].
        rewrite bool_decide_eq_true_2 by lia. by rewrite andb_true_r.
    - intros Hx. rewrite (Hsucc a bb' Hx).
      destruct (decide (a < k)) as [Hlt|]; [|done].
      destruct (fallsThrough bb') eqn:Hft; [|done]. cbn.
      case_bool_decide as Hsa; [done|].
      assert (k = S a) as -> by lia.
      assert (None = Some a) as Habs; [|done].
      apply Hjump. eauto. }
  assert (Hconv1 : forall a b bba bbb, bbs1 !! a = Some bba ->
             bbs1 !! b = Some bbb ->
             a ∈ predecessors bbb <-> b ∈ successors bba).
  { subst bbs1. destruct j as [j'|] eqn:Hj; [|done].
    destruct (proj1 (Hjump j') eq_refl) as (-> & bj & Hbj & Hft).
    apply addEdge_conv; [done|lia..]. }
  clearbody bbs1. clear Hsucc Hconv Hins Hlen Hjump.
  destruct (bbs1 !! k) as [bk|] eqn:Hbk;
    [|apply lookup_ge_None in Hbk; lia].
  destruct (Hins1 k bk Hbk) as (bk0 & Hbk0 & Hik).
  assert (Hnew : forall bbs2,
    length bbs2 = blockNum fn ->
    (forall a bb', bbs2 !! a = Some bb' ->
       exists bb, blocks fn !! a = Some bb /\ insns bb' = insns bb) ->
    (forall a bb', bbs2 !! a = Some bb' ->
       successors bb' =
       if decide (a < k) then
         jumpSet bb' ∪ (if fallsThrough bb' then {[S a]} else ∅)
       else if decide (a = k) then jumpSet bb' else ∅) ->
    (forall a b bba bbb, bbs2 !! a = Some bba -> bbs2 !! b = Some bbb ->
       a ∈ predecessors bbb <-> b ∈ successors bba) ->
    cfgInv (S k) (bbs2, if fallsThrough bk then Some k else None)).
  { intros bbs2 Hl2 Hi2 Hs2 Hc2. split; cbn [fst snd]; try done.
    - intros a bb' Hx. rewrite (Hs2 a bb' Hx).
      repeat case_decide; subst; try lia.
      + rewrite bool_decide_eq_true_2 by lia. by rewrite andb_true_r.
      + rewrite bool_decide_eq_false_2 by lia. rewrite andb_false_r.
        clear; set_solver.
      + done.
    - intros j0. destruct (bbs2 !! k) as [bk2|] eqn:Hbk2;
        [|apply lookup_ge_None in Hbk2; lia].
      destruct (Hi2 k bk2 Hbk2) as (y & Hy & Hiy).
      rewrite Hbk0 in Hy. injection Hy as <-.
      assert (fallsThrough bk2 = fallsThrough bk) as Hfe.
      { rewrite (fallsThrough_insns bk0 bk2), (fallsThrough_insns bk0 bk);
          done. }
      split.
      + destruct (fallsThrough bk) eqn:Hft; [|done]. intros [= <-].
        split; [done|]. exists bk2. by rewrite Hfe.
      + intros ([= <-] & z & Hz & Hfz). rewrite Hbk2 in Hz.
        injection Hz as <-. rewrite <- Hfe, Hfz. done. }
  assert (Hsame : forall a bb', bbs1 !! a = Some bb' ->
       successors bb' =
       if decide (a < k) then
         jumpSet bb' ∪ (if fallsThrough bb' then {[S a]} else ∅)
       else if decide (a = k) then ∅ else ∅).
  { intros a bb' Hx. rewrite (Hsucc1 a bb' Hx). by repeat case_decide. }
  destruct (last (insns bk)) as [lastInsn|] eqn:Hlast.
  - assert (Hlast0 : last (insns bk0) = Some lastInsn) by by rewrite <- Hik.
    destruct lastInsn as
      [| | | | |op pred l hp hl| | | | | | | |];
      try (eexists; split; [reflexivity|];
           replace (Some k) with (if fallsThrough bk then Some k else None)
             by (unfold fallsThrough; by rewrite Hlast);
           apply Hnew; try done;
           intros a bb' Hx; rewrite (Hsame a bb' Hx);
           repeat case_decide; subst; try done;
           rewrite Hbk in Hx; injection Hx as <-;
           unfold jumpSet; by rewrite Hlast).
    destruct (decide (op = OP_BRA)) as [->|Hop].
    + destruct (Hsorted k bk0 OP_BRA pred l hp hl Hbk0 Hlast0 eq_refl)
        as [-> Hl].
      apply blockOfLabel_lt in Hl.
      destruct (bbs1 !! l) as [bl|] eqn:Hbl;
        [|apply lookup_ge_None in Hbl; lia].
      eexists; split; [reflexivity|].
      replace (if hp then Some k else None)
        with (if fallsThrough bk then Some k else None)
        by (unfold fallsThrough; rewrite Hlast; by destruct hp).
      apply Hnew.
      * by rewrite addEdge_length.
      * intros a bb'. rewrite addEdge_lookup.
        destruct (bbs1 !! a) as [x|] eqn:Hx; [|done].
        cbn. intros [= <-]. destruct (Hins1 a x Hx) as (bb & ? & ?).
        exists bb. split; [done|]. by repeat case_decide.
      * intros a bb'. rewrite addEdge_lookup.
        destruct (bbs1 !! a) as [x|] eqn:Hx; [|done].
        cbn. intros [= <-]. specialize (Hsame a x Hx).
        assert (Hjs : forall y, insns y = insns x -> jumpSet y = jumpSet x)
          by (intros; by apply jumpSet_insns).
        assert (Hfs : forall y, insns y = insns x ->
                                fallsThrough y = fallsThrough x)
          by (intros; by apply fallsThrough_insns).
        repeat case_decide; subst; cbn; try lia;
          rewrite ?Hjs, ?Hfs by done; rewrite ?Hsame; try done;
          rewrite Hbk in Hx; injection Hx as <-;
          unfold jumpSet; rewrite Hlast; rewrite decide_True by done;
          clear; set_solver.
      * apply addEdge_conv; [done|lia..].
    + eexists; split; [reflexivity|].
      replace (@None nat) with (if fallsThrough bk then Some k else None)
        by (unfold fallsThrough; rewrite Hlast;
            by rewrite bool_decide_eq_false_2).
      apply Hnew; try done.
      intros a bb' Hx. rewrite (Hsame a bb' Hx).
      repeat case_decide; subst; try done.
      rewrite Hbk in Hx. injection Hx as <-.
      unfold jumpSet. rewrite Hlast. by rewrite decide_False.
  - eexists; split; [reflexivity|].
    replace (@None nat) with (if fallsThrough bk then Some k else None)
      by (unfold fallsThrough; by rewrite Hlast).
    apply Hnew; try done.
    intros a bb' Hx. rewrite (Hsame a bb' Hx).
    repeat case_decide; subst; try done.
    rewrite Hbk in Hx. injection Hx as <-.
    unfold jumpSet. by rewrite Hlast.
Qed.

Lemma cfgLoop_inv m k st :
  k + m = blockNum fn -> cfgInv k st ->
  exists st', cfgLoop st (seq k m) = Some st' /\ cfgInv (blockNum fn) st'.
Proof.
  revert k st. induction m as [|m IH]; intros k st Hkm Hinv.
  - replace (blockNum fn) with k by lia. by exists st.
  - destruct (cfgVisit_inv k st) as (st1 & Hv & Hinv1); [lia|done|].
    destruct (IH (S k) st1) as (st' & Hl & Hinv'); [lia|done|].
    exists st'. split; [|done]. cbn. rewrite Hv. done.
Qed.

End ComputeCFG.

(** Is the instruction a member of the class [BranchInstruction]? *)
Definition isBranch (insn : Instruction) : bool :=
  match insn with BranchInstruction _ _ _ _ _ => true | _ => false end.

Lemma nextBlockSet_bool fn b :
  (if bool_decide (S b < blockNum fn) then {[S b]} else ∅)
  = nextBlockSet fn b.
Proof. unfold nextBlockSet. case_bool_decide; case_decide; done || lia. Qed.

(** C9: after [computeCFG], on a function whose labels are sorted, every
block has the successor set its last instruction dictates, recomputed from
nothing: none for an empty block or one that ends in [ret]; the textually
next block for a block that does not end in a branch; exactly the target
block for one that ends in an unpredicated [bra]; the target and the
textually next block for one that ends in a predicated [bra]; and the
predecessor sets are the exact converse of the successor sets. The
instructions are left as they were. *)
Theorem computeCFG_successors (fn : Function) :
  branchTargetsSorted fn = true ->
  exists fn',
    computeCFG fn = Some fn' /\
    map insns (blocks fn') = map insns (blocks fn) /\
    (forall b bb bb',
        blocks fn !! b = Some bb -> blocks fn' !! b = Some bb' ->
        (insns bb = [] -> successors bb' = ∅) /\
        (forall insn, last (insns bb) = Some insn -> isBranch insn = false ->
                      successors bb' = nextBlockSet fn b) /\
        (forall pred l hl,
            last (insns bb) = Some (BranchInstruction OP_BRA pred l false hl) ->
            exists t, blockOfLabel fn l = Some t /\ successors bb' = {[t]}) /\
        (forall pred l hl,
            last (insns bb) = Some (BranchInstruction OP_BRA pred l true hl) ->
            exists t, blockOfLabel fn l = Some t /\
                      successors bb' = {[t]} ∪ nextBlockSet fn b) /\
        (forall op pred l hp hl,
            last (insns bb) = Some (BranchInstruction op pred l hp hl) ->
            op <> OP_BRA -> successors bb' = ∅)) /\
    (forall a b bba bbb,
        blocks fn' !! a = Some bba -> blocks fn' !! b = Some bbb ->
        a ∈ predecessors bbb <-> b ∈ successors bba).
Proof.
  intros Hsorted%branchTargetsSorted_at.
  destruct (cfgLoop_inv fn Hsorted (blockNum fn) 0
              (clearCFG None 0 (blocks fn), None))
    as ([bbs j] & Hloop & [Hlen Hins Hsucc _ Hconv]);
    [done|apply cfgInv_init|].
  cbn [fst snd] in *.
  exists (withBlocks fn (labels fn) bbs). split_and!.
  - unfold computeCFG. rewrite Hloop. done.
  - cbn. apply list_eq. intros a. rewrite !list_lookup_fmap.
    destruct (bbs !! a) as [x|] eqn:Hx.
    + destruct (Hins a x Hx) as (y & -> & Hi). cbn. by rewrite Hi.
    + apply lookup_ge_None in Hx. rewrite Hlen in Hx.
      apply lookup_ge_None in Hx. by rewrite Hx.
  - cbn [blocks withBlocks]. intros b bb bb' Hb Hb'.
    pose proof (lookup_lt_Some _ _ _ Hb) as Hlt. fold (blockNum fn) in Hlt.
    destruct (Hins b bb' Hb') as (y & Hy & Hi). rewrite Hb in Hy.
    injection Hy as <-.
    pose proof (Hsucc b bb' Hb') as Hs. rewrite decide_True in Hs by done.
    unfold jumpSet, fallsThrough in Hs. rewrite Hi in Hs.
    split_and!.
    + intros Hnil. rewrite Hnil in Hs. cbn in Hs. rewrite Hs. clear. set_solver.
    + intros insn Hl Hnb. rewrite Hl in Hs.
      destruct insn; try done; rewrite Hs; cbn [andb];
        rewrite nextBlockSet_bool; clear; set_solver.
    + intros pred l hl Hl. rewrite Hl in Hs.
      rewrite decide_True in Hs by done.
      rewrite (bool_decide_eq_true_2 (OP_BRA = OP_BRA)) in Hs by done.
      cbn [andb] in Hs.
      destruct (Hsorted b bb OP_BRA pred l false hl Hb Hl eq_refl) as [_ Ht].
      exists l. split; [done|]. rewrite Hs. clear. set_solver.
    + intros pred l hl Hl. rewrite Hl in Hs.
      rewrite decide_True in Hs by done.
      rewrite (bool_decide_eq_true_2 (OP_BRA = OP_BRA)) in Hs by done.
      cbn [andb] in Hs.
      destruct (Hsorted b bb OP_BRA pred l true hl Hb Hl eq_refl) as [_ Ht].
      exists l. split; [done|]. rewrite Hs.
      rewrite nextBlockSet_bool. clear. set_solver.
    + intros op pred l hp hl Hl Hop. rewrite Hl in Hs.
      rewrite decide_False in Hs by done.
      rewrite bool_decide_eq_false_2 in Hs by done. cbn in Hs.
      rewrite Hs. clear. set_solver.
  - cbn [blocks withBlocks]. apply Hconv.
Qed.

(** Three blocks: a predicated branch over the second block, an
unconditional branch, and the return block. *)
Definition demoBlock (l : list Instruction) : BasicBlock :=
  {| insns := l; predecessors := ∅; successors := ∅;
     nextBlock := None; prevBlock := None |}.

Definition demoCFG : Function :=
  {| labels := [Some 0; Some 1; Some 2];
     immediates := [];
     blocks := [ demoBlock [LABEL 0; BRA_pred 2 4];
                 demoBlock [LABEL 1; BRA 2];
                 demoBlock [LABEL 2; RET] ];
     file := {| regs := []; regTuples := [] |};
     profile := PROFILE_OCL;
     simdWidth := 0 |}.

Lemma computeCFG_successors_witness :
  branchTargetsSorted demoCFG = true /\
  exists fn', computeCFG demoCFG = Some fn'.
Proof.
  split; [reflexivity|].
  destruct (computeCFG_successors demoCFG eq_refl) as (fn' & H & _).
  exists fn'. exact H.
Defined.

(** ** ir/function.{hpp,cpp} : labels, special registers, block sizes *)

(** [Function::newLabel]: [None] when the assertion on the number of
labels fails. *)
Definition newLabel (fn : Function) : option (LabelIndex * Function) :=
  if bool_decide (Z.of_nat (labelNum fn) < 65535)%Z then
    Some (toLabelIndex (Z.of_nat (labelNum fn)),
          withBlocks fn (labels fn ++ [None]) (blocks fn))
  else None.

(** [Function::getBlock], the block named by its number: [None] when the
assertion fails. *)
Definition getBlock (fn : Function) (label : LabelIndex) : option nat :=
  if bool_decide (label < labelNum fn) then
    match labels fn !! label with
    | Some (Some b) => Some b
    | _ => None
    end
  else None.

(** [Function::getLargestBlockSize] *)
Definition getLargestBlockSize (fn : Function) : Z :=
  fold_left (fun insnNum bb =>
               Z.max insnNum (wrap32 (Z.of_nat (length (insns bb)))))
            (blocks fn) 0%Z.

(** [struct PushLocation] and its [operator<]; [pl_fn] names the function
the location belongs to. *)
Record PushLocation := {
  pl_fn : nat;
  argID : Z;
  offset : Z
}.

Definition PushLocation_lt (arg0 arg1 : PushLocation) : bool :=
  if negb (bool_decide (argID arg0 = argID arg1))
  then bool_decide (argID arg0 < argID arg1)%Z
  else bool_decide (offset arg0 < offset arg1)%Z.

(** The emission functions [LOAD] and [STORE] with the constructors they
call: [valueNum] is a [uint32_t] stored in a 7-bit field; [None] when the
constructor's assertion fails. *)
Definition LOAD (type : IRType) (tuple : Tuple) (offset : Register)
           (space : AddressSpace) (valueNum : Z) (dwAligned : bool)
  : option Instruction :=
  if bool_decide (valueNum < 128)%Z then
    Some (LoadInstruction type offset tuple space
                          (Z.to_nat (valueNum mod 2 ^ 7)) dwAligned)
  else None.

Definition STORE (type : IRType) (tuple : Tuple) (offset : Register)
           (space : AddressSpace) (valueNum : Z) (dwAligned : bool)
  : option Instruction :=
  if bool_decide (valueNum < 255)%Z then
    Some (StoreInstruction type offset tuple space
                           (Z.to_nat (valueNum mod 2 ^ 7)) dwAligned)
  else None.

(** X9: [newLabel] succeeds exactly while fewer than 65535 labels exist
(one fewer than its message announces); the label it returns is the number
of labels there were, it is not bound to a block ([getBlock] fails on it),
and the labels that existed keep their blocks. *)
Theorem newLabel_fresh (fn : Function) :
  (newLabel fn = None <-> (65535 <= Z.of_nat (labelNum fn))%Z) /\
  forall l fn', newLabel fn = Some (l, fn') ->
    l = labelNum fn /\ labelNum fn' = S (labelNum fn) /\
    blocks fn' = blocks fn /\
    getBlock fn' l = None /\
    forall k, k < labelNum fn -> getBlock fn' k = getBlock fn k.
Proof.
  unfold newLabel. split.
  - case_bool_decide; split; try done; lia.
  - intros l fn'. case_bool_decide as Hlt; [|done]. intros [= <- <-].
    assert (Hl : toLabelIndex (Z.of_nat (labelNum fn)) = labelNum fn).
    { unfold toLabelIndex, wrap16. rewrite Z.mod_small by lia. lia. }
    rewrite Hl. unfold getBlock, labelNum in *. cbn [labels blocks withBlocks].
    rewrite length_app. cbn [length]. split_and!; [done|lia|done| |].
    + rewrite bool_decide_eq_true_2 by lia.
      by rewrite lookup_app_r, Nat.sub_diag by lia.
    + intros k Hk. rewrite !bool_decide_eq_true_2 by lia.
      by rewrite lookup_app_l by lia.
Qed.

Lemma fold_max_ge (l : list BasicBlock) (a : Z) :
  (a <= fold_left (fun insnNum bb =>
                     Z.max insnNum (wrap32 (Z.of_nat (length (insns bb)))))
                  l a)%Z.
Proof.
  revert a. induction l as [|bb l IH]; intros a; cbn; [lia|].
  etrans; [|apply IH]. lia.
Qed.

(** X10: [getLargestBlockSize] is the largest block size (as a
[uint32_t]): no block is larger, and the value is the size of some block,
or zero for a function without blocks. *)
Theorem getLargestBlockSize_max (fn : Function) :
  (forall bb, bb ∈ blocks fn ->
              (wrap32 (Z.of_nat (length (insns bb)))
               <= getLargestBlockSize fn)%Z) /\
  (blocks fn = [] -> getLargestBlockSize fn = 0%Z) /\
  (blocks fn <> [] ->
   exists bb, bb ∈ blocks fn /\
              getLargestBlockSize fn
              = wrap32 (Z.of_nat (length (insns bb)))).
Proof.
  unfold getLargestBlockSize.
  assert (H : forall l a,
             (forall bb, bb ∈ l ->
                (wrap32 (Z.of_nat (length (insns bb)))
                 <= fold_left (fun insnNum bb =>
                      Z.max insnNum (wrap32 (Z.of_nat (length (insns bb)))))
                      l a)%Z) /\
             (fold_left (fun insnNum bb =>
                  Z.max insnNum (wrap32 (Z.of_nat (length (insns bb)))))
                  l a = a \/
              exists bb, bb ∈ l /\
                fold_left (fun insnNum bb =>
                  Z.max insnNum (wrap32 (Z.of_nat (length (insns bb)))))
                  l a = wrap32 (Z.of_nat (length (insns bb))))).
  { induction l as [|bb l IH]; intros a.
    - split; [by intros ? ?%elem_of_nil|by left].
    - cbn [fold_left].
      destruct (IH (Z.max a (wrap32 (Z.of_nat (length (insns bb))))))
        as [IH1 IH2].
      split.
      + intros bb' [->|Hin]%elem_of_cons; [|by apply IH1].
        etrans; [|apply fold_max_ge]. lia.
      + destruct IH2 as [Heq|(bb' & Hin & Heq)].
        * rewrite Heq.
          destruct (Z.max_spec a (wrap32 (Z.of_nat (length (insns bb)))))
            as [[_ ->]|[_ ->]]; [|by left].
          right. exists bb. split; [left|done].
        * right. exists bb'. split; [by right|done]. }
  destruct (H (blocks fn) 0%Z) as [H1 H2]. split_and!.
  - exact H1.
  - by intros ->.
  - intros Hne. destruct H2 as [Heq|?]; [|done].
    destruct (blocks fn) as [|bb l] eqn:Hb; [done|].
    exists bb. split; [left|].
    pose proof (H1 bb ltac:(left)) as Hle. rewrite Heq in *.
    pose proof (wrap32_range (Z.of_nat (length (insns bb)))). lia.
Qed.

(** X11: [operator<] on [PushLocation] is a strict order on the pairs
(argID, offset): it is irreflexive and transitive, and two locations are
unordered exactly when they have the same argID and the same offset,
whichever function they belong to. *)
Theorem PushLocation_lt_order :
  (forall a, PushLocation_lt a a = false) /\
  (forall a b c, PushLocation_lt a b = true -> PushLocation_lt b c = true ->
                 PushLocation_lt a c = true) /\
  (forall a b, PushLocation_lt a b = false /\ PushLocation_lt b a = false <->
               argID a = argID b /\ offset a = offset b).
Proof.
  unfold PushLocation_lt. split_and!.
  - intros a. rewrite (bool_decide_eq_true_2 (argID a = argID a)) by done.
    cbn. apply bool_decide_eq_false_2. lia.
  - intros a b c.
    repeat case_bool_decide; cbn; try done; try lia.
  - intros a b.
    repeat case_bool_decide; cbn; split; try done; try lia;
      intros [? ?]; try done; try lia.
Qed.

(** X12: [LOAD] asserts fewer than 128 values and keeps the number it is
given, whereas [STORE] accepts up to 254 values and keeps the number modulo
128: a store of 128 values or more that passes the assertion has fewer
sources than values plus one. *)
Theorem LOAD_STORE_valueNum type tuple offset space (valueNum : Z) dw :
  (0 <= valueNum)%Z ->
  (is_Some (LOAD type tuple offset space valueNum dw) <->
   (valueNum < 128)%Z) /\
  (forall insn, LOAD type tuple offset space valueNum dw = Some insn ->
                Z.of_nat (getDstNum insn) = valueNum) /\
  (is_Some (STORE type tuple offset space valueNum dw) <->
   (valueNum < 255)%Z) /\
  (forall insn, STORE type tuple offset space valueNum dw = Some insn ->
                Z.of_nat (getSrcNum insn) = (valueNum mod 128 + 1)%Z /\
                (Z.of_nat (getSrcNum insn) = (valueNum + 1)%Z <->
                 (valueNum < 128)%Z)).
Proof.
  intros Hpos. unfold LOAD, STORE. split_and!.
  - case_bool_decide; split; try done; try by eexists.
    all: by intros [? ?].
  - intros insn. case_bool_decide; [|done]. intros [= <-]. cbn.
    rewrite Z.mod_small by lia. lia.
  - case_bool_decide; split; try done; try by eexists.
    all: by intros [? ?].
  - intros insn. case_bool_decide; [|done]. intros [= <-]. cbn.
    change (2 ^ 7)%Z with 128%Z.
    pose proof (Z.mod_pos_bound valueNum 128 ltac:(lia)).
    split; [lia|]. split.
    + intros Heq. assert (valueNum mod 128 = valueNum)%Z by lia.
      lia.
    + intros Hlt. rewrite Z.mod_small by lia. lia.
Qed.

Lemma LOAD_STORE_valueNum_witness :
  (exists insn, LOAD TYPE_U32 0 0 MEM_GLOBAL 4 true = Some insn /\
                Z.of_nat (getDstNum insn) = 4%Z) /\
  LOAD TYPE_U32 0 0 MEM_GLOBAL 130 true = None /\
  (exists insn, STORE TYPE_U32 0 0 MEM_GLOBAL 130 true = Some insn /\
                Z.of_nat (getSrcNum insn) = 3%Z).
Proof.
  destruct (LOAD_STORE_valueNum TYPE_U32 0 0 MEM_GLOBAL 4 true
              ltac:(lia)) as (Hsome & Hload & _).
  destruct (LOAD_STORE_valueNum TYPE_U32 0 0 MEM_GLOBAL 130 true
              ltac:(lia)) as (Hnone & _ & _ & Hstore).
  split; [|split].
  - destruct (proj2 Hsome ltac:(lia)) as [insn Hinsn].
    exists insn. split; [exact Hinsn|]. apply (Hload insn Hinsn).
  - destruct (LOAD TYPE_U32 0 0 MEM_GLOBAL 130 true) as [insn|] eqn:Hl;
      [|reflexivity].
    assert (130 < 128)%Z by (apply (proj1 Hnone); by eexists). lia.
  - eexists. split; [reflexivity|].
    apply (Hstore _ eq_refl).
Defined.

(** X13: outside the OpenCL profile no register is special, so that every
register may be written; in the OpenCL profile the special registers are
the first [ocl::regNum] ones. *)
Theorem isSpecialReg_profile (ocl_regNum : Z) (ocl_stackptr : Register)
        (fn : Function) (reg : Register) :
  (profile fn <> PROFILE_OCL ->
   isSpecialReg ocl_regNum fn reg = false /\
   checkSpecialRegForWrite ocl_regNum ocl_stackptr reg fn = true) /\
  (profile fn = PROFILE_OCL -> (0 <= ocl_regNum < 2 ^ 32)%Z ->
   (isSpecialReg ocl_regNum fn reg = true <->
    (Z.of_nat reg < ocl_regNum)%Z)).
Proof.
  unfold checkSpecialRegForWrite, isSpecialReg, getFirstSpecialReg,
    getSpecialRegNum.
  split.
  - intros Hp. rewrite !decide_False by done.
    assert (Hw : wrap32 (2 ^ 32 - 1 + (2 ^ 32 - 1)) = (2 ^ 32 - 2)%Z)
      by (by vm_compute).
    rewrite Hw.
    assert (Hf : bool_decide (2 ^ 32 - 1 <= Z.of_nat reg)%Z &&
                 bool_decide (Z.of_nat reg < 2 ^ 32 - 2)%Z = false).
    { repeat case_bool_decide; cbn; try done. lia. }
    cbn zeta. rewrite Hf. done.
  - intros Hp Hr. rewrite !decide_True by done. cbn zeta.
    rewrite (wrap32_small ocl_regNum) by lia.
    rewrite Z.add_0_l, (wrap32_small ocl_regNum) by lia.
    rewrite bool_decide_eq_true_2 by lia. cbn.
    apply bool_decide_eq_true.
Qed.

(** ** [computeCFG] run again, and the chain of blocks *)

(** What of a block [computeCFG] does not recompute from nothing. *)
Definition skeleton (bb : BasicBlock)
  : list Instruction * option nat * option nat :=
  (insns bb, nextBlock bb, prevBlock bb).

Lemma addEdge_skeleton from to bbs :
  map skeleton (addEdge from to bbs) = map skeleton bbs.
Proof.
  apply list_eq. intros a. rewrite !list_lookup_fmap, addEdge_lookup.
  destruct (bbs !! a) as [bb|]; [|done]. cbn.
  by repeat case_decide.
Qed.

Lemma cfgVisit_skeleton st b st' :
  cfgVisit st b = Some st' -> map skeleton (fst st') = map skeleton (fst st).
Proof.
  unfold cfgVisit.
  set (bbs := if snd st is Some j then addEdge j b (fst st) else fst st).
  assert (Hb : map skeleton bbs = map skeleton (fst st)).
  { subst bbs. destruct (snd st); [apply addEdge_skeleton|done]. }
  destruct (bbs !! b) as [bb|]; [|done].
  destruct (last (insns bb)) as [insn|]; [|by intros [= <-]].
  destruct insn; try by intros [= <-].
  case_decide; [|by intros [= <-]].
  destruct hasLabel; [|done]. destruct (bbs !! labelIndex); [|done].
  intros [= <-]. cbn. by rewrite addEdge_skeleton.
Qed.

Lemma cfgLoop_skeleton bs :
  forall st st', cfgLoop st bs = Some st' ->
                 map skeleton (fst st') = map skeleton (fst st).
Proof.
  induction bs as [|b bs IH]; intros st st'; cbn; [by intros [= <-]|].
  destruct (cfgVisit st b) as [st1|] eqn:Hv; [|done]. cbn.
  intros Hl. rewrite (IH _ _ Hl). by eapply cfgVisit_skeleton.
Qed.

Lemma clearCFG_skeleton bbs :
  forall bbs' prev b, map skeleton bbs = map skeleton bbs' ->
                      clearCFG prev b bbs = clearCFG prev b bbs'.
Proof.
  induction bbs as [|bb bbs IH]; intros [|bb' bbs'] prev b Heq; try done.
  cbn in Heq. injection Heq as Hi Hn Hp Ht. cbn.
  rewrite (IH bbs' (Some b) (S b) Ht), Hi, Hn, Hp.
  f_equal. f_equal.
  destruct bbs, bbs'; done.
Qed.

Lemma clearCFG_again bbs :
  forall prev b,
  clearCFG prev b (clearCFG prev b bbs) = clearCFG prev b bbs.
Proof.
  induction bbs as [|bb bbs IH]; intros prev b; [done|].
  cbn. rewrite IH. f_equal.
  destruct bbs as [|bb1 bbs]; cbn; destruct prev; done.
Qed.

(** The links of the chain after the first loop. *)
Lemma clearCFG_chain bbs :
  forall prev b a bb',
  clearCFG prev b bbs !! a = Some bb' ->
  exists bb, bbs !! a = Some bb /\
    nextBlock bb' = (if decide (S a < length bbs) then Some (S (b + a))
                     else nextBlock bb) /\
    prevBlock bb' = (if decide (a = 0)
                     then (if prev is Some p then Some p else prevBlock bb)
                     else Some (b + a - 1)).
Proof.
  induction bbs as [|bb bbs IH]; intros prev b a bb'; [done|].
  destruct a as [|a]; cbn [clearCFG lookup list_lookup length].
  - intros [= <-]. exists bb. cbn. split; [done|].
    split; [|done]. destruct bbs; cbn; case_decide; try lia; try done.
    f_equal. lia.
  - intros Ha. destruct (IH _ _ _ _ Ha) as (bb0 & Hb0 & Hn & Hp).
    exists bb0. split; [done|]. rewrite Hn, Hp. split.
    + repeat case_decide; try lia; try done; f_equal; lia.
    + repeat case_decide; try lia; try done; f_equal; lia.
Qed.

(** X14: [computeCFG] links every block to the block that follows it and
to the block that precedes it ([nextBlock], [prevBlock]); it never resets
the [nextBlock] of the last block nor the [prevBlock] of the first one,
which stay as they were. *)
Theorem computeCFG_chain (fn fn' : Function) :
  computeCFG fn = Some fn' ->
  blockNum fn' = blockNum fn /\
  forall b bb bb',
    blocks fn !! b = Some bb -> blocks fn' !! b = Some bb' ->
    nextBlock bb' = (if decide (S b < blockNum fn) then Some (S b)
                     else nextBlock bb) /\
    prevBlock bb' = (if decide (b = 0) then prevBlock bb
                     else Some (b - 1)).
Proof.
  unfold computeCFG.
  destruct (cfgLoop _ _) as [st|] eqn:Hl; [|done]. cbn.
  intros [= <-]. cbn [blocks withBlocks]. unfold blockNum in *. cbn.
  pose proof (cfgLoop_skeleton _ _ _ Hl) as Hsk. cbn [fst] in Hsk.
  split.
  - apply (f_equal length) in Hsk.
    by rewrite !length_map, clearCFG_length in Hsk.
  - intros b bb bb' Hb Hb'.
    assert (Hs : skeleton <$> fst st !! b
                 = skeleton <$> clearCFG None 0 (blocks fn) !! b).
    { rewrite <- !list_lookup_fmap.
      change (skeleton <$> fst st) with (map skeleton (fst st)).
      by rewrite Hsk. }
    rewrite Hb' in Hs. cbn in Hs.
    destruct (clearCFG None 0 (blocks fn) !! b) as [bb1|] eqn:H1; [|done].
    cbn in Hs. injection Hs as _ Hn Hp.
    destruct (clearCFG_chain _ _ _ _ _ H1) as (bb0 & Hb0 & Hn1 & Hp1).
    rewrite Hb in Hb0. injection Hb0 as <-.
    rewrite Hn, Hp, Hn1, Hp1. split; repeat case_decide; try done; try lia.
Qed.

(** X15: [computeCFG] run on its own result changes nothing. *)
Theorem computeCFG_idempotent (fn fn' : Function) :
  computeCFG fn = Some fn' -> computeCFG fn' = Some fn'.
Proof.
  unfold computeCFG.
  destruct (cfgLoop _ _) as [st|] eqn:Hl; [|done]. cbn.
  intros [= <-]. cbn [blocks withBlocks labels]. unfold blockNum in *.
  cbn [blocks withBlocks].
  pose proof (cfgLoop_skeleton _ _ _ Hl) as Hsk. cbn [fst] in Hsk.
  assert (Hlen : length (fst st) = length (blocks fn)).
  { apply (f_equal length) in Hsk.
    by rewrite !length_map, clearCFG_length in Hsk. }
  rewrite (clearCFG_skeleton _ _ None 0 Hsk), clearCFG_again, Hlen, Hl.
  done.
Qed.

Lemma computeCFG_chain_witness :
  exists fn', computeCFG demoCFG = Some fn' /\ blockNum fn' = 3.
Proof.
  eexists. split; [reflexivity|].
  apply (computeCFG_chain demoCFG _ eq_refl).
Defined.

Lemma computeCFG_idempotent_witness :
  exists fn', computeCFG demoCFG = Some fn' /\ computeCFG fn' = Some fn'.
Proof.
  eexists. split; [reflexivity|].
  apply (computeCFG_idempotent demoCFG _ eq_refl).
Defined.

(** ** [sortLabels] run again, and followed by [computeCFG] *)

(** The label map, entry by entry: an old index is sent to the rank of the
first label instruction that carries it. *)
Lemma renameLabel_map l :
  forall last m,
  (0 <= last)%Z -> (last + Z.of_nat (countLabels l) <= 2 ^ 16)%Z ->
  forall x,
    snd (fst (foreachState renameLabel (last, m) l)) !! x =
    match m !! x with
    | Some y => Some y
    | None => (fun p => Z.to_nat last + fst p)
                <$> list_find (x =.) (labelIndices l)
    end.
Proof.
  induction l as [|insn l IH]; intros last m Hlast Hbound x.
  { cbn. by destruct (m !! x). }
  cbn [foreachState].
  destruct (renameLabel (last, m) insn) as [[last1 m1] insn'] eqn:Hf.
  specialize (IH last1 m1).
  destruct (foreachState renameLabel (last1, m1) l) as [[last2 m2] l'] eqn:Hr.
  cbn [fst snd] in *.
  rewrite countLabels_cons in Hbound. rewrite labelIndices_cons.
  destruct insn;
    try (injection Hf as <- <- <-; cbn [labelOf] in *; by apply IH).
  cbn [labelOf] in *. cbn in Hf.
  assert (toLabelIndex last = Z.to_nat last) as Hti.
  { unfold toLabelIndex, wrap16. rewrite Z.mod_small; [done|lia]. }
  rewrite Hti in Hf. rewrite wrap32_small in Hf by lia.
  injection Hf as <- <- <-.
  rewrite IH by lia. cbn [list_find].
  destruct (decide (x = labelIndex)) as [->|Hne].
  - destruct (m !! labelIndex) eqn:Hm; [by rewrite Hm|].
    rewrite lookup_insert_eq. cbn. f_equal. lia.
  - assert (Hm1 : match m !! labelIndex with
                  | Some _ => m
                  | None => <[labelIndex:=Z.to_nat last]> m
                  end !! x = m !! x).
    { destruct (m !! labelIndex); [done|]. by rewrite lookup_insert_ne. }
    rewrite Hm1. destruct (m !! x); [done|].
    destruct (list_find (x =.) (labelIndices l)) as [[i y]|]; [|done].
    cbn. f_equal. lia.
Qed.

Lemma sortLabelsMap_first fn x :
  (Z.of_nat (countLabels (allInsns (blocks fn))) <= 2 ^ 16)%Z ->
  sortLabelsMap fn !! x =
  fst <$> list_find (x =.) (labelIndices (allInsns (blocks fn))).
Proof.
  intros Hb. unfold sortLabelsMap.
  pose proof (foreachInstructionState_flat renameLabel (0%Z, ∅) (blocks fn))
    as [Hflat _].
  pose proof (renameLabel_map (allInsns (blocks fn)) 0%Z ∅) as Hmap.
  rewrite Hflat in Hmap. cbn [fst snd] in Hmap.
  rewrite Hmap by lia. rewrite lookup_empty.
  by destruct (list_find _ _) as [[i y]|].
Qed.

(** Same CFG fields. *)
Definition sameCFG (bb bb' : BasicBlock) : Prop :=
  predecessors bb' = predecessors bb /\ successors bb' = successors bb /\
  nextBlock bb' = nextBlock bb /\ prevBlock bb' = prevBlock bb.

Lemma foreachInstructionState_sameCFG {S : Type}
      (f : S -> Instruction -> S * Instruction) st bbs :
  Forall2 sameCFG bbs (snd (foreachInstructionState f st bbs)).
Proof.
  revert st. induction bbs as [|bb bbs IH]; intros st; cbn; [constructor|].
  destruct (foreachState f st (insns bb)) as [st1 l].
  specialize (IH st1).
  destruct (foreachInstructionState f st1 bbs) as [st2 bbs']. cbn in *.
  by constructor.
Qed.

Lemma Forall2_comp {A B C : Type} (R : A -> B -> Prop) (T : B -> C -> Prop)
      l1 l2 l3 :
  Forall2 R l1 l2 -> Forall2 T l2 l3 ->
  Forall2 (fun a c => exists b, R a b /\ T b c) l1 l3.
Proof.
  intros H. revert l3. induction H; intros l3 H3; inversion H3; subst;
    constructor; eauto.
Qed.

Lemma Forall2_both {A B : Type} (R T : A -> B -> Prop) l1 l2 :
  Forall2 R l1 l2 -> Forall2 T l1 l2 ->
  Forall2 (fun a b => R a b /\ T a b) l1 l2.
Proof.
  intros H. induction H; intros H3; inversion H3; subst; constructor; eauto.
Qed.

(** What [sortLabels] makes of one instruction, [m] being the label map. *)
Definition sortedInsn (m : gmap nat nat) (i i' : Instruction) : Prop :=
  match i with
  | LabelInstruction _ => exists k, i' = LabelInstruction k
  | BranchInstruction op pred x hp hl =>
      if decide (op = OP_BRA)
      then exists k, m !! x = Some k /\
                     i' = (if hp then BRA_pred k pred else BRA k)
      else i' = i
  | _ => i' = i
  end.

Lemma sortedInsn_intro m i i1 i2 :
  renamed i i1 -> patched m i1 i2 -> sortedInsn m i i2.
Proof.
  intros [Hl Hnl] Hp. unfold patched in Hp.
  destruct (labelOf i) as [k|] eqn:Hk.
  - destruct (proj1 Hl) as [k' Hk']; [by eexists|].
    destruct i; try done. destruct i1; try done. cbn in Hp.
    injection Hp as <-. cbn. by eexists.
  - rewrite (Hnl eq_refl) in Hp.
    destruct i; try done; cbn in *; try by injection Hp as <-.
    destruct (decide (opcode = OP_BRA)); [|by injection Hp as <-].
    destruct hasLabel; [|done].
    destruct (m !! labelIndex) as [k'|]; [|done].
    injection Hp as <-. by exists k'.
Qed.

(** [sortLabels], block by block. *)
Lemma sortLabels_run (fn : Function) :
  sortLabelsPre fn = true ->
  exists fn',
    sortLabels fn = Some fn' /\
    Forall2 (fun bb bb' =>
               Forall2 (sortedInsn (sortLabelsMap fn)) (insns bb) (insns bb')
               /\ sameCFG bb bb')
            (blocks fn) (blocks fn') /\
    labelIndices (allInsns (blocks fn')) =
    seq 0 (countLabels (allInsns (blocks fn))) /\
    length (labels fn') = countLabels (allInsns (blocks fn)) /\
    (forall b bb k,
        blocks fn' !! b = Some bb ->
        head (insns bb) = Some (LabelInstruction k) ->
        labels fn' !! k = Some (Some b)) /\
    (forall k,
        (forall b bb, blocks fn' !! b = Some bb ->
                      head (insns bb) <> Some (LabelInstruction k)) ->
        labels fn' !! k =
        resize (countLabels (allInsns (blocks fn))) None (labels fn) !! k) /\
    immediates fn' = immediates fn /\ file fn' = file fn /\
    profile fn' = profile fn /\ simdWidth fn' = simdWidth fn.
Proof.
  intros Hpre.
  pose proof Hpre as Hpre'. unfold sortLabelsPre in Hpre'.
  apply andb_prop in Hpre' as [Hpre' _].
  apply andb_prop in Hpre' as [H16%bool_decide_eq_true _].
  unfold sortLabels, sortLabelsMap.
  pose proof (foreachInstructionState_flat renameLabel (0%Z, ∅) (blocks fn))
    as [Hflat Hshape].
  pose proof (foreachInstructionState_pointwise renameLabel renamed
                (0%Z, ∅) (blocks fn) renameLabel_renamed) as Hpw.
  pose proof (foreachInstructionState_sameCFG renameLabel
                (0%Z, ∅) (blocks fn)) as Hcfg1.
  destruct (foreachInstructionState renameLabel (0%Z, ∅) (blocks fn))
    as [[last m] bbs1] eqn:Hr.
  cbn [fst snd] in *.
  pose proof (renameLabel_spec (allInsns (blocks fn)) 0%Z ∅) as Hspec.
  rewrite Hflat in Hspec. cbn [fst snd] in Hspec.
  destruct Hspec as (Hlast & Hidx & _ & Hdom & _); [lia|lia|].
  set (n := countLabels (allInsns (blocks fn))) in *.
  assert (Hok : forall i0 i1, i0 ∈ allInsns (blocks fn) -> renamed i0 i1 ->
                              is_Some (patchBranch m i1)).
  { intros i0 i1 Hin [Hl Hnl]. destruct (labelOf i0) as [k|] eqn:Hk.
    - destruct (proj1 Hl) as [k' Hk']; [by eexists|].
      by destruct i1.
    - rewrite (Hnl eq_refl).
      destruct i0; try by eexists. cbn.
      destruct (decide (opcode = OP_BRA)) as [->|]; [|by eexists].
      destruct (sortLabelsPre_bra fn _ Hpre Hin _ _ _ _ _ eq_refl eq_refl)
        as [-> Hin'].
      destruct (proj2 (Hdom labelIndex)) as [k' ->]; [by right|].
      by eexists. }
  assert (Hmap : is_Some (mapM (patchBlock m) bbs1)).
  { apply mapM_is_Some. apply Forall_forall. intros bb1 Hbb1.
    apply list_elem_of_lookup_1 in Hbb1 as [b Hb1].
    destruct (Forall2_lookup_r _ _ _ _ _ Hpw Hb1) as (bb0 & Hb0 & Hins).
    cbn. unfold patchBlock.
    assert (is_Some (mapM (patchBranch m) (insns bb1))) as [l2 ->];
      [|by eexists].
    apply mapM_is_Some. apply Forall_forall. intros i1 Hi1.
    apply list_elem_of_lookup_1 in Hi1 as [q Hq].
    destruct (Forall2_lookup_r _ _ _ _ _ Hins Hq) as (i0 & Hq0 & Hren).
    apply (Hok i0 i1); [|done].
    apply (elem_of_allInsns _ b bb0); [done|].
    by eapply list_elem_of_lookup_2. }
  destruct Hmap as [bbs2 Hbbs2]. rewrite Hbbs2. cbn [mbind option_bind].
  apply mapM_Some in Hbbs2.
  assert (Hp2 : Forall2 (fun bb bb2 =>
                           Forall2 (patched m) (insns bb) (insns bb2))
                        bbs1 bbs2).
  { eapply Forall2_impl; [exact Hbbs2|]. intros. by apply patchBlock_insns. }
  assert (Hcfg2 : Forall2 sameCFG bbs1 bbs2).
  { eapply Forall2_impl; [exact Hbbs2|]. intros bb1 bb2 Hpb.
    unfold patchBlock in Hpb.
    destruct (mapM (patchBranch m) (insns bb1)); [|done].
    by injection Hpb as <-. }
  pose proof (Forall2_blocks_flat _ _ _ Hp2) as Hp2flat.
  assert (Hidx2 : labelIndices (allInsns bbs2) = seq 0 n).
  { rewrite (patched_labelIndices m _ _ Hp2flat). exact Hidx. }
  assert (Hheads : forall b bb2, bbs2 !! b = Some bb2 ->
            exists k, head (insns bb2) = Some (LabelInstruction k) /\ k < n).
  { intros b bb2 Hb2.
    destruct (Forall2_lookup_r _ _ _ _ _ Hp2 Hb2) as (bb1 & Hb1 & Hi12).
    destruct (Forall2_lookup_r _ _ _ _ _ Hpw Hb1) as (bb0 & Hb0 & Hi01).
    destruct (sortLabelsPre_head fn b bb0 Hpre Hb0) as [k0 Hk0].
    destruct (insns bb0) as [|i0 l0]; [done|]. injection Hk0 as ->.
    inversion Hi01 as [|? i1 ? l1 [Hl _] _ Heq0 Heq1]; subst.
    rewrite <- Heq1 in Hi12.
    inversion Hi12 as [|? i2 ? l2 Hpat _ Heq2 Heq3]; subst.
    destruct (proj1 Hl) as [k Hk]; [by eexists|].
    apply patched_label in Hpat. rewrite Hk in Hpat.
    destruct i2; try done. cbn in Hpat. injection Hpat as ->.
    exists k. split; [done|].
    assert (k ∈ seq 0 n) as Hin.
    { rewrite <- Hidx2. apply (head_label_in bbs2 b bb2 k Hb2).
      by rewrite <- Heq3. }
    apply elem_of_seq in Hin. lia. }
  assert (Hlen0 : Z.to_nat last = n) by lia.
  destruct (resetLabels_spec bbs2 (resize (Z.to_nat last) None (labels fn)) 0)
    as (labels' & Hreset & Hlen' & Htable & Hother).
  { intros b bb2 Hb2. rewrite length_resize, Hlen0. by apply (Hheads b). }
  { apply heads_distinct. rewrite Hidx2. apply NoDup_seq. }
  rewrite Hreset. cbn [mbind option_bind].
  eexists. split; [reflexivity|].
  cbn [blocks labels withBlocks immediates file profile simdWidth].
  split_and!; try done.
  - pose proof (Forall2_comp _ _ _ _ _
                  (Forall2_both _ _ _ _ Hpw Hcfg1)
                  (Forall2_both _ _ _ _ Hp2 Hcfg2)) as Hc.
    eapply Forall2_impl; [exact Hc|]. cbn.
    intros bb bb2 (bb1 & [H01 C01] & [H12 C12]). split.
    + pose proof (Forall2_comp _ _ _ _ _ H01 H12) as Hi.
      eapply Forall2_impl; [exact Hi|]. cbn.
      intros i i2 (i1 & ? & ?). by eapply sortedInsn_intro.
    + unfold sameCFG in *. destruct C01 as (A1 & A2 & A3 & A4).
      destruct C12 as (B1 & B2 & B3 & B4). split_and!; congruence.
  - by rewrite Hlen', length_resize.
  - intros k Hk. rewrite (Hother k Hk). by rewrite Hlen0.
Qed.

(** *** [sortLabels] on its own result *)

Lemma allInsns_elem_of bbs i :
  i ∈ allInsns bbs -> exists b bb, bbs !! b = Some bb /\ i ∈ insns bb.
Proof.
  induction bbs as [|bb0 bbs IH]; [by intros ?%elem_of_nil|].
  unfold allInsns. cbn. fold (allInsns bbs).
  intros [Hi|Hi]%elem_of_app.
  - by exists 0, bb0.
  - destruct (IH Hi) as (b & bb & Hb & Hin). by exists (S b), bb.
Qed.

Definition isLabel (i : Instruction) : Prop := is_Some (labelOf i).

Lemma sortedInsn_isLabel m i i' : sortedInsn m i i' -> isLabel i <-> isLabel i'.
Proof.
  unfold isLabel. destruct i; cbn; try (by intros ->).
  - destruct (decide (opcode = OP_BRA)); [|by intros ->].
    intros (k & _ & ->). by destruct hasPredicate.
  - intros [k ->]. cbn. split; by eexists.
Qed.

(** Lists that differ in the indices of their label instructions only are
equal when these indices are. *)
Lemma labelIndices_inj l l' (X X' : list LabelIndex) :
  Forall2 (fun i i' => i' = i \/ (isLabel i /\ isLabel i')) l l' ->
  labelIndices l ++ X = labelIndices l' ++ X' ->
  l = l' /\ X = X'.
Proof.
  intros H. induction H as [|i i' l l' Hi _ IH]; [done|].
  rewrite !labelIndices_cons. intros Heq.
  destruct Hi as [->|[[k Hk] [k' Hk']]].
  - destruct (labelOf i); [injection Heq as Heq|];
      destruct (IH Heq) as [-> ->]; done.
  - rewrite Hk, Hk' in Heq. injection Heq as -> Heq.
    destruct (IH Heq) as [-> ->]. split; [|done]. f_equal.
    destruct i, i'; try (by inversion Hk); try (by inversion Hk').
    cbn in Hk, Hk'. congruence.
Qed.

Lemma blocks_labelIndices_inj bbs bbs' :
  Forall2 (fun bb bb' =>
             Forall2 (fun i i' => i' = i \/ (isLabel i /\ isLabel i'))
                     (insns bb) (insns bb') /\ sameCFG bb bb') bbs bbs' ->
  labelIndices (allInsns bbs) = labelIndices (allInsns bbs') ->
  bbs = bbs'.
Proof.
  intros H. induction H as [|bb bb' bbs bbs' [Hi Hc] _ IH]; [done|].
  unfold allInsns. cbn. fold (allInsns bbs). fold (allInsns bbs').
  rewrite !labelIndices_app. intros Heq.
  destruct (labelIndices_inj _ _ _ _ Hi Heq) as [Hins Hrest].
  rewrite (IH Hrest). f_equal.
  destruct Hc as (C1 & C2 & C3 & C4). destruct bb, bb'. cbn in *.
  congruence.
Qed.

(** The state [sortLabels] leaves: labels numbered in instruction order,
every [bra] as the emission functions build it, aimed at a label below
[n]. *)
Definition braNormal (n : nat) (i : Instruction) : Prop :=
  forall op pred l hp hl,
    i = BranchInstruction op pred l hp hl -> op = OP_BRA ->
    l < n /\ i = (if hp then BRA_pred l pred else BRA l).

Lemma sortLabels_braNormal fn fn' :
  sortLabelsPre fn = true ->
  Forall2 (fun bb bb' =>
             Forall2 (sortedInsn (sortLabelsMap fn)) (insns bb) (insns bb')
             /\ sameCFG bb bb') (blocks fn) (blocks fn') ->
  forall b bb' i', blocks fn' !! b = Some bb' -> i' ∈ insns bb' ->
                   braNormal (countLabels (allInsns (blocks fn))) i'.
Proof.
  intros Hpre HF b bb' i' Hb Hi'.
  pose proof Hpre as Hpre'. unfold sortLabelsPre in Hpre'.
  apply andb_prop in Hpre' as [Hpre' _].
  apply andb_prop in Hpre' as [H16%bool_decide_eq_true _].
  destruct (Forall2_lookup_r _ _ _ _ _ HF Hb) as (bb & _ & Hins & _).
  apply list_elem_of_lookup_1 in Hi' as [q Hq].
  destruct (Forall2_lookup_r _ _ _ _ _ Hins Hq) as (i & _ & Hs).
  intros op pred l hp hl -> ->.
  destruct i; cbn in Hs; try done.
  - destruct (decide (opcode = OP_BRA)) as [->|Hne].
    + destruct Hs as (k & Hk & Heq).
      rewrite sortLabelsMap_first in Hk by done.
      destruct (list_find _ _) as [[j y]|] eqn:Hf; [|done].
      injection Hk as ->. apply list_find_Some in Hf as (Hj & _).
      apply lookup_lt_Some in Hj.
      destruct hasPredicate; injection Heq as -> -> -> ->; done.
    + congruence.
  - by destruct Hs.
Qed.

(** X18: [sortLabels] run on its own result changes nothing: labels that
are already numbered in instruction order keep their numbers, and so do
the branches and the label table. *)
Theorem sortLabels_idempotent (fn fn' : Function) :
  sortLabelsPre fn = true ->
  sortLabels fn = Some fn' -> sortLabels fn' = Some fn'.
Proof.
  intros Hpre Hs.
  pose proof Hpre as Hpre'. unfold sortLabelsPre in Hpre'.
  apply andb_prop in Hpre' as [Hpre' _].
  apply andb_prop in Hpre' as [H16%bool_decide_eq_true _].
  destruct (sortLabels_run fn Hpre)
    as (fn1 & Hs1 & HF & Hidx & Hlen & Hhead & Hother & _).
  rewrite Hs in Hs1. injection Hs1 as <-.
  set (n := countLabels (allInsns (blocks fn))) in *.
  pose proof (sortLabels_braNormal fn fn' Hpre HF) as Hbra.
  assert (Hn' : countLabels (allInsns (blocks fn')) = n).
  { unfold countLabels at 1. by rewrite Hidx, length_seq. }
  assert (Hpre1 : sortLabelsPre fn' = true).
  { unfold sortLabelsPre. rewrite !andb_true_iff. split_and!.
    - apply bool_decide_eq_true. rewrite Hn'. done.
    - apply forallb_forall. intros i' Hi'%list_elem_of_In.
      apply allInsns_elem_of in Hi' as (b & bb' & Hb & Hi').
      specialize (Hbra b bb' i' Hb Hi').
      destruct i'; try done. case_decide as Hop; [|done].
      destruct (Hbra _ _ _ _ _ eq_refl Hop) as [Hlt Heq].
      fold (allInsns (blocks fn')). rewrite Hidx.
      assert (hasLabel = true) as ->.
      { by destruct hasPredicate; injection Heq. }
      cbn. apply bool_decide_eq_true. apply elem_of_seq. lia.
    - apply forallb_forall. intros bb' Hbb'%list_elem_of_In.
      apply list_elem_of_lookup_1 in Hbb' as [b Hb].
      destruct (Forall2_lookup_r _ _ _ _ _ HF Hb) as (bb & Hb0 & Hins & _).
      destruct (sortLabelsPre_head fn b bb Hpre Hb0) as [k Hk].
      destruct (insns bb) as [|i l]; [done|]. injection Hk as ->.
      inversion Hins as [|? i' ? l' Hsi _ Heq0 Heq1].
      cbn in Hsi. by destruct Hsi as [k' ->]. }
  destruct (sortLabels_run fn' Hpre1)
    as (fn2 & Hs2 & HF2 & Hidx2 & Hlen2 & Hhead2 & Hother2
        & Himm & Hfile & Hprof & Hsimd).
  rewrite Hs2. f_equal. rewrite Hn' in *.
  assert (Hm' : forall k, k < n -> sortLabelsMap fn' !! k = Some k).
  { intros k Hk. rewrite sortLabelsMap_first by (rewrite Hn'; done).
    rewrite Hidx.
    assert (list_find (k =.) (seq 0 n) = Some (k, k)) as ->; [|done].
    apply list_find_Some. split_and!; [|done|].
    - apply lookup_seq. lia.
    - intros j y [-> _]%lookup_seq. lia. }
  assert (Hblocks : blocks fn' = blocks fn2).
  { apply blocks_labelIndices_inj; [|by rewrite Hidx, Hidx2].
    apply Forall2_same_length_lookup. split; [by eapply Forall2_length|].
    intros b bb' bb2 Hb Hb2.
    destruct (Forall2_lookup_lr _ _ _ _ _ _ HF2 Hb Hb2) as [Hins Hc].
    split; [|done].
    apply Forall2_same_length_lookup. split; [by eapply Forall2_length|].
    intros q i' i2 Hq Hq2.
    pose proof (Forall2_lookup_lr _ _ _ _ _ _ Hins Hq Hq2) as Hsi.
    pose proof (sortedInsn_isLabel _ _ _ Hsi) as Hil.
    assert (Hbn : braNormal n i').
    { apply (Hbra b bb'); [done|]. by eapply list_elem_of_lookup_2. }
    destruct i'; cbn in Hsi; try (by left).
    - destruct (decide (opcode = OP_BRA)) as [->|]; [|by left].
      destruct (Hbn _ _ _ _ _ eq_refl eq_refl) as [Hlt Heq].
      destruct Hsi as (k & Hk & ->). rewrite Hm' in Hk by done.
      injection Hk as <-. by left.
    - right. split; [by eexists|]. apply Hil. by eexists. }
  assert (Hlabels : labels fn2 = labels fn').
  { apply list_eq. intros k.
    destruct (list_find (fun bb => head (insns bb) = Some (LabelInstruction k))
                        (blocks fn')) as [[b bb]|] eqn:Hf.
    - apply list_find_Some in Hf as (Hb & Hk & _).
      rewrite (Hhead b bb k Hb Hk).
      apply (Hhead2 b bb k); [by rewrite <- Hblocks|done].
    - rewrite list_find_None, Forall_lookup in Hf.
      rewrite Hother2.
      + by rewrite resize_all_alt.
      + intros b bb Hb. apply (Hf b). by rewrite Hblocks. }
  destruct fn', fn2. cbn in *. congruence.
Qed.

Lemma sortLabels_idempotent_witness :
  exists fn', sortLabels demoUnsorted = Some fn' /\
              sortLabels fn' = Some fn'.
Proof.
  eexists. split; [reflexivity|].
  apply (sortLabels_idempotent demoUnsorted _ eq_refl eq_refl).
Defined.

(** *** [sortLabels] followed by [computeCFG] *)

(** No label instruction after the first instruction of a block. *)
Definition labelsAtHeads (fn : Function) : bool :=
  forallb (fun bb => bool_decide (labelIndices (tail (insns bb)) = []))
          (blocks fn).

Definition headIndex (bb : BasicBlock) : LabelIndex :=
  match head (insns bb) with
  | Some (LabelInstruction k) => k
  | _ => 0
  end.

(** A block that starts with its only label instruction. *)
Definition oneLabel (bb : BasicBlock) : Prop :=
  (exists k, head (insns bb) = Some (LabelInstruction k)) /\
  labelIndices (tail (insns bb)) = [].

Lemma oneLabel_labelIndices bbs :
  Forall oneLabel bbs -> labelIndices (allInsns bbs) = map headIndex bbs.
Proof.
  induction 1 as [|bb bbs [[k Hk] Ht] _ IH]; [done|].
  unfold allInsns. cbn. fold (allInsns bbs).
  rewrite labelIndices_app, IH. unfold headIndex. rewrite Hk.
  destruct (insns bb) as [|i l]; [done|]. injection Hk as ->.
  rewrite labelIndices_cons. cbn [labelOf tail] in *. by rewrite Ht.
Qed.

Lemma sortedInsn_no_labels m l l' :
  Forall2 (sortedInsn m) l l' -> labelIndices l = [] -> labelIndices l' = [].
Proof.
  induction 1 as [|i i' l l' Hi _ IH]; [done|].
  rewrite !labelIndices_cons.
  destruct (labelOf i) as [k|] eqn:Hk; [done|]. intros Hl.
  destruct (labelOf i') as [k'|] eqn:Hk'; [|by apply IH].
  apply sortedInsn_isLabel in Hi. unfold isLabel in Hi.
  rewrite Hk, Hk' in Hi. destruct (proj2 Hi); [by eexists|done].
Qed.

Lemma sortedInsn_oneLabel m bb bb' :
  Forall2 (sortedInsn m) (insns bb) (insns bb') ->
  oneLabel bb -> oneLabel bb'.
Proof.
  intros HF [[k Hk] Ht]. unfold oneLabel.
  destruct (insns bb) as [|i l]; [done|]. injection Hk as ->.
  inversion HF as [|? i' ? l' Hsi Hl Heq0 Heq1]. cbn in *.
  destruct Hsi as [k' ->]. split; [by eexists|].
  by eapply sortedInsn_no_labels.
Qed.

Lemma list_find_fst_ext {A B : Type} (P Q : A -> Prop)
      `{!forall x, Decision (P x)} `{!forall x, Decision (Q x)}
      (g : nat * A -> B) (h : nat * A -> B) (l : list A) :
  (forall i x y, g (i, x) = h (i, y)) ->
  Forall (fun x => P x <-> Q x) l ->
  forall k : nat -> nat,
    g <$> (prod_map k id <$> list_find P l) =
    h <$> (prod_map k id <$> list_find Q l).
Proof.
  intros Hg. induction 1 as [|x l Hx _ IH]; intros k; [done|]. cbn.
  destruct (decide (P x)), (decide (Q x)); try tauto.
  - cbn. f_equal. apply Hg.
  - specialize (IH (k ∘ S)).
    destruct (list_find P l) as [[i y]|], (list_find Q l) as [[j z]|];
      cbn in *; congruence.
Qed.

(** On blocks that start with their only label, the label map sends a
label to the number of the first block that carries it. *)
Lemma sortLabelsMap_blockOfLabel fn x :
  (Z.of_nat (countLabels (allInsns (blocks fn))) <= 2 ^ 16)%Z ->
  Forall oneLabel (blocks fn) ->
  sortLabelsMap fn !! x = blockOfLabel fn x.
Proof.
  intros Hb Hone. rewrite sortLabelsMap_first by done.
  rewrite (oneLabel_labelIndices _ Hone). unfold blockOfLabel.
  change (map headIndex (blocks fn)) with (headIndex <$> blocks fn).
  rewrite list_find_fmap, <- option_fmap_compose.
  pose proof (list_find_fst_ext
                (fun bb => x = headIndex bb)
                (fun bb => head (insns bb) = Some (LabelInstruction x))
                (fst ∘ prod_map id headIndex) fst (blocks fn)) as Hext.
  specialize (Hext (fun _ _ _ => eq_refl)).
  assert (Hiff : Forall (fun bb => x = headIndex bb <->
                   head (insns bb) = Some (LabelInstruction x)) (blocks fn)).
  { eapply Forall_impl; [exact Hone|]. intros bb [[k Hk] _]. cbn.
    unfold headIndex. rewrite Hk. split; [by intros ->|congruence]. }
  specialize (Hext Hiff id).
  assert (Hid : forall o : option (nat * BasicBlock),
             prod_map id id <$> o = o).
  { by intros [[? ?]|]. }
  rewrite !Hid in Hext. exact Hext.
Qed.

Lemma sortLabelsPre_oneLabel fn :
  sortLabelsPre fn = true -> labelsAtHeads fn = true ->
  Forall oneLabel (blocks fn).
Proof.
  intros Hpre Hat. apply Forall_lookup. intros b bb Hb. split.
  - by apply (sortLabelsPre_head fn b bb).
  - unfold labelsAtHeads in Hat. rewrite forallb_forall in Hat.
    apply list_elem_of_lookup_2, list_elem_of_In in Hb.
    apply Hat in Hb. by apply bool_decide_eq_true in Hb.
Qed.

(** X19: on a function whose blocks each start with their only label
instruction, [sortLabels] followed by [computeCFG] runs to its end; block
[b] then starts with label [b], which the label table sends to block [b],
and the successors of a block are read off the last instruction it had
before the labels were sorted: a [bra] leads to the first block that
carried the label it named, and to the textually next block as well when
it is predicated; an instruction that is not a branch leads to the next
block, and [ret] to none. *)
Theorem sortLabels_computeCFG (fn : Function) :
  sortLabelsPre fn = true -> labelsAtHeads fn = true ->
  exists fn1 fn2,
    sortLabels fn = Some fn1 /\ computeCFG fn1 = Some fn2 /\
    (forall b bb1, blocks fn1 !! b = Some bb1 ->
                   head (insns bb1) = Some (LABEL b) /\
                   getBlock fn1 b = Some b) /\
    (forall b bb bb2,
        blocks fn !! b = Some bb -> blocks fn2 !! b = Some bb2 ->
        (forall insn, last (insns bb) = Some insn -> isBranch insn = false ->
                      successors bb2 = nextBlockSet fn b) /\
        (forall pred x hp hl,
            last (insns bb) = Some (BranchInstruction OP_BRA pred x hp hl) ->
            exists t, blockOfLabel fn x = Some t /\
                      successors bb2 =
                      {[t]} ∪ (if hp then nextBlockSet fn b else ∅)) /\
        (forall op pred x hp hl,
            last (insns bb) = Some (BranchInstruction op pred x hp hl) ->
            op <> OP_BRA -> successors bb2 = ∅)).
Proof.
  intros Hpre Hat.
  pose proof Hpre as Hpre'. unfold sortLabelsPre in Hpre'.
  apply andb_prop in Hpre' as [Hpre' _].
  apply andb_prop in Hpre' as [H16%bool_decide_eq_true _].
  pose proof (sortLabelsPre_oneLabel fn Hpre Hat) as Hone.
  destruct (sortLabels_run fn Hpre)
    as (fn1 & Hs1 & HF & Hidx & Hlen & Hhead & _).
  pose proof (sortLabels_braNormal fn fn1 Hpre HF) as Hbra.
  set (n := countLabels (allInsns (blocks fn))) in *.
  assert (Hone1 : Forall oneLabel (blocks fn1)).
  { apply Forall_lookup. intros b bb1 Hb1.
    destruct (Forall2_lookup_r _ _ _ _ _ HF Hb1) as (bb & Hb & Hins & _).
    apply (sortedInsn_oneLabel _ bb bb1 Hins).
    by apply (proj1 (Forall_lookup _ _) Hone b). }
  rewrite (oneLabel_labelIndices _ Hone1) in Hidx.
  assert (Hnum1 : blockNum fn1 = n).
  { unfold blockNum. apply (f_equal length) in Hidx.
    by rewrite length_map, length_seq in Hidx. }
  assert (Hnum : blockNum fn = n).
  { rewrite <- Hnum1. unfold blockNum. by eapply Forall2_length. }
  assert (Hheads : forall b bb1, blocks fn1 !! b = Some bb1 ->
                                 head (insns bb1) = Some (LABEL b)).
  { intros b bb1 Hb1.
    destruct (proj1 (Forall_lookup _ _) Hone1 b bb1 Hb1) as [[k Hk] _].
    assert (Hb : map headIndex (blocks fn1) !! b = Some k).
    { change (map headIndex (blocks fn1)) with (headIndex <$> blocks fn1).
      rewrite list_lookup_fmap, Hb1. cbn. unfold headIndex. by rewrite Hk. }
    rewrite Hidx in Hb. apply lookup_seq in Hb as [Hkb _].
    cbn in Hkb. by subst k. }
  assert (Hbol : forall k, k < n -> blockOfLabel fn1 k = Some k).
  { intros k Hk. unfold blockOfLabel.
    destruct (lookup_lt_is_Some_2 (blocks fn1) k) as [bbk Hbk];
      [fold (blockNum fn1); lia|].
    assert (list_find (fun bb => head (insns bb) = Some (LabelInstruction k))
                      (blocks fn1) = Some (k, bbk)) as ->; [|done].
    apply list_find_Some. split_and!; [done|by apply Hheads|].
    intros j bbj Hj Hlt. rewrite (Hheads j bbj Hj). unfold LABEL.
    intros [= ->]. lia. }
  assert (Hsorted : branchTargetsSortedAt fn1).
  { intros b bb1 op pred l hp hl Hb1 Hlast ->.
    apply last_Some_elem_of in Hlast.
    destruct (Hbra b bb1 _ Hb1 Hlast _ _ _ _ _ eq_refl eq_refl) as [Hlt Heq].
    split; [by destruct hp; injection Heq|]. by apply Hbol. }
  destruct (cfgLoop_inv fn1 Hsorted (blockNum fn1) 0
              (clearCFG None 0 (blocks fn1), None))
    as ([bbs j] & Hloop & [Hlen2 Hins Hsucc _ _]);
    [done|apply cfgInv_init|].
  cbn [fst snd] in *.
  exists fn1, (withBlocks fn1 (labels fn1) bbs). split_and!.
  - done.
  - unfold computeCFG. by rewrite Hloop.
  - intros b bb1 Hb1. split; [by apply Hheads|].
    unfold getBlock, labelNum.
    pose proof (lookup_lt_Some _ _ _ Hb1) as Hlt. fold (blockNum fn1) in Hlt.
    rewrite bool_decide_eq_true_2 by lia.
    by rewrite (Hhead b bb1 b Hb1 (Hheads b bb1 Hb1)).
  - cbn [blocks withBlocks]. intros b bb bb2 Hb Hb2.
    pose proof (lookup_lt_Some _ _ _ Hb) as Hlt. fold (blockNum fn) in Hlt.
    destruct (Hins b bb2 Hb2) as (bb1 & Hb1 & Hi).
    destruct (Forall2_lookup_lr _ _ _ _ _ _ HF Hb Hb1) as [Hsi _].
    pose proof (Forall2_last _ _ _ Hsi) as Hl.
    pose proof (Hsucc b bb2 Hb2) as Hs.
    rewrite decide_True in Hs by lia.
    unfold jumpSet, fallsThrough in Hs. rewrite Hi in Hs.
    assert (Hnext : (if bool_decide (S b < blockNum fn1)
                     then ({[S b]} : gset nat) else ∅) = nextBlockSet fn b).
    { rewrite <- nextBlockSet_bool. by rewrite Hnum, Hnum1. }
    split_and!.
    + intros insn Hlast Hnb. rewrite Hlast in Hl.
      inversion Hl as [i i1 Hs1' Heq0 Heq1|]. rewrite <- Heq1 in Hs.
      assert (Hnb1 : isBranch i1 = false).
      { destruct insn; try done; cbn in Hs1'; try (by subst i1).
        by destruct Hs1' as [k ->]. }
      destruct i1; try done; rewrite Hs; cbn [andb];
        rewrite Hnext; clear; set_solver.
    + intros pred x hp hl Hlast. rewrite Hlast in Hl.
      inversion Hl as [i i1 Hs1' Heq0 Heq1|]. rewrite <- Heq1 in Hs.
      cbn in Hs1'. destruct Hs1' as (k & Hk & ->).
      rewrite (sortLabelsMap_blockOfLabel fn x H16 Hone) in Hk.
      exists k. split; [done|]. rewrite Hs.
      destruct hp; cbn; rewrite decide_True by done;
        rewrite (bool_decide_eq_true_2 (OP_BRA = OP_BRA)) by done;
        cbn [andb]; rewrite ?Hnext; clear; set_solver.
    + intros op pred x hp hl Hlast Hop. rewrite Hlast in Hl.
      inversion Hl as [i i1 Hs1' Heq0 Heq1|]. rewrite <- Heq1 in Hs.
      cbn in Hs1'. rewrite decide_False in Hs1' by done. subst i1.
      rewrite decide_False in Hs by done.
      rewrite bool_decide_eq_false_2 in Hs by done. cbn in Hs.
      rewrite Hs. clear. set_solver.
Qed.

Lemma sortLabels_computeCFG_witness :
  exists fn1 fn2, sortLabels demoUnsorted = Some fn1 /\
                  computeCFG fn1 = Some fn2.
Proof.
  destruct (sortLabels_computeCFG demoUnsorted eq_refl eq_refl)
    as (fn1 & fn2 & H1 & H2 & _).
  exists fn1, fn2. split; [exact H1|exact H2].
Defined.

End IR.

(* ===================================================================== *)
(** * backend/gen_insn_scheduling.cpp : the dependency DAG and the list
      scheduler *)
(* ===================================================================== *)

Module Scheduling.

(** ** Registers and selection instructions (gen_register.hpp,
       gen_insn_selection.hpp), the fields the scheduler reads *)

Record GenRegister := {
  value_reg : Z;     (* value.reg, the virtual register *)
  nr : Z;
  subnr : Z;
  physical : bool;
  file : Z
}.

Record GenInstructionState := {
  physicalFlag : bool;
  flag : Z;
  subFlag : Z;
  flagIndex : Z;
  accWrEnable : bool;
  predicate : Z
}.

Record SelectionInstruction := {
  state : GenInstructionState;
  extra_function : Z;          (* extra.function *)
  opcode : Z;
  dst : list GenRegister;      (* regs[0 .. dstNum) *)
  src : list GenRegister       (* regs[dstNum .. dstNum + srcNum) *)
}.

(** Of backend/gen_defs.hpp, backend/gen_insn_selection.{hxx,cpp} and
gen_insn_gen7_schedule_info.hxx, which are not part of the sources: the
encodings the scheduler compares against, the four predicates of
[SelectionInstruction], and the latency and throughput tables the two
[static] functions expand. *)
Class GenDefs := {
  GEN_ARCHITECTURE_REGISTER_FILE : Z;
  GEN_GENERAL_REGISTER_FILE : Z;
  GEN_IMMEDIATE_VALUE : Z;
  GEN_ARF_NULL : Z;
  GEN_ARF_FLAG : Z;
  GEN_ARF_ACCUMULATOR : Z;
  GEN_PREDICATE_NONE : Z;
  SEL_OP_CMP : Z;
  SEL_OP_BARRIER : Z;
  SEL_OP_WAIT : Z;
  SEL_OP_EOT : Z;
  isRead : SelectionInstruction -> bool;
  isWrite : SelectionInstruction -> bool;
  isBranch : SelectionInstruction -> bool;
  isLabel : SelectionInstruction -> bool;
  getLatencyGen7 : SelectionInstruction -> Z;
  getThroughputGen7 : SelectionInstruction -> bool -> Z
}.

(** What the scheduler asks of [GenContext] and [Selection]:
[ctx.getSimdWidth()], [ctx.ra->genReg(reg)], [selection.getRegNum()]. *)
Class GenContext := {
  getSimdWidth : Z;
  genReg : GenRegister -> GenRegister;
  getRegNum : Z
}.

Inductive SchedulePolicy := PRE_ALLOC | POST_ALLOC.

#[global] Instance SchedulePolicy_eq_dec : EqDecision SchedulePolicy.
Proof. solve_decision. Defined.

(** [enum GenMemory] *)
Definition GLOBAL_MEMORY : Z := 0.
Definition LOCAL_MEMORY : Z := 1.

Definition MAX_FLAG_REGISTER : Z := 8.
Definition MAX_ACC_REGISTER : Z := 1.

(** [ScheduleDAGNode]. A [ScheduleListNode] only carries the node it
points to, so a list of them is the list of the nodes they name; a node is
named by the position of its instruction in the block. *)
Record ScheduleDAGNode := {
  insn : SelectionInstruction;
  children : list nat;
  refNum : Z;
  retiredCycle : Z
}.

(** The scheduler together with its tracker: the node pool (which is
[tracker.insnNodes]), [tracker.nodes] (the last writer of each resource),
and the two lists. *)
Record Scheduler := {
  insnNodes : list ScheduleDAGNode;
  trackerNodes : gmap Z nat;
  ready : list nat;
  active : list nat
}.

(** Sequencing of the statements of a loop body. *)
Definition seqT (f g : Scheduler -> Scheduler) : Scheduler -> Scheduler :=
  fun s => g (f s).
Definition whenT (c : bool) (f : Scheduler -> Scheduler)
  : Scheduler -> Scheduler :=
  fun s => if c then f s else s.
Definition forT {A : Type} (l : list A) (f : A -> Scheduler -> Scheduler)
  : Scheduler -> Scheduler :=
  fun s => fold_left (fun s x => f x s) l s.

Notation "f >>> g" := (seqT f g) (at level 61, left associativity).

Section Tracker.
Context {defs : GenDefs} {ctx : GenContext}.
Variable policy : SchedulePolicy.

(** [GenRegister::flag], [GenRegister::uw1grf(ir::Register)] and
[GenRegister::acc]; [nr] and [subnr] are 8-bit fields, [value.reg] a
16-bit one, and a [uint16_t] is two bytes. *)
Definition GenRegister_flag (nr subnr : Z) : GenRegister :=
  {| value_reg := 0;
     nr := Z.lor GEN_ARF_FLAG nr mod 2 ^ 8;
     subnr := (subnr * 2) mod 2 ^ 8;
     physical := true;
     file := GEN_ARCHITECTURE_REGISTER_FILE |}.

Definition GenRegister_uw1grf (reg : Z) : GenRegister :=
  {| value_reg := wrap16 reg;
     nr := 0;
     subnr := 0;
     physical := false;
     file := GEN_GENERAL_REGISTER_FILE |}.

Definition GenRegister_acc : GenRegister :=
  {| value_reg := 0;
     nr := GEN_ARF_ACCUMULATOR mod 2 ^ 8;
     subnr := 0;
     physical := true;
     file := GEN_ARCHITECTURE_REGISTER_FILE |}.

(** [DependencyTracker::DependencyTracker]: the number of general slots. *)
Definition grfNum : Z :=
  match policy with
  | PRE_ALLOC => wrap32 getRegNum
  | POST_ALLOC => if decide (getSimdWidth = 8) then 128 else 64
  end.


(** [DependencyTracker::ignoreDependency] *)
Definition ignoreDependency (reg : GenRegister) : bool :=
  if decide (file reg = GEN_IMMEDIATE_VALUE) then true
  else if decide (file reg = GEN_ARCHITECTURE_REGISTER_FILE) then
    bool_decide (Z.land (nr reg) 240 = GEN_ARF_NULL)
  else false.

(** [getFlag] *)
Definition getFlag (insn : SelectionInstruction) : GenRegister :=
  if physicalFlag (state insn) then
    GenRegister_flag (flag (state insn)) (subFlag (state insn))
  else GenRegister_uw1grf (flagIndex (state insn)).

(** [DependencyTracker::getIndex(GenRegister)]; its assertions are checks
of the debug build and are not part of the value. *)
Definition getIndex (reg : GenRegister) : Z :=
  if physical reg then
    let file := Z.land (nr reg) 240 in
    let nr := Z.land (nr reg) 15 in
    if decide (file = GEN_ARF_FLAG) then
      let subnr := subnr reg / 2 in
      wrap32 (grfNum + 2 * nr + subnr)
    else if decide (file = GEN_ARF_ACCUMULATOR) then
      wrap32 (grfNum + MAX_FLAG_REGISTER + nr)
    else 0
  else if decide (policy = POST_ALLOC) then
    let physical := genReg reg in
    if decide (getSimdWidth = 8) then nr physical else nr physical / 2
  else value_reg reg.

(** [DependencyTracker::getIndex(uint32_t bti)] *)
Definition getIndexBti (bti : Z) : Z :=
  let memDelta := wrap32 (grfNum + MAX_FLAG_REGISTER + MAX_ACC_REGISTER) in
  if decide (bti = 254) then wrap32 (memDelta + LOCAL_MEMORY)
  else wrap32 (memDelta + GLOBAL_MEMORY).

(** [ScheduleDAGNode::dependsOn], called on [this] with argument [node]:
the loop compares every child with [this]. *)
Definition dependsOn (s : Scheduler) (this node : nat) : bool :=
  match insnNodes s !! this with
  | Some nd => existsb (fun child => bool_decide (child = this)) (children nd)
  | None => false
  end.

Definition incrRefNum (nd : ScheduleDAGNode) : ScheduleDAGNode :=
  {| insn := insn nd; children := children nd;
     refNum := wrap32 (refNum nd + 1); retiredCycle := retiredCycle nd |}.

Definition pushChild (child : nat) (nd : ScheduleDAGNode) : ScheduleDAGNode :=
  {| insn := insn nd; children := children nd ++ [child];
     refNum := refNum nd; retiredCycle := retiredCycle nd |}.

Definition withInsnNodes (s : Scheduler) (nds : list ScheduleDAGNode)
  : Scheduler :=
  {| insnNodes := nds; trackerNodes := trackerNodes s;
     ready := ready s; active := active s |}.

(** [addDependency(ScheduleDAGNode *node0, ScheduleDAGNode *node1)]:
"node0 depends on node1". *)
Definition addDependency (node0 node1 : option nat) (s : Scheduler)
  : Scheduler :=
  match node0, node1 with
  | Some n0, Some n1 =>
      if bool_decide (n0 <> n1) && negb (dependsOn s n0 n1) then
        withInsnNodes s
          (alter (pushChild n0) n1 (alter incrRefNum n0 (insnNodes s)))
      else s
  | _, _ => s
  end.

(** [addDependency(node, index)] and [addDependency(index, node)] *)
Definition addDependencyNodeIndex (node : nat) (index : Z) (s : Scheduler)
  : Scheduler :=
  addDependency (Some node) (trackerNodes s !! index) s.

Definition addDependencyIndexNode (index : Z) (node : nat) (s : Scheduler)
  : Scheduler :=
  addDependency (trackerNodes s !! index) (Some node) s.

(** [addDependency(node0, reg)] and [addDependency(reg, node0)] *)
Definition addDependencyNodeReg (node0 : nat) (reg : GenRegister)
           (s : Scheduler) : Scheduler :=
  if ignoreDependency reg then s
  else addDependencyNodeIndex node0 (getIndex reg) s.

Definition addDependencyRegNode (reg : GenRegister) (node0 : nat)
           (s : Scheduler) : Scheduler :=
  if ignoreDependency reg then s
  else addDependencyIndexNode (getIndex reg) node0 s.

(** [DependencyTracker::makeBarrier] *)
Definition makeBarrier (barrierID insnNum : nat) : Scheduler -> Scheduler :=
  forT (seq 0 barrierID)
       (fun insnID => addDependency (Some barrierID) (Some insnID)) >>>
  forT (seq (S barrierID) (insnNum - S barrierID))
       (fun insnID => addDependency (Some insnID) (Some barrierID)).

Definition setTracker (index : Z) (node : nat) (s : Scheduler) : Scheduler :=
  {| insnNodes := insnNodes s;
     trackerNodes := <[index := node]> (trackerNodes s);
     ready := ready s; active := active s |}.

Definition isBarrierOrWait (insn : SelectionInstruction) : bool :=
  bool_decide (opcode insn = SEL_OP_BARRIER) ||
  bool_decide (opcode insn = SEL_OP_WAIT).

(** [DependencyTracker::updateWrites] *)
Definition updateWrites (node : nat) (insn : SelectionInstruction)
  : Scheduler -> Scheduler :=
  forT (dst insn)
       (fun dst => whenT (negb (ignoreDependency dst))
                         (setTracker (getIndex dst) node)) >>>
  whenT (bool_decide (opcode insn = SEL_OP_CMP))
        (setTracker (getIndex (getFlag insn)) node) >>>
  whenT (accWrEnable (state insn))
        (setTracker (getIndex GenRegister_acc) node) >>>
  whenT (isWrite insn)
        (setTracker (getIndexBti (extra_function insn)) node) >>>
  whenT (isBarrierOrWait insn)
        (setTracker (getIndexBti 0) node >>>
         setTracker (getIndexBti 254) node).

(** [tracker.clear()] and [clearLists()] *)
Definition trackerClear (s : Scheduler) : Scheduler :=
  {| insnNodes := insnNodes s; trackerNodes := ∅;
     ready := ready s; active := active s |}.

Definition clearLists (s : Scheduler) : Scheduler :=
  {| insnNodes := insnNodes s; trackerNodes := trackerNodes s;
     ready := []; active := [] |}.

(** [newScheduleDAGNode(insn)] stored in [insnNodes[insnNum++]]. *)
Definition newScheduleDAGNode (insn : SelectionInstruction) (s : Scheduler)
  : Scheduler :=
  withInsnNodes s
    (insnNodes s ++ [ {| insn := insn; children := [];
                         refNum := 0; retiredCycle := 0 |} ]).

(** Body of the first loop of [buildDAG] for the instruction that gets
node [node]. *)
Definition forwardInsn (node : nat) (insn : SelectionInstruction)
  : Scheduler -> Scheduler :=
  newScheduleDAGNode insn >>>
  forT (src insn) (addDependencyNodeReg node) >>>
  whenT (negb (bool_decide (predicate (state insn) = GEN_PREDICATE_NONE)))
        (addDependencyNodeReg node (getFlag insn)) >>>
  whenT (isRead insn)
        (addDependencyNodeIndex node (getIndexBti (extra_function insn))) >>>
  whenT (isBarrierOrWait insn)
        (addDependencyNodeIndex node (getIndexBti 254) >>>
         addDependencyNodeIndex node (getIndexBti 0)) >>>
  forT (dst insn) (addDependencyNodeReg node) >>>
  whenT (bool_decide (opcode insn = SEL_OP_CMP))
        (addDependencyNodeReg node (getFlag insn)) >>>
  whenT (accWrEnable (state insn))
        (addDependencyNodeReg node GenRegister_acc) >>>
  whenT (isWrite insn)
        (addDependencyNodeIndex node (getIndexBti (extra_function insn))) >>>
  whenT (isBarrierOrWait insn)
        (addDependencyNodeIndex node (getIndexBti 254) >>>
         addDependencyNodeIndex node (getIndexBti 0)) >>>
  updateWrites node insn.

(** Body of the second loop (write after read), for node [node]. *)
Definition backwardInsn (node : nat) (insn : SelectionInstruction)
  : Scheduler -> Scheduler :=
  forT (src insn) (fun r => addDependencyRegNode r node) >>>
  whenT (negb (bool_decide (predicate (state insn) = GEN_PREDICATE_NONE)))
        (addDependencyRegNode (getFlag insn) node) >>>
  whenT (isRead insn)
        (addDependencyIndexNode (getIndexBti (extra_function insn)) node) >>>
  whenT (isBarrierOrWait insn)
        (addDependencyIndexNode (getIndexBti 254) node >>>
         addDependencyIndexNode (getIndexBti 0) node) >>>
  updateWrites node insn.

Definition isBarrierInsn (insn : SelectionInstruction) : bool :=
  isBranch insn || isLabel insn || bool_decide (opcode insn = SEL_OP_EOT).

(** The node of an instruction and its instruction, read from the pool. *)
Definition insnOf (s : Scheduler) (insnID : nat) : option SelectionInstruction :=
  insn <$> insnNodes s !! insnID.

Definition backwardPass (insnNum : nat) : Scheduler -> Scheduler :=
  forT (reverse (seq 0 insnNum))
       (fun insnID s => match insnOf s insnID with
                        | Some i => backwardInsn insnID i s
                        | None => s
                        end).

Definition barrierPass (insnNum : nat) : Scheduler -> Scheduler :=
  forT (seq 0 insnNum)
       (fun insnID s => match insnOf s insnID with
                        | Some i => whenT (isBarrierInsn i)
                                          (makeBarrier insnID insnNum) s
                        | None => s
                        end).

Definition pushReady (node : nat) (s : Scheduler) : Scheduler :=
  {| insnNodes := insnNodes s; trackerNodes := trackerNodes s;
     ready := ready s ++ [node]; active := active s |}.

Definition readyPass (insnNum : nat) : Scheduler -> Scheduler :=
  forT (seq 0 insnNum)
       (fun insnID s => match insnNodes s !! insnID with
                        | Some nd => whenT (bool_decide (refNum nd = 0))
                                           (pushReady insnID) s
                        | None => s
                        end).

Definition emptyScheduler : Scheduler :=
  {| insnNodes := []; trackerNodes := ∅; ready := []; active := [] |}.

(** First loop of [buildDAG], the instructions numbered from [first]. *)
Fixpoint forwardPass (first : nat) (bb : list SelectionInstruction)
  : Scheduler -> Scheduler :=
  match bb with
  | [] => fun s => s
  | insn :: bb' => forwardInsn first insn >>> forwardPass (S first) bb'
  end.

(** [SelectionScheduler::buildDAG]: the scheduler it leaves; the value it
returns, [insnNum], is the length of the block. The pools are rewound and
the tracker and the lists cleared on entry, so the result does not depend on
the scheduler it is called on. *)
Definition buildDAG (bb : list SelectionInstruction) : Scheduler :=
  (forwardPass 0 bb >>>
   trackerClear >>>
   backwardPass (length bb) >>>
   barrierPass (length bb) >>>
   readyPass (length bb)) emptyScheduler.

End Tracker.

(** ** [SelectionScheduler::scheduleDAG] *)

(** The variables of [scheduleDAG] and the block it appends to; the
instructions appended to [bb] are named by their position in the block the
DAG was built from. [insnNum] is the [int32_t] that [buildDAG] returned; the
loop only decrements it, down to zero. *)
Record BlockSched := {
  scheduler : Scheduler;
  cycle : Z;
  insnNum : Z;
  insnList : list nat
}.

Section ScheduleDAG.
Context {defs : GenDefs} {ctx : GenContext}.
Variable policy : SchedulePolicy.

Definition decrRefNum (nd : ScheduleDAGNode) : ScheduleDAGNode :=
  {| insn := insn nd; children := children nd;
     refNum := wrap32 (refNum nd - 1); retiredCycle := retiredCycle nd |}.

Definition setChildren (cs : list nat) (nd : ScheduleDAGNode)
  : ScheduleDAGNode :=
  {| insn := insn nd; children := cs;
     refNum := refNum nd; retiredCycle := retiredCycle nd |}.

Definition setRetiredCycle (c : Z) (nd : ScheduleDAGNode) : ScheduleDAGNode :=
  {| insn := insn nd; children := children nd;
     refNum := refNum nd; retiredCycle := c |}.

Definition withActive (s : Scheduler) (act : list nat) : Scheduler :=
  {| insnNodes := insnNodes s; trackerNodes := trackerNodes s;
     ready := ready s; active := act |}.

(** The traversal of the children of a retired node: each child's [refNum]
is decremented; a child that reaches zero leaves the list for the back of
the ready list. Returns the children that stay. *)
Fixpoint releaseChildren (cs : list nat) (s : Scheduler)
  : list nat * Scheduler :=
  match cs with
  | [] => ([], s)
  | c :: cs' =>
      let s1 := withInsnNodes s (alter decrRefNum c (insnNodes s)) in
      if bool_decide (refNum <$> insnNodes s1 !! c = Some 0) then
        releaseChildren cs' (pushReady c s1)
      else
        let '(rest, s2) := releaseChildren cs' s1 in (c :: rest, s2)
  end.

(** The loop over the active list: returns the nodes that stay active. *)
Fixpoint retireActive (cycle : Z) (act : list nat) (s : Scheduler)
  : list nat * Scheduler :=
  match act with
  | [] => ([], s)
  | toRetire :: act' =>
      match insnNodes s !! toRetire with
      | Some nd =>
          if bool_decide (retiredCycle nd <= cycle) then
            let '(rest, s1) := releaseChildren (children nd) s in
            retireActive cycle act'
              (withInsnNodes s1
                 (alter (setChildren rest) toRetire (insnNodes s1)))
          else
            let '(kept, s') := retireActive cycle act' s in
            (toRetire :: kept, s')
      | None =>
          let '(kept, s') := retireActive cycle act' s in
          (toRetire :: kept, s')
      end
  end.

(** First half of an iteration: "retire all the instructions that
finished". *)
Definition retirePhase (st : BlockSched) : BlockSched :=
  let '(kept, s) :=
    retireActive (cycle st) (active (scheduler st)) (scheduler st) in
  {| scheduler := withActive s kept;
     cycle := cycle st; insnNum := insnNum st; insnList := insnList st |}.

(** [ready.begin()] for the FIFO policy, [ready.rbegin()] for the LIFO
one, with the list that is left once it is erased; [None] is
[ready.end()]. *)
Definition toSchedule (rdy : list nat) : option (nat * list nat) :=
  match policy with
  | POST_ALLOC => match rdy with
                  | n :: rdy' => Some (n, rdy')
                  | [] => None
                  end
  | PRE_ALLOC => match last rdy with
                 | Some n => Some (n, removelast rdy)
                 | None => None
                 end
  end.

(** Second half of an iteration: "try to schedule something from the ready
list". *)
Definition issuePhase (st : BlockSched) : BlockSched :=
  let s := scheduler st in
  let isSIMD8 := bool_decide (getSimdWidth = 8) in
  match toSchedule (ready s) with
  | Some (n, rdy') =>
      match insnNodes s !! n with
      | Some nd =>
          let cycle1 :=
            if decide (policy = POST_ALLOC)
            then wrap32 (cycle st + getThroughputGen7 (insn nd) isSIMD8)
            else cycle st in
          let retired :=
            if decide (policy = POST_ALLOC)
            then wrap32 (cycle1 + getLatencyGen7 (insn nd))
            else cycle1 in
          {| scheduler :=
               {| insnNodes := alter (setRetiredCycle retired) n (insnNodes s);
                  trackerNodes := trackerNodes s;
                  ready := rdy';
                  active := active s ++ [n] |};
             cycle := cycle1;
             insnNum := insnNum st - 1;
             insnList := insnList st ++ [n] |}
      | None => st
      end
  | None =>
      {| scheduler := s; cycle := wrap32 (cycle st + 1);
         insnNum := insnNum st; insnList := insnList st |}
  end.

(** One iteration of [while (insnNum)]. *)
Definition scheduleStep (st : BlockSched) : BlockSched :=
  issuePhase (retirePhase st).

(** The loop, with a bound on the number of iterations: [None] when the
bound is reached before [insnNum] is zero. *)
Fixpoint scheduleLoop (fuel : nat) (st : BlockSched) : option BlockSched :=
  if decide (insnNum st = 0) then Some st
  else match fuel with
       | O => None
       | S fuel' => scheduleLoop fuel' (scheduleStep st)
       end.

(** [buildDAG(bb)], [bb.insnList.clear()] and [scheduleDAG(bb, insnNum)],
as [schedulePreRegAllocation] and [schedulePostRegAllocation] chain them
for one block. *)
Definition scheduleStart (bb : list SelectionInstruction) : BlockSched :=
  {| scheduler := buildDAG policy bb;
     cycle := 0;
     insnNum := Z.of_nat (length bb);
     insnList := [] |}.

Definition scheduleBlock (fuel : nat) (bb : list SelectionInstruction)
  : option (list nat) :=
  insnList <$> scheduleLoop fuel (scheduleStart bb).

End ScheduleDAG.

(** ** A concrete instance, for running the model *)

(** Encodings in the style of gen_defs.hpp and an opcode numbering: 0 label,
1 add (ALU), 2 cmp, 3 untyped read, 4 untyped write, 5 jump, 6 barrier,
7 wait, 8 end of thread. Every ALU instruction is given latency 10 and
throughput 2 (SIMD8) or 4 (SIMD16), memory accesses latency 80. *)
#[local] Instance demoDefs : GenDefs := {|
  GEN_ARCHITECTURE_REGISTER_FILE := 0;
  GEN_GENERAL_REGISTER_FILE := 1;
  GEN_IMMEDIATE_VALUE := 3;
  GEN_ARF_NULL := 0;
  GEN_ARF_FLAG := 16;
  GEN_ARF_ACCUMULATOR := 32;
  GEN_PREDICATE_NONE := 0;
  SEL_OP_CMP := 2;
  SEL_OP_BARRIER := 6;
  SEL_OP_WAIT := 7;
  SEL_OP_EOT := 8;
  isRead := fun i => bool_decide (opcode i = 3);
  isWrite := fun i => bool_decide (opcode i = 4);
  isBranch := fun i => bool_decide (opcode i = 5);
  isLabel := fun i => bool_decide (opcode i = 0);
  getLatencyGen7 :=
    fun i => if bool_decide (opcode i = 3) || bool_decide (opcode i = 4)
             then 80 else 10;
  getThroughputGen7 := fun i isSIMD8 => if isSIMD8 then 2 else 4
|}.

(** A SIMD16 context whose allocator puts virtual register [r] in GRF
[2 r + 10]. *)
#[local] Instance demoCtx : GenContext := {|
  getSimdWidth := 16;
  genReg := fun r => {| value_reg := value_reg r;
                        nr := 2 * value_reg r + 10;
                        subnr := 0; physical := true; file := 1 |};
  getRegNum := 8
|}.

Definition demoState (pred : Z) : GenInstructionState :=
  {| physicalFlag := true; flag := 0; subFlag := 0; flagIndex := 0;
     accWrEnable := false; predicate := pred |}.

Definition grf (r : Z) : GenRegister :=
  {| value_reg := r; nr := 0; subnr := 0; physical := false; file := 1 |}.

Definition demoInsn (op : Z) (pred : Z) (d s : list Z) : SelectionInstruction :=
  {| state := demoState pred; extra_function := 0; opcode := op;
     dst := map grf d; src := map grf s |}.

(** [label L0; add r2 = r0 + r1; cmp f0 = r4, r4; store *r3 = r2;
(f0) jump L0] *)
Definition demoBB : list SelectionInstruction :=
  [ demoInsn 0 0 [] [];
    demoInsn 1 0 [2] [0; 1];
    demoInsn 2 0 [] [4; 4];
    demoInsn 4 0 [] [3; 2];
    demoInsn 5 1 [] [] ].

(** ** The resource index of a register, and the choice of the next
       instruction *)

Section Policies.
Context {defs : GenDefs} {ctx : GenContext}.

(** C7: for a register that is not a physical (architecture) register, the
post-allocation resource index is the number of the GRF the allocator gave
it at SIMD8 and half that number at SIMD16, with 128 respectively 64
general slots, so two registers whose GRF numbers fall in the same granule
get the same index whatever their sub-register offsets; before allocation
the index is the virtual register number. *)
Theorem getIndex_grf (reg : GenRegister) :
  physical reg = false ->
  (getSimdWidth = 8 ->
   getIndex POST_ALLOC reg = nr (genReg reg) /\ grfNum POST_ALLOC = 128) /\
  (getSimdWidth = 16 ->
   getIndex POST_ALLOC reg = nr (genReg reg) / 2 /\ grfNum POST_ALLOC = 64) /\
  (forall reg',
      physical reg' = false ->
      (if decide (getSimdWidth = 8)
       then nr (genReg reg) = nr (genReg reg')
       else nr (genReg reg) / 2 = nr (genReg reg') / 2) ->
      getIndex POST_ALLOC reg = getIndex POST_ALLOC reg') /\
  getIndex PRE_ALLOC reg = value_reg reg.
Proof.
  intros Hphys. unfold getIndex, grfNum. rewrite Hphys. cbn.
  split_and!.
  - intros ->. done.
  - intros ->. done.
  - intros reg' ->. by case_decide.
  - done.
Qed.

(** C4: in an iteration of [scheduleDAG] whose ready list is not empty once
the finished instructions are retired, the pre-allocation policy takes the
last element of the ready list (the most recently added one), leaves the
clock where it is and retires the instruction at the current cycle; the
post-allocation policy takes the first element (the oldest), advances the
clock by the instruction's throughput, and retires it at the advanced clock
plus the instruction's latency. Clock arithmetic is that of [uint32_t]. *)
Theorem scheduleStep_policy :
  (forall st rdy n nd,
      ready (scheduler (retirePhase st)) = rdy ++ [n] ->
      insnNodes (scheduler (retirePhase st)) !! n = Some nd ->
      let st' := scheduleStep PRE_ALLOC st in
      insnList st' = insnList st ++ [n] /\
      ready (scheduler st') = rdy /\
      active (scheduler st') =
        active (scheduler (retirePhase st)) ++ [n] /\
      cycle st' = cycle st /\
      retiredCycle <$> insnNodes (scheduler st') !! n = Some (cycle st) /\
      insnNum st' = insnNum st - 1) /\
  (forall st rdy n nd,
      ready (scheduler (retirePhase st)) = n :: rdy ->
      insnNodes (scheduler (retirePhase st)) !! n = Some nd ->
      let st' := scheduleStep POST_ALLOC st in
      insnList st' = insnList st ++ [n] /\
      ready (scheduler st') = rdy /\
      active (scheduler st') =
        active (scheduler (retirePhase st)) ++ [n] /\
      cycle st' =
        wrap32 (cycle st +
                getThroughputGen7 (insn nd) (bool_decide (getSimdWidth = 8))) /\
      retiredCycle <$> insnNodes (scheduler st') !! n =
        Some (wrap32 (cycle st' + getLatencyGen7 (insn nd))) /\
      insnNum st' = insnNum st - 1).
Proof.
  assert (Hkeep : forall st,
             cycle (retirePhase st) = cycle st /\
             insnNum (retirePhase st) = insnNum st /\
             insnList (retirePhase st) = insnList st).
  { intros st. unfold retirePhase. by destruct (retireActive _ _ _). }
  split; intros st rdy n nd Hrdy Hn; unfold scheduleStep;
    destruct (Hkeep st) as (Hc1 & Hn1 & Hl1);
    unfold issuePhase, toSchedule; rewrite Hrdy.
  - rewrite last_snoc, removelast_last, Hn. cbn.
    rewrite list_lookup_alter_eq, Hn. cbn. by rewrite Hc1, Hn1, Hl1.
  - rewrite Hn. cbn. rewrite list_lookup_alter_eq, Hn. cbn.
    by rewrite Hc1, Hn1, Hl1.
Qed.

End Policies.

Lemma getIndex_grf_witness :
  getIndex POST_ALLOC (grf 3) = 8 /\ getIndex PRE_ALLOC (grf 3) = 3.
Proof.
  destruct (getIndex_grf (grf 3) eq_refl) as (_ & H16 & _ & Hpre).
  split.
  - destruct (H16 eq_refl) as [-> _]. reflexivity.
  - rewrite Hpre. reflexivity.
Defined.

Lemma scheduleStep_policy_witness :
  (let st := scheduleStep PRE_ALLOC (scheduleStart PRE_ALLOC demoBB) in
   ready (scheduler (retirePhase st)) = [1; 2]%nat /\
   insnList (scheduleStep PRE_ALLOC st) = [0; 2]%nat /\
   ready (scheduler (scheduleStep PRE_ALLOC st)) = [1]%nat /\
   cycle st = 0 /\
   cycle (scheduleStep PRE_ALLOC st) = 0 /\
   retiredCycle <$> insnNodes (scheduler (scheduleStep PRE_ALLOC st)) !! 2%nat
   = Some 0) /\
  (let st := Nat.iter 11 (scheduleStep POST_ALLOC)
                      (scheduleStart POST_ALLOC demoBB) in
   ready (scheduler (retirePhase st)) = [1; 2]%nat /\
   insnList (scheduleStep POST_ALLOC st) = [0; 1]%nat /\
   ready (scheduler (scheduleStep POST_ALLOC st)) = [2]%nat /\
   cycle st = 14 /\
   cycle (scheduleStep POST_ALLOC st) = 18 /\
   retiredCycle <$> insnNodes (scheduler (scheduleStep POST_ALLOC st)) !! 1%nat
   = Some 28).
Proof.
  split; cbn zeta.
  - set (st := scheduleStep PRE_ALLOC (scheduleStart PRE_ALLOC demoBB)).
    assert (Hr : ready (scheduler (retirePhase st)) = [1%nat] ++ [2%nat])
      by (vm_compute; reflexivity).
    assert (Hn : insnNodes (scheduler (retirePhase st)) !! 2%nat
                 = Some {| insn := demoInsn 2 0 [] [4; 4];
                           children := [4; 4]%nat;
                           refNum := 0; retiredCycle := 0 |})
      by (vm_compute; reflexivity).
    assert (Hl0 : insnList st = [0%nat]) by (vm_compute; reflexivity).
    assert (Hc0 : cycle st = 0) by (vm_compute; reflexivity).
    destruct (proj1 scheduleStep_policy st [1%nat] 2%nat _ Hr Hn)
      as (Hl & Hrd & _ & Hc & Hrc & _).
    rewrite Hl0 in Hl. rewrite Hc0 in Hc, Hrc.
    split; [exact Hr|]. split; [exact Hl|]. split; [exact Hrd|].
    split; [exact Hc0|]. split; [exact Hc|exact Hrc].
  - set (st := Nat.iter 11 (scheduleStep POST_ALLOC)
                        (scheduleStart POST_ALLOC demoBB)).
    assert (Hr : ready (scheduler (retirePhase st)) = 1%nat :: [2%nat])
      by (vm_compute; reflexivity).
    assert (Hn : insnNodes (scheduler (retirePhase st)) !! 1%nat
                 = Some {| insn := demoInsn 1 0 [2] [0; 1];
                           children := [3; 4]%nat;
                           refNum := 0; retiredCycle := 0 |})
      by (vm_compute; reflexivity).
    assert (Hl0 : insnList st = [0%nat]) by (vm_compute; reflexivity).
    assert (Hc0 : cycle st = 14) by (vm_compute; reflexivity).
    destruct (proj2 scheduleStep_policy st [2%nat] 1%nat _ Hr Hn)
      as (Hl & Hrd & _ & Hc & Hrc & _).
    rewrite Hl0 in Hl. rewrite Hc0 in Hc. rewrite Hc in Hrc.
    split; [exact Hr|]. split; [exact Hl|]. split; [exact Hrd|].
    split; [exact Hc0|]. split; [exact Hc|exact Hrc].
Defined.

(** ** The dependency DAG that [buildDAG] leaves *)

(** Number of occurrences of [c] in the lists [ls]. *)
Definition occ (c : nat) (ls : list (list nat)) : nat :=
  count_occ Nat.eq_dec (concat ls) c.

(** The children lists of the nodes, and the number of dependency edges
(with repetitions) that end in node [c]. *)
Definition childrenOf (nds : list ScheduleDAGNode) : list (list nat) :=
  children <$> nds.

Definition indegree (nds : list ScheduleDAGNode) (c : nat) : nat :=
  occ c (childrenOf nds).

(** "[c] depends on [p]": [c] is among the children of [p]. *)
Definition hasEdge (s : Scheduler) (p c : nat) : Prop :=
  exists nd, insnNodes s !! p = Some nd /\ c ∈ children nd.

Definition edgesForward (nds : list ScheduleDAGNode) : Prop :=
  forall p nd c, nds !! p = Some nd -> c ∈ children nd ->
                 (p < c < length nds)%nat.

Definition refNumsCount (nds : list ScheduleDAGNode) : Prop :=
  forall c nd, nds !! c = Some nd ->
               refNum nd = wrap32 (Z.of_nat (indegree nds c)).

Lemma occ_cons c l ls :
  occ c (l :: ls) = (count_occ Nat.eq_dec l c + occ c ls)%nat.
Proof. unfold occ. cbn. apply count_occ_app. Qed.

Lemma occ_insert c ls i l l' :
  ls !! i = Some l ->
  (occ c (<[i := l']> ls) + count_occ Nat.eq_dec l c =
   occ c ls + count_occ Nat.eq_dec l' c)%nat.
Proof.
  revert i. induction ls as [|l0 ls IH]; intros i Hi; [done|].
  destruct i as [|i]; cbn -[occ] in *.
  - injection Hi as ->. rewrite !occ_cons. lia.
  - rewrite !occ_cons. specialize (IH i Hi).
    rewrite <- !Nat.add_assoc. f_equal. exact IH.
Qed.

Lemma occ_zero c ls : (forall l, l ∈ ls -> c ∉ l) -> occ c ls = 0%nat.
Proof.
  induction ls as [|l ls IH]; intros H; [done|].
  rewrite occ_cons, IH.
  - rewrite (proj1 (count_occ_not_In Nat.eq_dec l c)); [done|].
    rewrite <- list_elem_of_In. apply H. left.
  - intros l' Hl'. apply H. by right.
Qed.

Lemma occ_zero_inv c ls l : occ c ls = 0%nat -> l ∈ ls -> c ∉ l.
Proof.
  induction ls as [|l0 ls IH]; intros H Hl; [by inversion Hl|].
  rewrite occ_cons in H. apply elem_of_cons in Hl as [->|Hl].
  - rewrite list_elem_of_In. apply (count_occ_not_In Nat.eq_dec). lia.
  - apply IH; [lia|done].
Qed.

Lemma count_occ_elem_of (l : list nat) c :
  c ∈ l <-> (0 < count_occ Nat.eq_dec l c)%nat.
Proof. rewrite list_elem_of_In. apply count_occ_In. Qed.

Section DagBuild.
Context {defs : GenDefs} {ctx : GenContext}.
Variable policy : SchedulePolicy.
Variable bb : list SelectionInstruction.

(** What holds of the node pool all along [buildDAG]: every edge goes from
an earlier instruction to a later one, every [refNum] counts (modulo 2^32)
the edges that end in its node, and node [i] wraps instruction [i]. *)
Record DagInv (s : Scheduler) : Prop := {
  dag_edges : edgesForward (insnNodes s);
  dag_refs : refNumsCount (insnNodes s);
  dag_insns : map insn (insnNodes s) = take (length (insnNodes s)) bb
}.

Lemma childrenOf_alter_same f i nds :
  (forall nd, children (f nd) = children nd) ->
  childrenOf (alter f i nds) = childrenOf nds.
Proof.
  intros Hf. unfold childrenOf. apply list_eq. intros j.
  rewrite !list_lookup_fmap, list_lookup_alter.
  case_decide; subst; destruct (nds !! _); cbn; rewrite ?Hf; done.
Qed.

Lemma childrenOf_alter_push n0 n1 nds nd1 :
  nds !! n1 = Some nd1 ->
  childrenOf (alter (pushChild n0) n1 nds) =
  <[n1 := children nd1 ++ [n0]]> (childrenOf nds).
Proof.
  intros H1. unfold childrenOf. apply list_eq. intros j.
  rewrite list_lookup_fmap, list_lookup_alter.
  destruct (decide (n1 = j)) as [->|Hne].
  - rewrite list_lookup_insert_eq; [by rewrite H1|].
    rewrite length_fmap. by eapply lookup_lt_Some.
  - rewrite list_lookup_insert_ne by done. by rewrite list_lookup_fmap.
Qed.

Lemma map_insn_alter f i nds :
  (forall nd, insn (f nd) = insn nd) ->
  map insn (alter f i nds) = map insn nds.
Proof.
  intros Hf. apply list_eq. intros j.
  rewrite !list_lookup_fmap, list_lookup_alter.
  case_decide; subst; destruct (nds !! _); cbn; rewrite ?Hf; done.
Qed.

Lemma dependsOn_false s n0 n1 :
  edgesForward (insnNodes s) -> dependsOn s n0 n1 = false.
Proof.
  intros He. unfold dependsOn.
  destruct (insnNodes s !! n0) as [nd|] eqn:Hn; [|done].
  apply not_true_is_false. intros (c & Hc & Heq)%existsb_exists.
  apply bool_decide_eq_true in Heq. subst c.
  rewrite <- list_elem_of_In in Hc. specialize (He n0 nd n0 Hn Hc). lia.
Qed.

(** An edge from an earlier node [n1] to a later node [n0] is always
added, and keeps the invariant. *)
Lemma addDependency_spec n0 n1 s :
  DagInv s -> (n1 < n0 < length (insnNodes s))%nat ->
  DagInv (addDependency (Some n0) (Some n1) s) /\
  length (insnNodes (addDependency (Some n0) (Some n1) s)) =
    length (insnNodes s) /\
  trackerNodes (addDependency (Some n0) (Some n1) s) = trackerNodes s /\
  ready (addDependency (Some n0) (Some n1) s) = ready s /\
  active (addDependency (Some n0) (Some n1) s) = active s /\
  (forall p c, hasEdge s p c ->
               hasEdge (addDependency (Some n0) (Some n1) s) p c) /\
  hasEdge (addDependency (Some n0) (Some n1) s) n1 n0.
Proof.
  intros [He Hr Hi] Hlt. unfold addDependency.
  rewrite bool_decide_eq_true_2 by lia.
  rewrite dependsOn_false by done. cbn [negb andb].
  set (nds := insnNodes s) in *.
  destruct (nds !! n1) as [nd1|] eqn:H1;
    [|apply lookup_ge_None in H1; lia].
  destruct (nds !! n0) as [nd0|] eqn:H0;
    [|apply lookup_ge_None in H0; lia].
  assert (Hlook : forall p,
    alter (pushChild n0) n1 (alter incrRefNum n0 nds) !! p =
    (fun nd => (if decide (p = n1) then pushChild n0 else id)
                 ((if decide (p = n0) then incrRefNum else id) nd))
      <$> nds !! p).
  { intros p. rewrite !list_lookup_alter.
    repeat case_decide; subst; try lia; clear; by destruct (_ !! p). }
  assert (Hch : childrenOf (alter (pushChild n0) n1 (alter incrRefNum n0 nds))
                = <[n1 := children nd1 ++ [n0]]> (childrenOf nds)).
  { rewrite (childrenOf_alter_push n0 n1 _ nd1).
    - by rewrite childrenOf_alter_same.
    - rewrite list_lookup_alter_ne by lia. done. }
  assert (Hlen : length (alter (pushChild n0) n1 (alter incrRefNum n0 nds))
                 = length nds) by by rewrite !length_alter.
  cbn [insnNodes trackerNodes ready active withInsnNodes].
  split_and!; try done.
  - split; cbn [insnNodes withInsnNodes].
    + intros p nd c. rewrite Hlook, Hlen.
      destruct (nds !! p) as [x|] eqn:Hp; [|done]. cbn. intros [= <-].
      specialize (He p x). repeat case_decide; subst; cbn.
      * rewrite elem_of_app, list_elem_of_singleton. intros [?| ->]; [eauto|lia].
      * rewrite elem_of_app, list_elem_of_singleton. intros [?| ->]; [eauto|lia].
      * eauto.
      * eauto.
    + intros c nd. rewrite Hlook. unfold indegree. rewrite Hch.
      destruct (nds !! c) as [x|] eqn:Hc; [|done]. cbn. intros [= <-].
      assert (childrenOf nds !! n1 = Some (children nd1)) as Hc1
        by (unfold childrenOf; by rewrite list_lookup_fmap, H1).
      pose proof (occ_insert c (childrenOf nds) n1 (children nd1)
                             (children nd1 ++ [n0]) Hc1) as Ho.
      rewrite count_occ_app in Ho. cbn [count_occ] in Ho.
      specialize (Hr c x Hc).
      unfold indegree in Hr.
      destruct (decide (c = n0)) as [->|Hne].
      * destruct (Nat.eq_dec n0 n0) as [_|]; [|done].
        rewrite decide_False by lia. cbn.
        rewrite Hr, wrap32_succ. f_equal. lia.
      * destruct (Nat.eq_dec n0 c) as [|_]; [lia|].
        replace (refNum _) with (refNum x) by (by case_decide).
        rewrite Hr. f_equal. lia.
    + rewrite Hlen. rewrite map_insn_alter by done.
      by rewrite map_insn_alter.
  - intros p c (nd & Hp & Hc). fold nds in Hp.
    unfold hasEdge. cbn [insnNodes withInsnNodes].
    rewrite Hlook, Hp. cbn. eexists; split; [done|].
    repeat case_decide; cbn; rewrite ?elem_of_app; eauto.
  - unfold hasEdge. cbn [insnNodes withInsnNodes]. rewrite Hlook, H1. cbn.
    eexists; split; [done|]. rewrite decide_True by done.
    rewrite decide_False by lia. cbn. rewrite elem_of_app.
    right. by apply list_elem_of_singleton.
Qed.

(** State properties kept by the statements of a loop body. *)
Definition Preserves (P : Scheduler -> Prop) (f : Scheduler -> Scheduler)
  : Prop := forall s, P s -> P (f s).

Lemma Preserves_seqT P f g :
  Preserves P f -> Preserves P g -> Preserves P (f >>> g).
Proof. unfold Preserves, seqT. eauto. Qed.

Lemma Preserves_whenT P c f : Preserves P f -> Preserves P (whenT c f).
Proof. unfold Preserves, whenT. intros. destruct c; eauto. Qed.

Lemma Preserves_forT {A : Type} P (l : list A) f :
  (forall x, x ∈ l -> Preserves P (f x)) -> Preserves P (forT l f).
Proof.
  unfold Preserves, forT. induction l as [|x l IH]; intros Hf s Hs; [done|].
  cbn. apply IH.
  - intros y Hy. apply Hf. by right.
  - apply Hf; [left|done].
Qed.

(** The invariant of a pass: the DAG invariant, the number of nodes, the
edges present before are still there, and every node the tracker remembers
satisfies [Q]. *)
Definition PassInv (n : nat) (E : nat -> nat -> Prop) (Q : nat -> Prop)
           (s : Scheduler) : Prop :=
  DagInv s /\ length (insnNodes s) = n /\
  (forall p c, E p c -> hasEdge s p c) /\
  (forall idx m, trackerNodes s !! idx = Some m -> Q m).

Lemma PassInv_weaken n E (Q Q' : nat -> Prop) s :
  (forall m, Q m -> Q' m) -> PassInv n E Q s -> PassInv n E Q' s.
Proof. intros HQ (? & ? & ? & Ht). split_and!; eauto. Qed.

Lemma addDependency_PassInv n E Q n0 n1 :
  (n1 < n0 < n)%nat ->
  Preserves (PassInv n E Q) (addDependency (Some n0) (Some n1)).
Proof.
  intros Hlt s (Hd & Hn & HE & Ht).
  destruct (addDependency_spec n0 n1 s Hd) as (Hd' & Hl & Htr & _ & _ & Hm & _);
    [lia|].
  split_and!; [done|lia|eauto|]. rewrite Htr. done.
Qed.

Lemma addDependencyNodeIndex_PassInv n E Q node idx :
  (node < n)%nat -> (forall m, Q m -> (m < node)%nat) ->
  Preserves (PassInv n E Q) (addDependencyNodeIndex node idx).
Proof.
  intros Hnode HQ s Hs. unfold addDependencyNodeIndex.
  destruct (trackerNodes s !! idx) as [m|] eqn:Hm; [|done].
  apply addDependency_PassInv; [|done].
  destruct Hs as (_ & _ & _ & Ht). specialize (HQ m (Ht idx m Hm)). lia.
Qed.

Lemma addDependencyNodeReg_PassInv n E Q node reg :
  (node < n)%nat -> (forall m, Q m -> (m < node)%nat) ->
  Preserves (PassInv n E Q) (addDependencyNodeReg policy node reg).
Proof.
  intros Hnode HQ s Hs. unfold addDependencyNodeReg.
  destruct (ignoreDependency reg); [done|].
  by apply addDependencyNodeIndex_PassInv.
Qed.

Lemma addDependencyIndexNode_PassInv n E Q node idx :
  (forall m, Q m -> (node < m < n)%nat) ->
  Preserves (PassInv n E Q) (addDependencyIndexNode idx node).
Proof.
  intros HQ s Hs. unfold addDependencyIndexNode.
  destruct (trackerNodes s !! idx) as [m|] eqn:Hm; [|done].
  apply addDependency_PassInv; [|done].
  destruct Hs as (_ & _ & _ & Ht). apply HQ. eauto.
Qed.

Lemma addDependencyRegNode_PassInv n E Q node reg :
  (forall m, Q m -> (node < m < n)%nat) ->
  Preserves (PassInv n E Q) (addDependencyRegNode policy reg node).
Proof.
  intros HQ s Hs. unfold addDependencyRegNode.
  destruct (ignoreDependency reg); [done|].
  by apply addDependencyIndexNode_PassInv.
Qed.

Lemma setTracker_PassInv n E (Q : nat -> Prop) idx node :
  Q node -> Preserves (PassInv n E Q) (setTracker idx node).
Proof.
  intros HQ s (Hd & Hn & HE & Ht). split_and!.
  - by destruct Hd.
  - done.
  - done.
  - cbn. intros i m. destruct (decide (idx = i)) as [->|Hne].
    + rewrite lookup_insert_eq. by intros [= <-].
    + rewrite lookup_insert_ne by done. apply Ht.
Qed.

Lemma updateWrites_PassInv n E (Q : nat -> Prop) node i :
  Q node -> Preserves (PassInv n E Q) (updateWrites policy node i).
Proof.
  intros HQ. unfold updateWrites.
  repeat first [ by apply setTracker_PassInv
               | apply Preserves_whenT
               | apply Preserves_forT; intros
               | apply Preserves_seqT ].
Qed.


Lemma PassInv_edges n (E E' : nat -> nat -> Prop) Q s :
  (forall p c, E' p c -> E p c) -> PassInv n E Q s -> PassInv n E' Q s.
Proof. intros HE (? & ? & ? & ?). split_and!; eauto. Qed.

Lemma addDependency_edge n E Q n0 n1 s :
  (n1 < n0 < n)%nat -> PassInv n E Q s ->
  PassInv n (fun p c => E p c \/ (p = n1 /\ c = n0)) Q
          (addDependency (Some n0) (Some n1) s).
Proof.
  intros Hlt (Hd & Hn & HE & Ht).
  destruct (addDependency_spec n0 n1 s Hd) as (Hd' & Hl & Htr & _ & _ & Hm & Hnew);
    [lia|].
  split_and!; [done|lia| |by rewrite Htr].
  intros p c [?|[-> ->]]; eauto.
Qed.

(** A loop that adds one edge [g x] per element [x] of [l]. *)
Lemma forT_edges n E Q (l : list nat) (g : nat -> nat * nat) s :
  (forall x, x ∈ l -> (fst (g x) < snd (g x) < n)%nat) ->
  PassInv n E Q s ->
  PassInv n (fun p c => E p c \/ exists x, x ∈ l /\ g x = (p, c)) Q
          (forT l (fun x => addDependency (Some (snd (g x)))
                                          (Some (fst (g x)))) s).
Proof.
  revert E s. induction l as [|x l IH]; intros E s Hg Hs.
  - eapply PassInv_edges; [|exact Hs]. intros p c [?|(x & Hx & _)]; [done|].
    inversion Hx.
  - assert (Hx : (fst (g x) < snd (g x) < n)%nat) by (apply Hg; left).
    pose proof (addDependency_edge n E Q _ _ s Hx Hs) as H1.
    assert (Hl : forall y, y ∈ l -> (fst (g y) < snd (g y) < n)%nat)
      by (intros y Hy; apply Hg; by right).
    pose proof (IH _ _ Hl H1) as H2.
    unfold forT in *. cbn [fold_left].
    eapply PassInv_edges; [|exact H2].
    intros p c [HE|(y & Hy & Hgy)]; [left; left; exact HE|].
    apply elem_of_cons in Hy as [->|Hy].
    + left. right. by rewrite Hgy.
    + right. eauto.
Qed.

(** The edges [makeBarrier] asks for around node [b]: from every earlier
node to [b], and from [b] to every later node. *)
Definition barrierEdge (n b p c : nat) : Prop :=
  (c = b /\ (p < b)%nat) \/ (p = b /\ (b < c < n)%nat).

Lemma makeBarrier_PassInv n E Q b s :
  (b < n)%nat -> PassInv n E Q s ->
  PassInv n (fun p c => E p c \/ barrierEdge n b p c) Q (makeBarrier b n s).
Proof.
  intros Hb Hs. unfold makeBarrier, seqT.
  pose proof (forT_edges n E Q (seq 0 b) (fun i => (i, b)) s) as H1.
  cbn [fst snd] in H1.
  pose proof (forT_edges n _ Q (seq (S b) (n - S b)) (fun j => (b, j)) _
                         (fun x Hx => ltac:(apply elem_of_seq in Hx; cbn; lia))
                         (H1 (fun x Hx => ltac:(apply elem_of_seq in Hx; cbn; lia))
                             Hs)) as H2.
  cbn [fst snd] in H2.
  eapply PassInv_edges; [|exact H2]. unfold barrierEdge.
  intros p c [HE|[[-> Hp]|[-> Hc]]].
  - left. by left.
  - left. right. exists p. split; [|done]. apply elem_of_seq. lia.
  - right. exists c. split; [|done]. apply elem_of_seq. lia.
Qed.

Lemma insnOf_inv s i :
  DagInv s -> (i < length (insnNodes s))%nat -> insnOf s i = bb !! i.
Proof.
  intros [_ _ Hi] Hlt. unfold insnOf.
  rewrite <- list_lookup_fmap.
  change (insn <$> insnNodes s) with (map insn (insnNodes s)).
  rewrite Hi. by apply lookup_take_lt.
Qed.

Lemma newScheduleDAGNode_PassInv k E Q i s :
  bb !! k = Some i -> PassInv k E Q s ->
  PassInv (S k) E Q (newScheduleDAGNode i s).
Proof.
  intros Hk ([He Hr Hi] & Hn & HE & Ht).
  set (new := {| insn := i; children := []; refNum := 0; retiredCycle := 0 |}).
  assert (Hocc : forall c, indegree (insnNodes s ++ [new]) c
                           = indegree (insnNodes s) c).
  { intros c. unfold indegree, childrenOf, occ.
    rewrite fmap_app, concat_app. cbn. by rewrite app_nil_r. }
  unfold newScheduleDAGNode. fold new. split_and!.
  - split; cbn [insnNodes withInsnNodes].
    + intros p nd c Hp Hc. rewrite length_app. cbn.
      apply lookup_app_Some in Hp as [Hp|[Hge Hp]].
      * specialize (He p nd c Hp Hc). lia.
      * destruct (p - length (insnNodes s))%nat; [|done].
        injection Hp as <-. inversion Hc.
    + intros c nd Hc. rewrite Hocc.
      apply lookup_app_Some in Hc as [Hc|[Hge Hc]]; [by apply Hr|].
      destruct (c - length (insnNodes s))%nat eqn:Hd; [|done].
      injection Hc as <-. cbn.
      unfold indegree. rewrite occ_zero; [done|].
      intros l Hl Hcl. unfold childrenOf in Hl.
      apply list_elem_of_fmap in Hl as (nd & -> & Hnd).
      apply list_elem_of_lookup_1 in Hnd as [p Hp].
      specialize (He p nd c Hp Hcl). lia.
    + rewrite length_app. cbn [length]. rewrite Nat.add_1_r.
      rewrite map_app, Hi, Hn. cbn. symmetry. by apply take_S_r.
  - cbn. rewrite length_app. cbn. lia.
  - intros p c (nd & Hp & Hc)%HE. exists nd. split; [|done].
    cbn. by apply lookup_app_l_Some.
  - done.
Qed.

(** Pre- and postcondition of a statement. *)
Definition Hoare (P R : Scheduler -> Prop) (f : Scheduler -> Scheduler)
  : Prop := forall s, P s -> R (f s).

Lemma Hoare_seqT P R T f g :
  Hoare P R f -> Hoare R T g -> Hoare P T (f >>> g).
Proof. unfold Hoare, seqT. eauto. Qed.

Ltac preserves_step :=
  lazymatch goal with
  | |- Preserves _ (seqT _ _) => apply Preserves_seqT
  | |- Preserves _ (whenT _ _) => apply Preserves_whenT
  | |- Preserves _ (forT _ _) => apply Preserves_forT; intros
  end.

Ltac hoare_last R :=
  lazymatch goal with
  | |- Hoare _ _ (seqT _ _) => apply (Hoare_seqT _ R)
  end.

Lemma forwardInsn_PassInv k E i :
  bb !! k = Some i ->
  Hoare (PassInv k E (fun m => (m < k)%nat))
        (PassInv (S k) E (fun m => (m < S k)%nat))
        (forwardInsn policy k i).
Proof.
  intros Hk. unfold forwardInsn.
  hoare_last (PassInv (S k) E (fun m => (m < k)%nat)).
  2:{ intros s Hs. apply updateWrites_PassInv; [lia|].
      eapply PassInv_weaken; [|exact Hs]. intros m Hm. cbn in *. lia. }
  repeat (hoare_last (PassInv (S k) E (fun m => (m < k)%nat));
          [|change (Hoare ?P ?P ?f) with (Preserves P f);
            repeat preserves_step;
            first [ apply addDependencyNodeIndex_PassInv; [lia|done]
                  | apply addDependencyNodeReg_PassInv; [lia|done] ]]).
  intros s Hs. by apply newScheduleDAGNode_PassInv.
Qed.

Lemma forwardPass_PassInv first l E :
  drop first bb = l ->
  Hoare (PassInv first E (fun m => (m < first)%nat))
        (PassInv (first + length l) E
                 (fun m => (m < first + length l)%nat))
        (forwardPass policy first l).
Proof.
  revert first. induction l as [|i l IH]; intros first Hdrop.
  - cbn. rewrite Nat.add_0_r. by intros s Hs.
  - cbn [forwardPass length].
    replace (first + S (length l))%nat with (S first + length l)%nat by lia.
    assert (Hi : bb !! first = Some i).
    { rewrite <- (Nat.add_0_r first), <- lookup_drop, Hdrop. done. }
    eapply Hoare_seqT.
    + by apply forwardInsn_PassInv.
    + apply IH. rewrite (drop_S _ _ _ Hi) in Hdrop. congruence.
Qed.


Lemma backwardInsn_PassInv n k E i :
  (k < n)%nat ->
  Hoare (PassInv n E (fun m => (k < m < n)%nat))
        (PassInv n E (fun m => (k <= m < n)%nat))
        (backwardInsn policy k i).
Proof.
  intros Hk. unfold backwardInsn.
  hoare_last (PassInv n E (fun m => (k < m < n)%nat)).
  2:{ intros s Hs. apply updateWrites_PassInv; [lia|].
      eapply PassInv_weaken; [|exact Hs]. intros m Hm. cbn in *. lia. }
  change (Hoare ?P ?P ?f) with (Preserves P f).
  repeat preserves_step;
    first [ by apply addDependencyIndexNode_PassInv
          | by apply addDependencyRegNode_PassInv ].
Qed.

Lemma reverse_seq_S k : reverse (seq 0 (S k)) = k :: reverse (seq 0 k).
Proof. by rewrite seq_S, reverse_snoc. Qed.

Lemma backwardLoop_PassInv n k E :
  (k <= n)%nat ->
  Hoare (PassInv n E (fun m => (k <= m < n)%nat))
        (PassInv n E (fun m => (m < n)%nat))
        (forT (reverse (seq 0 k))
              (fun insnID s => match insnOf s insnID with
                               | Some i => backwardInsn policy insnID i s
                               | None => s
                               end)).
Proof.
  induction k as [|k IH]; intros Hk s Hs.
  - cbn. eapply PassInv_weaken; [|exact Hs]. intros m Hm. cbn in *. lia.
  - rewrite reverse_seq_S. unfold forT. cbn [fold_left].
    apply IH; [lia|].
    assert (Hs' : PassInv n E (fun m => (k < m < n)%nat) s).
    { eapply PassInv_weaken; [|exact Hs]. intros m Hm. cbn in *. lia. }
    destruct (insnOf s k) as [i|].
    + apply backwardInsn_PassInv; [lia|done].
    + eapply PassInv_weaken; [|exact Hs']. intros m Hm. cbn in *. lia.
Qed.

Lemma backwardPass_PassInv n E :
  Hoare (PassInv n E (fun _ => False)) (PassInv n E (fun m => (m < n)%nat))
        (backwardPass policy n).
Proof.
  intros s Hs. apply backwardLoop_PassInv; [done|].
  eapply PassInv_weaken; [|exact Hs]. done.
Qed.

Lemma trackerClear_PassInv n E Q :
  Hoare (PassInv n E Q) (PassInv n E (fun _ => False)) trackerClear.
Proof.
  intros s (Hd & Hn & HE & _). split_and!; [by destruct Hd|done|done|].
  cbn. intros idx m. by rewrite lookup_empty.
Qed.

(** The edges the third loop asks for: around every branch, label and
EOT instruction of the block. *)
Definition barrierEdges (n : nat) (l : list nat) (p c : nat) : Prop :=
  exists b i, b ∈ l /\ bb !! b = Some i /\ isBarrierInsn i = true /\
              barrierEdge n b p c.

Lemma barrierLoop_PassInv n l E Q :
  (forall b, b ∈ l -> (b < n)%nat) ->
  Hoare (PassInv n E Q)
        (PassInv n (fun p c => E p c \/ barrierEdges n l p c) Q)
        (forT l (fun insnID s =>
                   match insnOf s insnID with
                   | Some i => whenT (isBarrierInsn i)
                                     (makeBarrier insnID n) s
                   | None => s
                   end)).
Proof.
  revert E. induction l as [|b l IH]; intros E Hl s Hs.
  - cbn. eapply PassInv_edges; [|exact Hs].
    intros p c [?|(b & i & Hb & _)]; [done|inversion Hb].
  - unfold forT. cbn [fold_left].
    assert (Hb : (b < n)%nat) by (apply Hl; left).
    assert (Hl' : forall x, x ∈ l -> (x < n)%nat)
      by (intros x Hx; apply Hl; by right).
    pose proof Hs as (Hd & Hn & _).
    rewrite (insnOf_inv s b Hd) by lia.
    destruct (bb !! b) as [i|] eqn:Hi; [destruct (isBarrierInsn i) eqn:Hbar|].
    + cbn [whenT].
      pose proof (makeBarrier_PassInv n E Q b s Hb Hs) as H1.
      pose proof (IH _ Hl' _ H1) as H2.
      eapply PassInv_edges; [|exact H2].
      intros p c [HE|(b' & i' & Hb' & Hi' & Hbar' & He)];
        [left; left; exact HE|].
      apply elem_of_cons in Hb' as [->|Hb'].
      * left. by right.
      * right. exists b', i'. done.
    + cbn [whenT]. pose proof (IH _ Hl' _ Hs) as H2.
      eapply PassInv_edges; [|exact H2].
      intros p c [HE|(b' & i' & Hb' & Hi' & Hbar' & He)]; [by left|].
      apply elem_of_cons in Hb' as [->|Hb']; [congruence|].
      right. exists b', i'. done.
    + pose proof (IH _ Hl' _ Hs) as H2.
      eapply PassInv_edges; [|exact H2].
      intros p c [HE|(b' & i' & Hb' & Hi' & Hbar' & He)]; [by left|].
      apply elem_of_cons in Hb' as [->|Hb']; [congruence|].
      right. exists b', i'. done.
Qed.

Lemma barrierPass_PassInv n E Q :
  Hoare (PassInv n E Q)
        (PassInv n (fun p c => E p c \/ barrierEdges n (seq 0 n) p c) Q)
        (barrierPass n).
Proof.
  apply barrierLoop_PassInv. intros b Hb%elem_of_seq. lia.
Qed.

(** Neither list is touched before the last loop of [buildDAG]. *)
Definition ListsEmpty (s : Scheduler) : Prop := ready s = [] /\ active s = [].

Lemma addDependency_lists n0 n1 : Preserves ListsEmpty (addDependency n0 n1).
Proof.
  intros s Hs. unfold addDependency.
  destruct n0, n1; try done. by case_match.
Qed.

Lemma addDependencyNodeIndex_lists node idx :
  Preserves ListsEmpty (addDependencyNodeIndex node idx).
Proof. intros s Hs. by apply addDependency_lists. Qed.

Lemma addDependencyIndexNode_lists node idx :
  Preserves ListsEmpty (addDependencyIndexNode idx node).
Proof. intros s Hs. by apply addDependency_lists. Qed.

Lemma addDependencyNodeReg_lists node reg :
  Preserves ListsEmpty (addDependencyNodeReg policy node reg).
Proof.
  intros s Hs. unfold addDependencyNodeReg. case_match; [done|].
  by apply addDependencyNodeIndex_lists.
Qed.

Lemma addDependencyRegNode_lists node reg :
  Preserves ListsEmpty (addDependencyRegNode policy reg node).
Proof.
  intros s Hs. unfold addDependencyRegNode. case_match; [done|].
  by apply addDependencyIndexNode_lists.
Qed.

Lemma setTracker_lists idx node : Preserves ListsEmpty (setTracker idx node).
Proof. by intros s Hs. Qed.

Ltac lists_step :=
  first [ preserves_step
        | apply addDependency_lists
        | apply addDependencyNodeIndex_lists
        | apply addDependencyIndexNode_lists
        | apply addDependencyNodeReg_lists
        | apply addDependencyRegNode_lists
        | apply setTracker_lists ].

Lemma updateWrites_lists node i :
  Preserves ListsEmpty (updateWrites policy node i).
Proof. unfold updateWrites. repeat lists_step. Qed.

Lemma forwardInsn_lists k i : Preserves ListsEmpty (forwardInsn policy k i).
Proof.
  unfold forwardInsn. repeat lists_step; try apply updateWrites_lists.
  by intros s Hs.
Qed.

Lemma forwardPass_lists first l :
  Preserves ListsEmpty (forwardPass policy first l).
Proof.
  revert first. induction l as [|i l IH]; intros first; [by intros s|].
  cbn [forwardPass]. apply Preserves_seqT; [apply forwardInsn_lists|apply IH].
Qed.

Lemma backwardInsn_lists k i : Preserves ListsEmpty (backwardInsn policy k i).
Proof.
  unfold backwardInsn. repeat lists_step. apply updateWrites_lists.
Qed.

Lemma backwardPass_lists n : Preserves ListsEmpty (backwardPass policy n).
Proof.
  unfold backwardPass. apply Preserves_forT. intros k _ s Hs.
  destruct (insnOf s k); [|done]. by apply backwardInsn_lists.
Qed.

Lemma makeBarrier_lists b n : Preserves ListsEmpty (makeBarrier b n).
Proof. unfold makeBarrier. repeat lists_step. Qed.

Lemma barrierPass_lists n : Preserves ListsEmpty (barrierPass n).
Proof.
  unfold barrierPass. apply Preserves_forT. intros k _ s Hs.
  destruct (insnOf s k); [|done].
  apply Preserves_whenT; [apply makeBarrier_lists|done].
Qed.

(** The last loop: the nodes that nothing points to, in block order. *)
Definition isRoot (nds : list ScheduleDAGNode) (c : nat) : Prop :=
  refNum <$> nds !! c = Some 0.

Local Instance isRoot_dec nds c : Decision (isRoot nds c).
Proof. unfold isRoot. apply _. Defined.

Lemma readyLoop_spec l s :
  let s' := forT l (fun insnID s =>
                      match insnNodes s !! insnID with
                      | Some nd => whenT (bool_decide (refNum nd = 0))
                                         (pushReady insnID) s
                      | None => s
                      end) s in
  insnNodes s' = insnNodes s /\ trackerNodes s' = trackerNodes s /\
  active s' = active s /\
  ready s' = ready s ++ filter (isRoot (insnNodes s)) l.
Proof.
  revert s. induction l as [|c l IH]; intros s; cbn zeta.
  - cbn. by rewrite app_nil_r.
  - unfold forT. cbn [fold_left].
    match goal with
    | |- context [fold_left _ l ?x] => set (s1 := x)
    end.
    assert (H1 : insnNodes s1 = insnNodes s /\ trackerNodes s1 = trackerNodes s
                 /\ active s1 = active s /\
                 ready s1 = ready s ++ filter (isRoot (insnNodes s)) [c]).
    { subst s1. rewrite filter_cons, filter_nil.
      case_decide as Hroot; unfold isRoot in Hroot;
        destruct (insnNodes s !! c) as [nd|] eqn:Hc; cbn in *; try done.
      - injection Hroot as ->. by rewrite bool_decide_eq_true_2.
      - rewrite bool_decide_eq_false_2 by congruence. cbn.
        by rewrite app_nil_r.
      - by rewrite app_nil_r. }
    destruct H1 as (Hn & Ht & Ha & Hr).
    specialize (IH s1). cbn zeta in IH. unfold forT in IH.
    destruct IH as (Hn' & Ht' & Ha' & Hr').
    rewrite Hn', Ht', Ha', Hr', Hn, Hr. split_and!; try done.
    rewrite <- app_assoc. f_equal.
    change (c :: l) with ([c] ++ l). by rewrite filter_app.
Qed.

(** What [buildDAG] leaves: one node per instruction, forward edges counted
by the [refNum]s, the barrier edges, the roots in the ready list and an
empty active list. *)
Lemma buildDAG_spec :
  let s := buildDAG policy bb in
  DagInv s /\ length (insnNodes s) = length bb /\
  (forall p c, barrierEdges (length bb) (seq 0 (length bb)) p c ->
               hasEdge s p c) /\
  ready s = filter (isRoot (insnNodes s)) (seq 0 (length bb)) /\
  active s = [].
Proof.
  cbn zeta. unfold buildDAG.
  set (n := length bb).
  assert (H0 : PassInv 0 (fun _ _ => False) (fun m => (m < 0)%nat)
                       emptyScheduler).
  { split_and!; done. }
  assert (L0 : ListsEmpty emptyScheduler) by done.
  unfold seqT.
  set (s1 := forwardPass policy 0 bb emptyScheduler).
  assert (H1 : PassInv n (fun _ _ => False)
                       (fun m => (m < 0 + length bb)%nat) s1)
    by (by apply (forwardPass_PassInv 0 bb)).
  assert (L1 : ListsEmpty s1) by (by apply forwardPass_lists).
  set (s2 := trackerClear s1).
  assert (H2 : PassInv n (fun _ _ => False) (fun _ => False) s2)
    by (by eapply trackerClear_PassInv).
  assert (L2 : ListsEmpty s2) by done.
  set (s3 := backwardPass policy n s2).
  assert (H3 : PassInv n (fun _ _ => False) (fun m => (m < n)%nat) s3)
    by (by apply backwardPass_PassInv).
  assert (L3 : ListsEmpty s3) by (by apply backwardPass_lists).
  set (s4 := barrierPass n s3).
  assert (H4 : PassInv n (fun p c => False \/ barrierEdges n (seq 0 n) p c)
                       (fun m => (m < n)%nat) s4)
    by (by apply barrierPass_PassInv).
  assert (L4 : ListsEmpty s4) by (by apply barrierPass_lists).
  destruct (readyLoop_spec (seq 0 n) s4) as (Hn & Ht & Ha & Hr).
  fold (readyPass n) in Hn, Ht, Ha, Hr.
  destruct H4 as ([He Hc Hi] & Hlen & HE & _), L4 as [Lr La].
  split_and!.
  - split; rewrite Hn; done.
  - by rewrite Hn.
  - intros p c Hpc. destruct (HE p c) as (nd & Hp & Hcn); [by right|].
    exists nd. by rewrite Hn.
  - by rewrite Hr, Lr, Hn.
  - by rewrite Ha.
Qed.

(** ** The resources an instruction reads and writes, as the loops of
       [buildDAG] look them up *)

(** The tracker slots of the registers [addDependency(node, reg)] and
[addDependency(reg, node)] look up: the registers that
[ignoreDependency] does not discard. *)
Definition regIndices (rs : list GenRegister) : list Z :=
  omap (fun r => if ignoreDependency r then None
                 else Some (getIndex policy r)) rs.

(** The slots looked up by the "read-after-write" statements of the first
loop, which are also the statements of the second loop. *)
Definition readIndices (insn : SelectionInstruction) : list Z :=
  regIndices (src insn) ++
  (if negb (bool_decide (predicate (state insn) = GEN_PREDICATE_NONE))
   then regIndices [getFlag insn] else []) ++
  (if isRead insn then [getIndexBti policy (extra_function insn)] else []) ++
  (if isBarrierOrWait insn
   then [getIndexBti policy 254; getIndexBti policy 0] else []).

(** The slots looked up by the "write-after-write" statements of the first
loop. *)
Definition wawIndices (insn : SelectionInstruction) : list Z :=
  regIndices (dst insn) ++
  (if bool_decide (opcode insn = SEL_OP_CMP)
   then regIndices [getFlag insn] else []) ++
  (if accWrEnable (state insn) then regIndices [GenRegister_acc] else []) ++
  (if isWrite insn then [getIndexBti policy (extra_function insn)] else []) ++
  (if isBarrierOrWait insn
   then [getIndexBti policy 254; getIndexBti policy 0] else []).

(** The slots [updateWrites] assigns. *)
Definition writeIndices (insn : SelectionInstruction) : list Z :=
  regIndices (dst insn) ++
  (if bool_decide (opcode insn = SEL_OP_CMP)
   then [getIndex policy (getFlag insn)] else []) ++
  (if accWrEnable (state insn)
   then [getIndex policy GenRegister_acc] else []) ++
  (if isWrite insn then [getIndexBti policy (extra_function insn)] else []) ++
  (if isBarrierOrWait insn
   then [getIndexBti policy 0; getIndexBti policy 254] else []).

Lemma forT_app {A : Type} (l1 l2 : list A) f s :
  forT (l1 ++ l2) f s = forT l2 f (forT l1 f s).
Proof. unfold forT. apply fold_left_app. Qed.

Lemma forT_regs_node k rs s :
  forT rs (addDependencyNodeReg policy k) s
  = forT (regIndices rs) (addDependencyNodeIndex k) s.
Proof.
  revert s. induction rs as [|r rs IH]; intros s; [done|].
  unfold regIndices, forT in *. cbn [fold_left omap list_omap].
  rewrite IH. unfold addDependencyNodeReg at 1.
  by destruct (ignoreDependency r).
Qed.

Lemma forT_regs_back k rs s :
  forT rs (fun r => addDependencyRegNode policy r k) s
  = forT (regIndices rs) (fun x => addDependencyIndexNode x k) s.
Proof.
  revert s. induction rs as [|r rs IH]; intros s; [done|].
  unfold regIndices, forT in *. cbn [fold_left omap list_omap].
  rewrite IH. unfold addDependencyRegNode at 1.
  by destruct (ignoreDependency r).
Qed.

Lemma forT_regs_write k rs s :
  forT rs (fun d => whenT (negb (ignoreDependency d))
                          (setTracker (getIndex policy d) k)) s
  = forT (regIndices rs) (fun x => setTracker x k) s.
Proof.
  revert s. induction rs as [|r rs IH]; intros s; [done|].
  unfold regIndices, forT in *. cbn [fold_left omap list_omap].
  rewrite IH. by destruct (ignoreDependency r).
Qed.

Lemma whenT_slots {A : Type} (c : bool) g (l : list A) f s s' :
  s = s' -> (forall x, g x = forT l f x) ->
  whenT c g s = forT (if c then l else []) f s'.
Proof. intros -> Hg. unfold whenT. destruct c; [apply Hg|done]. Qed.

Lemma forT_slots_node k rs s s' :
  s = s' ->
  forT rs (addDependencyNodeReg policy k) s
  = forT (regIndices rs) (addDependencyNodeIndex k) s'.
Proof. intros ->. apply forT_regs_node. Qed.

Lemma forT_slots_back k rs s s' :
  s = s' ->
  forT rs (fun r => addDependencyRegNode policy r k) s
  = forT (regIndices rs) (fun x => addDependencyIndexNode x k) s'.
Proof. intros ->. apply forT_regs_back. Qed.

Lemma forT_slots_write k rs s s' :
  s = s' ->
  forT rs (fun d => whenT (negb (ignoreDependency d))
                          (setTracker (getIndex policy d) k)) s
  = forT (regIndices rs) (fun x => setTracker x k) s'.
Proof. intros ->. apply forT_regs_write. Qed.

Ltac slots_step :=
  first [ apply whenT_slots; [|first [ done | intros; apply (forT_regs_node _ [_]) | intros; apply (forT_regs_back _ [_]) ]]
        | apply forT_slots_node
        | apply forT_slots_back
        | apply forT_slots_write ].

(** The body of the first loop: a new node, one lookup per slot read or
written, then [updateWrites]. *)
Lemma forwardInsn_slots k insn s :
  forwardInsn policy k insn s
  = updateWrites policy k insn
      (forT (readIndices insn ++ wawIndices insn)
            (addDependencyNodeIndex k) (newScheduleDAGNode insn s)).
Proof.
  unfold forwardInsn, readIndices, wawIndices, seqT.
  rewrite !forT_app. f_equal.
  repeat slots_step. done.
Qed.

Lemma updateWrites_slots k insn s :
  updateWrites policy k insn s
  = forT (writeIndices insn) (fun x => setTracker x k) s.
Proof.
  unfold updateWrites, writeIndices, seqT.
  rewrite !forT_app.
  repeat slots_step. done.
Qed.

Lemma backwardInsn_slots k insn s :
  backwardInsn policy k insn s
  = updateWrites policy k insn
      (forT (readIndices insn) (fun x => addDependencyIndexNode x k) s).
Proof.
  unfold backwardInsn, readIndices, seqT.
  rewrite !forT_app. f_equal.
  repeat slots_step. done.
Qed.

Lemma addDependency_tracker a b s :
  trackerNodes (addDependency a b s) = trackerNodes s.
Proof. unfold addDependency. destruct a, b; try done. by case_match. Qed.

(** The lookups of the first loop for node [k]: an edge from the node each
slot remembers. *)
Lemma nodeIndex_edges n Q k l :
  (k < n)%nat -> (forall m, Q m -> (m < k)%nat) ->
  forall E s, PassInv n E Q s ->
  PassInv n (fun p c => E p c \/
                        (c = k /\ exists x, x ∈ l /\
                                            trackerNodes s !! x = Some p))
          Q (forT l (addDependencyNodeIndex k) s) /\
  trackerNodes (forT l (addDependencyNodeIndex k) s) = trackerNodes s.
Proof.
  intros Hk HQ. induction l as [|x l IH]; intros E s Hs.
  - split; [|done]. eapply PassInv_edges; [|exact Hs].
    intros p c [?|(_ & y & Hy & _)]; [done|by apply elem_of_nil in Hy].
  - unfold forT. cbn [fold_left].
    change (fold_left _ l ?s0) with (forT l (addDependencyNodeIndex k) s0).
    set (s1 := addDependencyNodeIndex k x s).
    assert (Ht1 : trackerNodes s1 = trackerNodes s)
      by apply addDependency_tracker.
    destruct (trackerNodes s !! x) as [m|] eqn:Hm.
    + assert (Hmk : (m < k)%nat).
      { apply HQ. destruct Hs as (_ & _ & _ & Ht). by apply (Ht x). }
      assert (H1 : PassInv n (fun p c => E p c \/ (p = m /\ c = k)) Q s1).
      { subst s1. unfold addDependencyNodeIndex. rewrite Hm.
        apply addDependency_edge; [lia|done]. }
      destruct (IH _ _ H1) as [H2 Ht2]. split; [|by rewrite Ht2].
      eapply PassInv_edges; [|exact H2].
      intros p c [HE|(-> & y & Hy & Hp)]; [by left; left|].
      apply elem_of_cons in Hy as [->|Hy].
      * left. right. split; [congruence|done].
      * right. split; [done|]. exists y. by rewrite Ht1.
    + assert (Hs1 : s1 = s).
      { subst s1. unfold addDependencyNodeIndex. by rewrite Hm. }
      rewrite Hs1. destruct (IH _ _ Hs) as [H2 Ht2]. split; [|done].
      eapply PassInv_edges; [|exact H2].
      intros p c [HE|(-> & y & Hy & Hp)]; [by left|].
      apply elem_of_cons in Hy as [->|Hy]; [congruence|].
      right. split; [done|]. by exists y.
Qed.

(** The lookups of the second loop for node [k]: an edge to the node each
slot remembers. *)
Lemma indexNode_edges n Q k l :
  (forall m, Q m -> (k < m < n)%nat) ->
  forall E s, PassInv n E Q s ->
  PassInv n (fun p c => E p c \/
                        (p = k /\ exists x, x ∈ l /\
                                            trackerNodes s !! x = Some c))
          Q (forT l (fun x => addDependencyIndexNode x k) s) /\
  trackerNodes (forT l (fun x => addDependencyIndexNode x k) s)
  = trackerNodes s.
Proof.
  intros HQ. induction l as [|x l IH]; intros E s Hs.
  - split; [|done]. eapply PassInv_edges; [|exact Hs].
    intros p c [?|(_ & y & Hy & _)]; [done|by apply elem_of_nil in Hy].
  - unfold forT. cbn [fold_left].
    change (fold_left _ l ?s0)
      with (forT l (fun x => addDependencyIndexNode x k) s0).
    set (s1 := addDependencyIndexNode x k s).
    assert (Ht1 : trackerNodes s1 = trackerNodes s)
      by apply addDependency_tracker.
    destruct (trackerNodes s !! x) as [m|] eqn:Hm.
    + assert (Hmk : (k < m < n)%nat).
      { apply HQ. destruct Hs as (_ & _ & _ & Ht). by apply (Ht x). }
      assert (H1 : PassInv n (fun p c => E p c \/ (p = k /\ c = m)) Q s1).
      { subst s1. unfold addDependencyIndexNode. rewrite Hm.
        apply addDependency_edge; [lia|done]. }
      destruct (IH _ _ H1) as [H2 Ht2]. split; [|by rewrite Ht2].
      eapply PassInv_edges; [|exact H2].
      intros p c [HE|(-> & y & Hy & Hp)]; [by left; left|].
      apply elem_of_cons in Hy as [->|Hy].
      * left. right. split; [done|congruence].
      * right. split; [done|]. exists y. by rewrite Ht1.
    + assert (Hs1 : s1 = s).
      { subst s1. unfold addDependencyIndexNode. by rewrite Hm. }
      rewrite Hs1. destruct (IH _ _ Hs) as [H2 Ht2]. split; [|done].
      eapply PassInv_edges; [|exact H2].
      intros p c [HE|(-> & y & Hy & Hp)]; [by left|].
      apply elem_of_cons in Hy as [->|Hy]; [congruence|].
      right. split; [done|]. by exists y.
Qed.

(** The assignments of [updateWrites]. *)
Lemma setTrackers_spec l k :
  forall s,
  insnNodes (forT l (fun x => setTracker x k) s) = insnNodes s /\
  forall x, trackerNodes (forT l (fun x => setTracker x k) s) !! x
            = if bool_decide (x ∈ l) then Some k else trackerNodes s !! x.
Proof.
  induction l as [|y l IH]; intros s.
  - split; [done|]. intros x. rewrite bool_decide_eq_false_2; [done|].
    by intros ?%elem_of_nil.
  - unfold forT. cbn [fold_left].
    change (fold_left _ l ?s0) with (forT l (fun x => setTracker x k) s0).
    destruct (IH (setTracker y k s)) as [Hn Ht]. split; [by rewrite Hn|].
    intros x. rewrite Ht. cbn [trackerNodes setTracker].
    destruct (decide (x ∈ l)) as [Hl|Hl].
    + rewrite !bool_decide_eq_true_2; [done|by right|done].
    + rewrite (bool_decide_eq_false_2 (x ∈ l)) by done.
      destruct (decide (x = y)) as [->|Hxy].
      * rewrite lookup_insert_eq, bool_decide_eq_true_2; [done|left].
      * rewrite lookup_insert_ne by done.
        rewrite bool_decide_eq_false_2; [done|].
        intros [?|?]%elem_of_cons; done.
Qed.

Lemma PassInv_nodes n E (Q Q' : nat -> Prop) s s' :
  insnNodes s' = insnNodes s ->
  (forall idx m, trackerNodes s' !! idx = Some m -> Q' m) ->
  PassInv n E Q s -> PassInv n E Q' s'.
Proof.
  intros Hn HQ ([He Hr Hi] & Hlen & HE & _). split_and!.
  - split; by rewrite Hn.
  - by rewrite Hn.
  - intros p c (nd & Hp & Hc)%HE. exists nd. by rewrite Hn.
  - done.
Qed.

(** Instruction [m] of the block writes slot [x]. *)
Definition writesAt (m : nat) (x : Z) : Prop :=
  exists i, bb !! m = Some i /\ x ∈ writeIndices i.

(** [m] is the last instruction before position [k] that writes [x], and
the first one from position [k] on that does. *)
Definition lastWriter (x : Z) (k m : nat) : Prop :=
  (m < k)%nat /\ writesAt m x /\
  forall m', (m < m' < k)%nat -> ~ writesAt m' x.

Definition nextWriter (x : Z) (k m : nat) : Prop :=
  (k <= m)%nat /\ writesAt m x /\
  forall m', (k <= m' < m)%nat -> ~ writesAt m' x.

(** The edges the first loop owes for the instructions before [k] (to
each, from the last writer of every slot it reads or writes), and those the
second loop owes for the instructions from [k] on (from each, to the next
writer of every slot it reads). *)
Definition rawEdges (k p c : nat) : Prop :=
  (c < k)%nat /\
  exists i x, bb !! c = Some i /\ x ∈ readIndices i ++ wawIndices i /\
              lastWriter x c p.

Definition warEdges (k p c : nat) : Prop :=
  (k <= p)%nat /\
  exists i x, bb !! p = Some i /\ x ∈ readIndices i /\
              nextWriter x (S p) c.

Definition FwdInv (k : nat) (s : Scheduler) : Prop :=
  PassInv k (rawEdges k) (fun m => (m < k)%nat) s /\
  forall x m, trackerNodes s !! x = Some m <-> lastWriter x k m.

Definition BwdInv (k : nat) (s : Scheduler) : Prop :=
  PassInv (length bb)
          (fun p c => rawEdges (length bb) p c \/ warEdges k p c)
          (fun m => (k <= m < length bb)%nat) s /\
  forall x m, trackerNodes s !! x = Some m <-> nextWriter x k m.

Lemma lastWriter_S x k m i :
  bb !! k = Some i ->
  lastWriter x (S k) m <->
  if bool_decide (x ∈ writeIndices i) then m = k else lastWriter x k m.
Proof.
  intros Hk. unfold lastWriter. case_bool_decide as Hx.
  - split.
    + intros (Hm & Hw & Hno). destruct (decide (m = k)) as [|Hne]; [done|].
      exfalso. apply (Hno k); [lia|]. by exists i.
    + intros ->. split_and!; [lia|by exists i|intros; lia].
  - assert (Hnk : ~ writesAt k x).
    { intros (i' & Hi' & Hx'). congruence. }
    split.
    + intros (Hm & Hw & Hno).
      assert (m <> k) by (by intros ->).
      split_and!; [lia|done|]. intros m' Hm'. apply Hno. lia.
    + intros (Hm & Hw & Hno). split_and!; [lia|done|].
      intros m' Hm'. destruct (decide (m' = k)) as [->|]; [done|].
      apply Hno. lia.
Qed.

Lemma nextWriter_pred x k m i :
  bb !! k = Some i ->
  nextWriter x k m <->
  if bool_decide (x ∈ writeIndices i) then m = k else nextWriter x (S k) m.
Proof.
  intros Hk. unfold nextWriter. case_bool_decide as Hx.
  - split.
    + intros (Hm & Hw & Hno). destruct (decide (m = k)) as [|Hne]; [done|].
      exfalso. apply (Hno k); [lia|]. by exists i.
    + intros ->. split_and!; [lia|by exists i|intros; lia].
  - assert (Hnk : ~ writesAt k x).
    { intros (i' & Hi' & Hx'). congruence. }
    split.
    + intros (Hm & Hw & Hno).
      assert (m <> k) by (by intros ->).
      split_and!; [lia|done|]. intros m' Hm'. apply Hno. lia.
    + intros (Hm & Hw & Hno). split_and!; [lia|done|].
      intros m' Hm'. destruct (decide (m' = k)) as [->|]; [done|].
      apply Hno. lia.
Qed.

Lemma forwardInsn_FwdInv k i s :
  bb !! k = Some i -> FwdInv k s -> FwdInv (S k) (forwardInsn policy k i s).
Proof.
  intros Hk [Hs Htr].
  rewrite forwardInsn_slots, updateWrites_slots.
  set (s1 := newScheduleDAGNode i s).
  assert (H1 : PassInv (S k) (rawEdges k) (fun m => (m < k)%nat) s1)
    by (by apply newScheduleDAGNode_PassInv).
  destruct (nodeIndex_edges (S k) (fun m => (m < k)%nat) k
              (readIndices i ++ wawIndices i) (Nat.lt_succ_diag_r k)
              (fun m H => H) _ s1 H1) as [H2 Ht2].
  set (s2 := forT (readIndices i ++ wawIndices i)
                  (addDependencyNodeIndex k) s1) in *.
  destruct (setTrackers_spec (writeIndices i) k s2) as [Hn3 Ht3].
  set (s3 := forT (writeIndices i) (fun x => setTracker x k) s2) in *.
  assert (Ht : forall x, trackerNodes s3 !! x
                         = if bool_decide (x ∈ writeIndices i) then Some k
                           else trackerNodes s !! x).
  { intros x. rewrite Ht3, Ht2. done. }
  split.
  - eapply PassInv_edges; [|eapply (PassInv_nodes _ _ _ _ s2); [done| |exact H2]].
    + intros p c (Hc & i' & x & Hi' & Hx & Hlast).
      destruct (decide (c = k)) as [->|Hne].
      * right. split; [done|]. exists x.
        assert (i' = i) as -> by congruence.
        split; [done|]. by apply Htr.
      * left. split; [lia|]. by exists i', x.
    + intros x m. rewrite Ht. case_bool_decide.
      * intros [= <-]. lia.
      * intros Hm%Htr. destruct Hm. lia.
  - intros x m. rewrite (lastWriter_S x k m i Hk), Ht.
    case_bool_decide; [|apply Htr]. split; [by intros [= ->]|by intros ->].
Qed.

Lemma forwardPass_FwdInv first l :
  drop first bb = l ->
  forall s, FwdInv first s ->
            FwdInv (first + length l) (forwardPass policy first l s).
Proof.
  revert first. induction l as [|i l IH]; intros first Hdrop s Hs.
  - cbn. by rewrite Nat.add_0_r.
  - cbn [forwardPass length]. unfold seqT.
    replace (first + S (length l))%nat with (S first + length l)%nat by lia.
    assert (Hi : bb !! first = Some i).
    { rewrite <- (Nat.add_0_r first), <- lookup_drop, Hdrop. done. }
    apply IH.
    + rewrite (drop_S _ _ _ Hi) in Hdrop. congruence.
    + by apply forwardInsn_FwdInv.
Qed.

Lemma writesAt_lt m x : writesAt m x -> (m < length bb)%nat.
Proof. intros (i & Hi & _). by eapply lookup_lt_Some. Qed.

Lemma backwardInsn_BwdInv k i s :
  bb !! k = Some i -> BwdInv (S k) s -> BwdInv k (backwardInsn policy k i s).
Proof.
  intros Hk [Hs Htr].
  assert (Hkn : (k < length bb)%nat) by (by eapply lookup_lt_Some).
  rewrite backwardInsn_slots, updateWrites_slots.
  destruct (indexNode_edges (length bb)
              (fun m => (S k <= m < length bb)%nat) k (readIndices i)
              (fun m H => H) _ s Hs) as [H2 Ht2].
  set (s2 := forT (readIndices i) (fun x => addDependencyIndexNode x k) s)
    in *.
  destruct (setTrackers_spec (writeIndices i) k s2) as [Hn3 Ht3].
  set (s3 := forT (writeIndices i) (fun x => setTracker x k) s2) in *.
  assert (Ht : forall x, trackerNodes s3 !! x
                         = if bool_decide (x ∈ writeIndices i) then Some k
                           else trackerNodes s !! x).
  { intros x. rewrite Ht3, Ht2. done. }
  split.
  - eapply PassInv_edges; [|eapply (PassInv_nodes _ _ _ _ s2); [done| |exact H2]].
    + intros p c [Hraw|(Hp & i' & x & Hi' & Hx & Hnext)]; [by left; left|].
      destruct (decide (p = k)) as [->|Hne].
      * right. split; [done|]. exists x.
        assert (i' = i) as -> by congruence.
        split; [done|]. by apply Htr.
      * left. right. split; [lia|]. by exists i', x.
    + intros x m. rewrite Ht. case_bool_decide.
      * intros [= <-]. lia.
      * intros Hm%Htr. destruct Hm as (? & ?%writesAt_lt & _). lia.
  - intros x m. rewrite (nextWriter_pred x k m i Hk), Ht.
    case_bool_decide; [|apply Htr]. split; [by intros [= ->]|by intros ->].
Qed.

Lemma backwardLoop_BwdInv k :
  (k <= length bb)%nat ->
  forall s, BwdInv k s ->
  BwdInv 0 (forT (reverse (seq 0 k))
                 (fun insnID s => match insnOf s insnID with
                                  | Some i => backwardInsn policy insnID i s
                                  | None => s
                                  end) s).
Proof.
  induction k as [|k IH]; intros Hk s Hs; [done|].
  rewrite reverse_seq_S. unfold forT. cbn [fold_left].
  apply IH; [lia|].
  pose proof Hs as ((Hd & Hn & _) & _).
  rewrite (insnOf_inv s k Hd) by lia.
  destruct (lookup_lt_is_Some_2 bb k) as [i Hi]; [lia|].
  rewrite Hi. by apply backwardInsn_BwdInv.
Qed.

(** The dependency edges of the DAG that [buildDAG] leaves. *)
Lemma buildDAG_deps p c :
  rawEdges (length bb) p c \/ warEdges 0 p c ->
  hasEdge (buildDAG policy bb) p c.
Proof.
  unfold buildDAG. set (n := length bb). unfold seqT.
  assert (H0 : FwdInv 0 emptyScheduler).
  { split.
    - split_and!; try done. intros ? ? [? _]. lia.
    - intros x m. cbn. rewrite lookup_empty. split; [done|].
      intros [? _]. lia. }
  set (s1 := forwardPass policy 0 bb emptyScheduler).
  assert (H1 : FwdInv (0 + length bb) s1)
    by (by apply (forwardPass_FwdInv 0 bb)).
  cbn [Nat.add] in H1. fold n in H1. destruct H1 as [H1 _].
  set (s2 := trackerClear s1).
  assert (H2 : BwdInv n s2).
  { split.
    - eapply PassInv_edges;
        [|eapply (PassInv_nodes _ _ _ _ s1); [done| |exact H1]].
      + intros ? ? [?|[Hp (i & _ & Hi & _)]]; [done|].
        apply lookup_lt_Some in Hi. fold n in Hi. lia.
      + intros idx m. cbn. by rewrite lookup_empty.
    - intros x m. cbn. rewrite lookup_empty. split; [done|].
      intros (Hm & Hw%writesAt_lt & _). fold n in Hw. lia. }
  set (s3 := backwardPass policy n s2).
  assert (H3 : BwdInv 0 s3) by (by apply backwardLoop_BwdInv).
  destruct H3 as [H3 _].
  set (s4 := barrierPass n s3).
  pose proof (barrierPass_PassInv n _ _ s3 H3) as H4.
  fold s4 in H4.
  destruct (readyLoop_spec (seq 0 n) s4) as (Hn & _).
  fold (readyPass n) in Hn.
  destruct H4 as (_ & _ & HE & _).
  intros Hpc. destruct (HE p c) as (nd & Hp & Hc); [by left|].
  exists nd. by rewrite Hn.
Qed.

End DagBuild.

(** ** The scheduling loop over a forward DAG *)

(** The edges of the DAG that are still counted once the nodes of
[retired] have retired: those that leave the other nodes. *)
Definition live (G : list (list nat)) (retired : list nat)
  : list (list nat) :=
  imap (fun p l => if bool_decide (p ∈ retired) then [] else l) G.

(** In the list [out], every node comes after the nodes it depends on. *)
Definition respects (G : list (list nat)) (out : list nat) : Prop :=
  forall l1 c l2 p l, out = l1 ++ c :: l2 -> G !! p = Some l -> c ∈ l ->
                      p ∈ l1.

Definition rcOf (nds : list ScheduleDAGNode) (a : nat) : Z :=
  match nds !! a with
  | Some nd => retiredCycle nd
  | None => 0
  end.

(** Number of idle cycles after which every node of [act] has retired. *)
Definition waiting (nds : list ScheduleDAGNode) (cycle : Z)
           (act : list nat) : nat :=
  sum_list (map (fun a => Z.to_nat (rcOf nds a - cycle)) act).

Lemma live_lookup G r p :
  live G r !! p
  = (fun l => if bool_decide (p ∈ r) then [] else l) <$> G !! p.
Proof. unfold live. by rewrite list_lookup_imap. Qed.

Lemma live_nil G : live G [] = G.
Proof.
  apply list_eq. intros p. rewrite live_lookup.
  destruct (G !! p); [|done]. cbn.
  rewrite bool_decide_eq_false_2; [done|]. by intros ?%elem_of_nil.
Qed.

Lemma live_cons G r a :
  live G (a :: r) = <[a := []]> (live G r).
Proof.
  apply list_eq. intros p. rewrite live_lookup.
  destruct (decide (a = p)) as [->|Hne].
  - destruct (G !! p) as [l|] eqn:Hp.
    + rewrite list_lookup_insert_eq.
      * cbn. rewrite bool_decide_eq_true_2; [done|left].
      * unfold live. rewrite length_imap. by eapply lookup_lt_Some.
    + cbn. symmetry. apply lookup_ge_None.
      rewrite length_insert. unfold live. rewrite length_imap.
      by apply lookup_ge_None.
  - rewrite list_lookup_insert_ne by done. rewrite live_lookup.
    destruct (G !! p); [|done]. cbn. f_equal.
    destruct (decide (p ∈ r)).
    + rewrite !bool_decide_eq_true_2; [done|done|by right].
    + rewrite !bool_decide_eq_false_2; [done|done|].
      intros [?|?]%elem_of_cons; done.
Qed.

Lemma occ_live_cons G r a ga c :
  a ∉ r -> G !! a = Some ga ->
  (occ c (live G (a :: r)) + count_occ Nat.eq_dec ga c
   = occ c (live G r))%nat.
Proof.
  intros Ha HG. rewrite live_cons.
  assert (Hl : live G r !! a = Some ga).
  { rewrite live_lookup, HG. cbn. by rewrite bool_decide_eq_false_2. }
  pose proof (occ_insert c (live G r) a ga [] Hl) as Ho.
  cbn [count_occ] in Ho. lia.
Qed.

Lemma occ_pos c ls l : l ∈ ls -> c ∈ l -> (0 < occ c ls)%nat.
Proof.
  intros Hl Hc. destruct (occ c ls) eqn:Ho; [|lia].
  by destruct (occ_zero_inv c ls l Ho Hl).
Qed.

Lemma occ_live_zero G r c p l :
  occ c (live G r) = 0%nat -> G !! p = Some l -> c ∈ l -> p ∈ r.
Proof.
  intros Ho Hp Hc. destruct (decide (p ∈ r)) as [|Hn]; [done|].
  assert (Hl : live G r !! p = Some l).
  { rewrite live_lookup, Hp. cbn. by rewrite bool_decide_eq_false_2. }
  apply list_elem_of_lookup_2 in Hl.
  pose proof (occ_pos c _ l Hl Hc). lia.
Qed.

Lemma occ_live_zero_intro G r c :
  (forall p l, G !! p = Some l -> c ∈ l -> p ∈ r) ->
  occ c (live G r) = 0%nat.
Proof.
  intros H. apply occ_zero. intros l Hl Hc.
  apply list_elem_of_lookup_1 in Hl as [p Hp].
  rewrite live_lookup in Hp.
  destruct (G !! p) as [g|] eqn:HG; [|done]. cbn in Hp.
  injection Hp as <-. case_bool_decide as Hr; [by apply elem_of_nil in Hc|].
  apply Hr. eauto.
Qed.

Lemma respects_snoc G out n :
  respects G out ->
  (forall p l, G !! p = Some l -> n ∈ l -> p ∈ out) ->
  respects G (out ++ [n]).
Proof.
  intros Hr Hn l1 c l2 p l Heq Hp Hc.
  destruct (decide (l2 = [])) as [->|Hne].
  - apply app_inj_tail in Heq as [-> ->]. eauto.
  - destruct (exists_last Hne) as (l2' & x & ->).
    change (l1 ++ c :: l2' ++ [x]) with (l1 ++ (c :: l2') ++ [x]) in Heq.
    rewrite app_assoc in Heq. apply app_inj_tail in Heq as [-> ->].
    eapply Hr; eauto.
Qed.

(** The traversal of the children of a retiring node, for counters
[refNum] that hold [cnt]: every counter goes down by the number of times
its node is a child, and the children whose counter reaches zero join the
ready list, once each. *)
Lemma releaseChildren_spec cs :
  forall s (cnt : nat -> nat) rest s',
  (forall c nd, insnNodes s !! c = Some nd -> refNum nd = Z.of_nat (cnt c)) ->
  (forall c, (Z.of_nat (cnt c) < 2 ^ 32)%Z) ->
  (forall c, (count_occ Nat.eq_dec cs c <= cnt c)%nat) ->
  (forall c, c ∈ cs -> (c < length (insnNodes s))%nat) ->
  releaseChildren cs s = (rest, s') ->
  childrenOf (insnNodes s') = childrenOf (insnNodes s) /\
  map insn (insnNodes s') = map insn (insnNodes s) /\
  map retiredCycle (insnNodes s') = map retiredCycle (insnNodes s) /\
  (forall c nd, insnNodes s' !! c = Some nd ->
     refNum nd = Z.of_nat (cnt c - count_occ Nat.eq_dec cs c)) /\
  active s' = active s /\
  exists new, ready s' = ready s ++ new /\ NoDup new /\
    forall c, c ∈ new <-> (c ∈ cs /\ cnt c = count_occ Nat.eq_dec cs c).
Proof.
  induction cs as [|c cs IH]; intros s cnt rest s' Href Hfit Hle Hlt Hrel.
  - cbn in Hrel. injection Hrel as <- <-. split_and!; try done.
    + intros c nd Hc. rewrite (Href c nd Hc). cbn. f_equal. lia.
    + exists []. rewrite app_nil_r. split_and!; [done|constructor|].
      intros c. split; [by intros ?%elem_of_nil|by intros [?%elem_of_nil _]].
  - cbn [releaseChildren] in Hrel.
    set (nds1 := alter decrRefNum c (insnNodes s)) in *.
    set (s1 := withInsnNodes s nds1) in *.
    assert (Hlen1 : length nds1 = length (insnNodes s))
      by (subst nds1; by rewrite length_alter).
    destruct (lookup_lt_is_Some_2 (insnNodes s) c) as [ndc Hndc];
      [apply Hlt; left|].
    assert (Hc1 : (1 <= cnt c)%nat).
    { specialize (Hle c). cbn in Hle.
      destruct (Nat.eq_dec c c); [lia|done]. }
    set (cnt1 := fun x => if decide (x = c) then (cnt c - 1)%nat else cnt x).
    assert (Href1 : forall x nd, nds1 !! x = Some nd ->
                                 refNum nd = Z.of_nat (cnt1 x)).
    { intros x nd. subst nds1 cnt1. rewrite list_lookup_alter. cbn.
      destruct (decide (c = x)) as [<-|Hx].
      - rewrite decide_True by done. rewrite Hndc. cbn.
        intros [= <-]. cbn. rewrite (Href c ndc Hndc).
        specialize (Hfit c). rewrite wrap32_small by lia. lia.
      - rewrite decide_False by done. apply Href. }
    assert (Hfit1 : forall x, (Z.of_nat (cnt1 x) < 2 ^ 32)%Z).
    { intros x. subst cnt1. cbn. pose proof (Hfit x). pose proof (Hfit c).
      destruct (decide (x = c)); lia. }
    assert (Hle1 : forall x, (count_occ Nat.eq_dec cs x <= cnt1 x)%nat).
    { intros x. subst cnt1. cbn. specialize (Hle x). cbn in Hle.
      destruct (decide (x = c)) as [->|Hx].
      - destruct (Nat.eq_dec c c); [lia|done].
      - destruct (Nat.eq_dec c x); [by subst|done]. }
    assert (Hlt1 : forall x, x ∈ cs -> (x < length nds1)%nat).
    { intros x Hx. rewrite Hlen1. apply Hlt. by right. }
    assert (Hch1 : childrenOf nds1 = childrenOf (insnNodes s))
      by (by apply childrenOf_alter_same).
    assert (Hin1 : map insn nds1 = map insn (insnNodes s))
      by (by apply map_insn_alter).
    assert (Hrc1 : map retiredCycle nds1 = map retiredCycle (insnNodes s)).
    { apply list_eq. intros j. subst nds1.
      rewrite !list_lookup_fmap, list_lookup_alter.
      destruct (decide (c = j)); subst; by destruct (insnNodes s !! _). }
    assert (Hcnt : forall x,
               (cnt1 x - count_occ Nat.eq_dec cs x
                = cnt x - count_occ Nat.eq_dec (c :: cs) x)%nat).
    { intros x. subst cnt1. cbn.
      destruct (decide (x = c)) as [->|Hx].
      - destruct (Nat.eq_dec c c); [lia|done].
      - destruct (Nat.eq_dec c x); [by subst|done]. }
    assert (Hc0 : refNum <$> nds1 !! c = Some (Z.of_nat (cnt c - 1))).
    { destruct (lookup_lt_is_Some_2 nds1 c) as [nd' Hnd']; [rewrite Hlen1;
        apply Hlt; left|].
      rewrite Hnd'. cbn. f_equal. rewrite (Href1 c nd' Hnd').
      subst cnt1. cbn. by rewrite decide_True. }
    case_bool_decide as Hzero.
    + assert (Hone : cnt c = 1%nat).
      { cbn [insnNodes withInsnNodes s1] in Hzero. rewrite Hc0 in Hzero.
        injection Hzero as Hz. lia. }
      destruct (IH (pushReady c s1) cnt1 rest s' Href1 Hfit1 Hle1 Hlt1 Hrel)
        as (Hch & Hin & Hrc & Hr & Ha & new & Hrdy & Hnd & Hnew).
      split_and!.
      * by rewrite Hch.
      * by rewrite Hin.
      * by rewrite Hrc.
      * intros x nd Hx. rewrite (Hr x nd Hx), Hcnt. done.
      * by rewrite Ha.
      * exists (c :: new).
        assert (Hc_cs : c ∉ cs).
        { specialize (Hle c). cbn in Hle.
          destruct (Nat.eq_dec c c); [|done].
          intros Hin'%list_elem_of_In%(count_occ_In Nat.eq_dec). lia. }
        split_and!.
        -- rewrite Hrdy. cbn. by rewrite <- app_assoc.
        -- constructor; [|done]. rewrite Hnew. intros [? _]. done.
        -- intros x. rewrite elem_of_cons, Hnew, elem_of_cons.
           subst cnt1. cbn.
           destruct (decide (x = c)) as [->|Hx].
           ++ destruct (Nat.eq_dec c c); [|done].
              assert (Hz : count_occ Nat.eq_dec cs c = 0%nat).
              { apply (count_occ_not_In Nat.eq_dec).
                by rewrite <- list_elem_of_In. }
              rewrite Hz. split; [intros _|by left].
              split; [by left|lia].
           ++ destruct (Nat.eq_dec c x); [by subst|]. tauto.
    + assert (Hne : cnt c <> 1%nat).
      { intros H1. apply Hzero. cbn [insnNodes withInsnNodes s1].
        rewrite Hc0, H1. done. }
      destruct (releaseChildren cs s1) as [rest' s2] eqn:Hrel'.
      injection Hrel as <- <-.
      destruct (IH s1 cnt1 rest' s2 Href1 Hfit1 Hle1 Hlt1 Hrel')
        as (Hch & Hin & Hrc & Hr & Ha & new & Hrdy & Hnd & Hnew).
      split_and!.
      * by rewrite Hch.
      * by rewrite Hin.
      * by rewrite Hrc.
      * intros x nd Hx. rewrite (Hr x nd Hx), Hcnt. done.
      * by rewrite Ha.
      * exists new. split_and!; [done|done|].
        intros x. rewrite Hnew, elem_of_cons. subst cnt1. cbn.
        specialize (Hle1 x). cbn in Hle1.
        destruct (decide (x = c)) as [->|Hx].
        -- destruct (Nat.eq_dec c c); [|done].
           split; [intros [? ?]; split; [by right|lia]|].
           intros [_ ?]. split; [|lia].
           apply list_elem_of_In, (count_occ_In Nat.eq_dec). lia.
        -- destruct (Nat.eq_dec c x); [by subst|]. tauto.
Qed.

Lemma rcOf_ext nds nds' a :
  map retiredCycle nds' = map retiredCycle nds -> rcOf nds' a = rcOf nds a.
Proof.
  intros Heq. unfold rcOf.
  assert (H : retiredCycle <$> nds' !! a = retiredCycle <$> nds !! a).
  { rewrite <- !list_lookup_fmap.
    change (retiredCycle <$> nds') with (map retiredCycle nds').
    by rewrite Heq. }
  destruct (nds' !! a), (nds !! a); cbn in H; congruence.
Qed.

Lemma waiting_ext nds nds' cycle act :
  map retiredCycle nds' = map retiredCycle nds ->
  waiting nds' cycle act = waiting nds cycle act.
Proof.
  intros Heq. unfold waiting. f_equal. apply map_ext. intros a.
  by rewrite (rcOf_ext nds nds').
Qed.

Lemma map_retiredCycle_alter f i nds :
  (forall nd, retiredCycle (f nd) = retiredCycle nd) ->
  map retiredCycle (alter f i nds) = map retiredCycle nds.
Proof.
  intros Hf. apply list_eq. intros j.
  rewrite !list_lookup_fmap, list_lookup_alter.
  case_decide; subst; destruct (nds !! _); cbn; rewrite ?Hf; done.
Qed.

Lemma map_refNum_alter f i nds :
  (forall nd, refNum (f nd) = refNum nd) ->
  map refNum (alter f i nds) = map refNum nds.
Proof.
  intros Hf. apply list_eq. intros j.
  rewrite !list_lookup_fmap, list_lookup_alter.
  case_decide; subst; destruct (nds !! _); cbn; rewrite ?Hf; done.
Qed.

Lemma map_lookup_eq {A B : Type} (f : A -> B) (l l' : list A) i x' :
  map f l' = map f l -> l' !! i = Some x' ->
  exists x, l !! i = Some x /\ f x = f x'.
Proof.
  intros Heq Hx.
  assert (H : f <$> l !! i = Some (f x')).
  { rewrite <- list_lookup_fmap. change (f <$> l) with (map f l).
    rewrite <- Heq. change (map f l') with (f <$> l').
    by rewrite list_lookup_fmap, Hx. }
  destruct (l !! i) as [x|]; [|done]. injection H as H. eauto.
Qed.

Section SchedLoop.
Context {defs : GenDefs} {ctx : GenContext}.
Variable policy : SchedulePolicy.
Variable bb : list SelectionInstruction.
Variable G : list (list nat).
Hypothesis G_forward :
  forall p l c, G !! p = Some l -> c ∈ l -> (p < c < length G)%nat.

(** The invariant of [scheduleDAG], for the nodes [nds], the ready list,
the active list and the instructions emitted so far, [retired] being the
nodes that have left the active list. *)
Record SInv (retired : list nat) (nds : list ScheduleDAGNode)
       (rdy act out : list nat) : Prop := {
  si_len : length nds = length G;
  si_insn : map insn nds = bb;
  si_perm : out ≡ₚ retired ++ act;
  si_nodup : NoDup (out ++ rdy);
  si_bound : forall x, x ∈ out ++ rdy -> (x < length G)%nat;
  si_children : forall p, p ∉ retired -> childrenOf nds !! p = G !! p;
  si_refs : forall c nd, nds !! c = Some nd ->
                         refNum nd = Z.of_nat (occ c (live G retired));
  si_fit : forall c, (Z.of_nat (occ c (live G retired)) < 2 ^ 32)%Z;
  si_zero : forall c, (c < length G)%nat ->
                      (c ∈ out ++ rdy <-> occ c (live G retired) = 0%nat);
  si_topo : respects G out;
  si_rc : forall a, a ∈ act -> (0 <= rcOf nds a < 2 ^ 32)%Z
}.

(** One node [a] leaves the active list. *)
Lemma retire_one retired s kept a act out nd rest s1 :
  SInv retired (insnNodes s) (ready s) (kept ++ a :: act) out ->
  insnNodes s !! a = Some nd ->
  releaseChildren (children nd) s = (rest, s1) ->
  let nds2 := alter (setChildren rest) a (insnNodes s1) in
  SInv (a :: retired) nds2 (ready s1) (kept ++ act) out /\
  map retiredCycle nds2 = map retiredCycle (insnNodes s) /\
  active s1 = active s.
Proof.
  intros [Hlen Hinsn Hperm Hnd Hbound Hch Href Hfit Hzero Htopo Hrc] Ha Hrel.
  cbn zeta.
  assert (Hnd' : NoDup (retired ++ kept ++ a :: act)).
  { rewrite <- Hperm. by apply NoDup_app in Hnd as (? & _). }
  assert (Har : a ∉ retired).
  { apply NoDup_app in Hnd' as (_ & Hdis & _). intros Hin.
    apply (Hdis a Hin). apply elem_of_app. right. left. }
  assert (Hga : G !! a = Some (children nd)).
  { rewrite <- (Hch a Har). unfold childrenOf.
    by rewrite list_lookup_fmap, Ha. }
  assert (Hocc : forall c,
             (occ c (live G (a :: retired))
              + count_occ Nat.eq_dec (children nd) c
              = occ c (live G retired))%nat)
    by (intros c; by apply occ_live_cons).
  destruct (releaseChildren_spec (children nd) s
              (fun c => occ c (live G retired)) rest s1)
    as (Hch1 & Hin1 & Hrc1 & Href1 & Hact1 & new & Hrdy & Hnew & Hnewin);
    try done.
  { intros c. specialize (Hocc c). lia. }
  { intros c Hc. rewrite Hlen. by apply (G_forward a (children nd) c). }
  assert (Hsub : forall c,
             (occ c (live G retired) - count_occ Nat.eq_dec (children nd) c
              = occ c (live G (a :: retired)))%nat)
    by (intros c; specialize (Hocc c); lia).
  assert (Hnewpos : forall x, x ∈ new ->
                              x ∈ children nd /\
                              (0 < occ x (live G retired))%nat /\
                              occ x (live G (a :: retired)) = 0%nat).
  { intros x [Hx Heq]%Hnewin. split; [done|].
    apply list_elem_of_In, (count_occ_In Nat.eq_dec) in Hx.
    specialize (Hocc x). lia. }
  split_and!; [split| |done].
  - rewrite length_alter, <- Hlen.
    rewrite <- (length_map insn (insnNodes s1)), Hin1. apply length_map.
  - rewrite map_insn_alter by done. by rewrite Hin1.
  - rewrite Hperm. cbn. rewrite <- !Permutation_middle. done.
  - rewrite Hrdy, app_assoc. apply NoDup_app. split_and!; [done| |done].
    intros x Hx Hxn. apply Hnewpos in Hxn as (Hxc & Hpos & _).
    apply Hzero in Hx; [lia|]. by eapply Hbound.
  - intros x. rewrite Hrdy, app_assoc, elem_of_app.
    intros [Hx|(Hxc & _)%Hnewpos]; [by apply Hbound|].
    by apply (G_forward a (children nd) x).
  - intros p Hp. apply not_elem_of_cons in Hp as [Hpa Hp].
    rewrite <- (Hch p Hp), <- Hch1. unfold childrenOf.
    rewrite !list_lookup_fmap, list_lookup_alter_ne by done. done.
  - intros c nd2 Hc. rewrite list_lookup_alter in Hc.
    rewrite <- Hsub.
    destruct (decide (a = c)) as [<-|Hne].
    + destruct (insnNodes s1 !! a) as [nd1|] eqn:H1; [|done].
      cbn in Hc. injection Hc as <-. cbn. by apply Href1.
    + by apply Href1.
  - intros c. specialize (Hocc c). specialize (Hfit c). lia.
  - intros c Hc. rewrite Hrdy, app_assoc, elem_of_app. split.
    + intros [Hx|Hx].
      * apply Hzero in Hx; [|done]. specialize (Hocc c). lia.
      * by apply Hnewpos in Hx as (_ & _ & ?).
    + intros Hz.
      destruct (decide (occ c (live G retired) = 0%nat)) as [H0|Hpos].
      * left. by apply Hzero.
      * right. apply Hnewin. specialize (Hocc c). split; [|lia].
        apply list_elem_of_In, (count_occ_In Nat.eq_dec). lia.
  - done.
  - intros x Hx. rewrite (rcOf_ext (insnNodes s)).
    + apply Hrc. apply elem_of_app in Hx as [?|?]; apply elem_of_app;
        [by left|right; by right].
    + rewrite map_retiredCycle_alter by done. done.
  - rewrite map_retiredCycle_alter by done. done.
Qed.

Lemma waiting_cons nds cycle a act :
  waiting nds cycle (a :: act)
  = (Z.to_nat (rcOf nds a - cycle) + waiting nds cycle act)%nat.
Proof. done. Qed.

(** The loop over the active list: the invariant is kept, the nodes that
stay are not yet due, and no [retiredCycle] changes. *)
Lemma retireActive_spec cycle out act :
  forall kept retired s kept' s',
  SInv retired (insnNodes s) (ready s) (kept ++ act) out ->
  retireActive cycle act s = (kept', s') ->
  (exists retired',
     SInv retired' (insnNodes s') (ready s') (kept ++ kept') out) /\
  map retiredCycle (insnNodes s') = map retiredCycle (insnNodes s) /\
  (forall a, a ∈ kept' -> (cycle < rcOf (insnNodes s) a)%Z) /\
  (waiting (insnNodes s') cycle kept' <= waiting (insnNodes s) cycle act)%nat.
Proof.
  induction act as [|a act IH]; intros kept retired s kept' s' Hinv Hret.
  - cbn in Hret. injection Hret as <- <-. split_and!; try done.
    + by exists retired.
    + by intros a ?%elem_of_nil.
  - cbn [retireActive] in Hret.
    assert (Hlt : (a < length (insnNodes s))%nat).
    { rewrite (si_len _ _ _ _ _ Hinv).
      apply (si_bound _ _ _ _ _ Hinv). apply elem_of_app. left.
      rewrite (si_perm _ _ _ _ _ Hinv). rewrite !elem_of_app.
      right. right. left. }
    destruct (lookup_lt_is_Some_2 _ _ Hlt) as [nd Hnd].
    rewrite Hnd in Hret.
    assert (Hrca : rcOf (insnNodes s) a = retiredCycle nd)
      by (unfold rcOf; by rewrite Hnd).
    case_bool_decide as Hdue.
    + destruct (releaseChildren (children nd) s) as [rest s1] eqn:Hrel.
      destruct (retire_one retired s kept a act out nd rest s1 Hinv Hnd Hrel)
        as (Hinv2 & Hrc2 & _).
      cbn zeta in Hinv2, Hrc2.
      set (s2 := withInsnNodes s1
                   (alter (setChildren rest) a (insnNodes s1))) in *.
      destruct (IH kept (a :: retired) s2 kept' s' Hinv2 Hret)
        as (Hex & Hrc' & Hkept & Hw).
      split_and!.
      * done.
      * rewrite Hrc'. exact Hrc2.
      * intros x Hx. rewrite <- (rcOf_ext _ (insnNodes s2) x Hrc2).
        by apply Hkept.
      * rewrite waiting_cons.
        rewrite (waiting_ext _ (insnNodes s2) cycle act Hrc2) in Hw. lia.
    + destruct (retireActive cycle act s) as [kept2 s2] eqn:Hret2.
      injection Hret as <- <-.
      assert (Hinv' : SInv retired (insnNodes s) (ready s)
                           ((kept ++ [a]) ++ act) out)
        by (by rewrite <- app_assoc).
      destruct (IH (kept ++ [a]) retired s kept2 s2 Hinv' Hret2)
        as ((retired' & Hinv2) & Hrc' & Hkept & Hw).
      split_and!.
      * exists retired'. by rewrite <- app_assoc in Hinv2.
      * done.
      * intros x [->|Hx]%elem_of_cons; [lia|by apply Hkept].
      * rewrite !waiting_cons.
        rewrite (rcOf_ext (insnNodes s) (insnNodes s2) a Hrc'). lia.
Qed.

(** The invariant of the loop of [scheduleDAG]. *)
Record BInv (st : BlockSched) : Prop := {
  bi_sinv : exists retired,
      SInv retired (insnNodes (scheduler st)) (ready (scheduler st))
           (active (scheduler st)) (insnList st);
  bi_cycle : (0 <= cycle st < 2 ^ 32)%Z;
  bi_num : (Z.of_nat (length (insnList st)) + insnNum st
            = Z.of_nat (length G))%Z
}.

Definition waitingOf (st : BlockSched) : nat :=
  waiting (insnNodes (scheduler st)) (cycle st) (active (scheduler st)).

Lemma retirePhase_spec st :
  BInv st ->
  BInv (retirePhase st) /\
  cycle (retirePhase st) = cycle st /\
  insnNum (retirePhase st) = insnNum st /\
  insnList (retirePhase st) = insnList st /\
  (forall a, a ∈ active (scheduler (retirePhase st)) ->
             (cycle st < rcOf (insnNodes (scheduler (retirePhase st))) a)%Z) /\
  (waitingOf (retirePhase st) <= waitingOf st)%nat.
Proof.
  intros [(retired & Hinv) Hcycle Hnum]. unfold retirePhase, waitingOf.
  destruct (retireActive (cycle st) (active (scheduler st)) (scheduler st))
    as [kept s] eqn:Hret.
  destruct (retireActive_spec (cycle st) (insnList st)
              (active (scheduler st)) [] retired (scheduler st) kept s
              Hinv Hret) as ((retired' & Hinv') & Hrc & Hkept & Hw).
  cbn. split_and!; try done.
  - split; cbn; try done. by exists retired'.
  - intros a Ha. rewrite (rcOf_ext _ _ a Hrc). by apply Hkept.
Qed.

Lemma toSchedule_Some rdy n rdy' :
  toSchedule policy rdy = Some (n, rdy') -> rdy ≡ₚ n :: rdy'.
Proof.
  unfold toSchedule. destruct policy.
  - destruct (last rdy) as [x|] eqn:Hlast; [|done].
    apply last_Some in Hlast as [l ->]. rewrite removelast_last.
    intros [= <- <-]. by rewrite Permutation_app_comm.
  - destruct rdy; [done|]. by intros [= <- <-].
Qed.

Lemma toSchedule_None rdy : toSchedule policy rdy = None -> rdy = [].
Proof.
  unfold toSchedule. destruct policy.
  - destruct (last rdy) eqn:Hlast; [done|]. by apply last_None in Hlast.
  - by destruct rdy.
Qed.

(** With nothing ready and nothing active, everything has been emitted. *)
Lemma all_emitted retired nds out c :
  SInv retired nds [] [] out -> (c < length G)%nat -> c ∈ out.
Proof.
  intros Hinv. induction (lt_wf c) as [c _ IH]. intros Hc.
  pose proof (si_zero _ _ _ _ _ Hinv c Hc) as Hz.
  rewrite app_nil_r in Hz. apply Hz.
  apply occ_live_zero_intro. intros p l Hp Hcl.
  destruct (G_forward p l c Hp Hcl) as [Hpc _].
  assert (Hpo : p ∈ out) by (apply IH; lia).
  rewrite (si_perm _ _ _ _ _ Hinv), app_nil_r in Hpo. done.
Qed.

Lemma emitted_le retired nds rdy act out :
  SInv retired nds rdy act out -> (length out <= length G)%nat.
Proof.
  intros Hinv.
  assert (Hsub : out ⊆+ seq 0 (length G)).
  { apply NoDup_submseteq.
    - pose proof (si_nodup _ _ _ _ _ Hinv) as Hnd.
      by apply NoDup_app in Hnd as (? & _).
    - intros x Hx. apply elem_of_seq. split; [lia|]. cbn.
      apply (si_bound _ _ _ _ _ Hinv). apply elem_of_app. by left. }
  apply submseteq_length in Hsub. by rewrite length_seq in Hsub.
Qed.

Lemma emitted_all retired nds out :
  SInv retired nds [] [] out -> length out = length G.
Proof.
  intros Hinv. apply Nat.le_antisymm; [by eapply emitted_le|].
  assert (Hsub : seq 0 (length G) ⊆+ out).
  { apply NoDup_submseteq; [apply NoDup_seq|].
    intros x Hx%elem_of_seq. eapply all_emitted; [done|lia]. }
  apply submseteq_length in Hsub. by rewrite length_seq in Hsub.
Qed.

Lemma waiting_tick nds cycle act :
  (forall a, a ∈ act -> (cycle < rcOf nds a)%Z) ->
  (waiting nds (cycle + 1) act + length act = waiting nds cycle act)%nat.
Proof.
  induction act as [|a act IH]; intros Hact; [done|].
  rewrite !waiting_cons. cbn [length].
  assert (Ha : (cycle < rcOf nds a)%Z) by (apply Hact; left).
  assert (IH' : (waiting nds (cycle + 1) act + length act
                 = waiting nds cycle act)%nat)
    by (apply IH; intros x Hx; apply Hact; by right).
  lia.
Qed.

Lemma rcOf_alter_eq r n nds :
  (n < length nds)%nat -> rcOf (alter (setRetiredCycle r) n nds) n = r.
Proof.
  intros Hn. unfold rcOf. rewrite list_lookup_alter_eq.
  destruct (lookup_lt_is_Some_2 nds n Hn) as [nd ->]. done.
Qed.

Lemma rcOf_alter_ne f n a nds :
  n <> a -> rcOf (alter f n nds) a = rcOf nds a.
Proof. intros Hn. unfold rcOf. by rewrite list_lookup_alter_ne. Qed.

(** An instruction leaves the ready list for the active list and the
block. *)
Lemma issue_one retired nds rdy act out n rdy' r :
  SInv retired nds rdy act out ->
  rdy ≡ₚ n :: rdy' -> (0 <= r < 2 ^ 32)%Z ->
  SInv retired (alter (setRetiredCycle r) n nds) rdy' (act ++ [n])
       (out ++ [n]).
Proof.
  intros [Hlen Hinsn Hperm Hnd Hbound Hch Href Hfit Hzero Htopo Hrc] Hrdy Hr.
  assert (Hp : (out ++ [n]) ++ rdy' ≡ₚ out ++ rdy).
  { rewrite <- app_assoc. cbn. by rewrite Hrdy. }
  assert (Hn : (n < length G)%nat).
  { apply Hbound. rewrite Hrdy, elem_of_app. right. left. }
  split.
  - by rewrite length_alter.
  - by rewrite map_insn_alter.
  - by rewrite Hperm, app_assoc.
  - by rewrite Hp.
  - intros x. rewrite Hp. apply Hbound.
  - intros p Hpr. rewrite childrenOf_alter_same by done. by apply Hch.
  - intros c nd. rewrite list_lookup_alter.
    destruct (decide (n = c)) as [<-|Hne]; [|apply Href].
    destruct (nds !! n) as [ndn|] eqn:Hndn; [|done].
    cbn. intros [= <-]. cbn. by apply Href.
  - done.
  - intros c Hc. rewrite Hp. by apply Hzero.
  - apply respects_snoc; [done|]. intros p l HG Hnl.
    rewrite Hperm, elem_of_app. left.
    apply (occ_live_zero G retired n p l); [|done|done].
    apply Hzero; [done|]. rewrite Hrdy, elem_of_app. right. left.
  - intros a Ha. destruct (decide (n = a)) as [<-|Hne].
    + rewrite rcOf_alter_eq; [done|]. by rewrite Hlen.
    + rewrite rcOf_alter_ne by done. apply Hrc.
      apply elem_of_app in Ha as [?|Ha]; [done|].
      apply list_elem_of_singleton in Ha. by subst.
Qed.

(** One iteration of the loop: either an instruction is emitted, or the
clock advances towards the retirement of an active node. *)
Lemma scheduleStep_spec st :
  BInv st -> insnNum st <> 0%Z ->
  BInv (scheduleStep policy st) /\
  (insnNum (scheduleStep policy st) = (insnNum st - 1)%Z \/
   (insnNum (scheduleStep policy st) = insnNum st /\
    (waitingOf (scheduleStep policy st) < waitingOf st)%nat)).
Proof.
  intros Hst Hnum0. unfold scheduleStep.
  destruct (retirePhase_spec st Hst) as (Hst1 & Hc1 & Hn1 & Hl1 & Hdue & Hw).
  set (st1 := retirePhase st) in *.
  destruct Hst1 as [(retired & Hinv) Hcycle Hnum].
  unfold issuePhase.
  destruct (toSchedule policy (ready (scheduler st1))) as [[n rdy']|] eqn:Hts.
  - apply toSchedule_Some in Hts.
    assert (Hn : (n < length (insnNodes (scheduler st1)))%nat).
    { rewrite (si_len _ _ _ _ _ Hinv). apply (si_bound _ _ _ _ _ Hinv).
      rewrite Hts, elem_of_app. right. left. }
    destruct (lookup_lt_is_Some_2 _ _ Hn) as [nd Hnd]. rewrite Hnd.
    match goal with
    | |- context [ {| scheduler := _; cycle := ?c; insnNum := _;
                      insnList := _ |} ] => set (cycle1 := c)
    end.
    match goal with
    | |- context [ alter (setRetiredCycle ?c) _ _ ] => set (r := c)
    end.
    assert (Hcycle1 : (0 <= cycle1 < 2 ^ 32)%Z).
    { subst cycle1. destruct (decide (policy = POST_ALLOC));
        [apply wrap32_range|done]. }
    assert (Hr : (0 <= r < 2 ^ 32)%Z).
    { subst r. destruct (decide (policy = POST_ALLOC));
        [apply wrap32_range|done]. }
    split; [|left; cbn; lia].
    split; cbn.
    + exists retired. by apply (issue_one _ _ _ _ _ _ _ _ Hinv Hts Hr).
    + done.
    + rewrite length_app. cbn. lia.
  - apply toSchedule_None in Hts. cbn.
    destruct (active (scheduler st1)) as [|a act] eqn:Hact.
    { exfalso. rewrite Hts in Hinv.
      pose proof (emitted_all _ _ _ Hinv) as Hall. lia. }
    assert (Hdue' : forall x, x ∈ a :: act ->
                      (cycle st1 < rcOf (insnNodes (scheduler st1)) x)%Z)
      by (intros x Hx; rewrite Hc1; by apply Hdue).
    assert (Hra : (cycle st1 < rcOf (insnNodes (scheduler st1)) a < 2 ^ 32)%Z).
    { split; [apply Hdue'; left|].
      apply (si_rc _ _ _ _ _ Hinv). rewrite ?Hact. left. }
    assert (Hwrap : wrap32 (cycle st1 + 1) = (cycle st1 + 1)%Z)
      by (apply wrap32_small; lia).
    rewrite Hwrap. split.
    + split; cbn; [exists retired; by rewrite Hact|lia|done].
    + right. split; [done|]. unfold waitingOf in *. cbn. rewrite ?Hact.
      pose proof (waiting_tick (insnNodes (scheduler st1)) (cycle st1)
                               (a :: act) Hdue') as Ht.
      rewrite ?Hact in Hw. cbn [length] in Ht. lia.
Qed.

Lemma scheduleLoop_mono fuel :
  forall fuel' st st',
  scheduleLoop policy fuel st = Some st' -> (fuel <= fuel')%nat ->
  scheduleLoop policy fuel' st = Some st'.
Proof.
  induction fuel as [|fuel IH]; intros fuel' st st' Hrun Hle.
  - cbn in Hrun. destruct (decide (insnNum st = 0%Z)) as [Hz|]; [|done].
    destruct fuel'; cbn; by rewrite decide_True.
  - cbn in Hrun. destruct (decide (insnNum st = 0%Z)) as [Hz|Hnz].
    + destruct fuel'; cbn; by rewrite decide_True.
    + destruct fuel' as [|fuel']; [lia|]. cbn. rewrite decide_False by done.
      apply IH; [done|lia].
Qed.

Lemma insnNum_nonneg st : BInv st -> (0 <= insnNum st)%Z.
Proof.
  intros [(retired & Hinv) _ Hnum].
  pose proof (emitted_le _ _ _ _ _ Hinv). lia.
Qed.

(** The loop stops: each iteration emits an instruction or brings the
retirement of an active node one cycle closer. *)
Lemma scheduleLoop_terminates st :
  BInv st ->
  exists fuel st', scheduleLoop policy fuel st = Some st' /\ BInv st' /\
                   insnNum st' = 0%Z.
Proof.
  intros Hst. pose proof (insnNum_nonneg st Hst) as Hnn.
  remember (Z.to_nat (insnNum st)) as n eqn:Hn.
  revert st Hst Hnn Hn. induction (lt_wf n) as [n _ IHn].
  intros st Hst Hnn Hn.
  remember (waitingOf st) as w eqn:Hw.
  revert st Hst Hnn Hn Hw. induction (lt_wf w) as [w _ IHw].
  intros st Hst Hnn Hn Hw.
  destruct (decide (insnNum st = 0%Z)) as [Hz|Hnz].
  - exists 0%nat, st. cbn. by rewrite decide_True.
  - destruct (scheduleStep_spec st Hst Hnz) as (Hst' & Hcase).
    pose proof (insnNum_nonneg _ Hst') as Hnn'.
    assert (Hrec : exists fuel st',
               scheduleLoop policy fuel (scheduleStep policy st) = Some st' /\
               BInv st' /\ insnNum st' = 0%Z).
    { destruct Hcase as [Hdec|[Hsame Hlt]].
      - apply (IHn (Z.to_nat (insnNum (scheduleStep policy st))));
          [lia|done|done|done].
      - apply (IHw (waitingOf (scheduleStep policy st))); try done; lia. }
    destruct Hrec as (fuel & st' & Hrun & Hfin).
    exists (S fuel), st'. cbn. by rewrite decide_False.
Qed.

(** What the invariant says once the loop has stopped. *)
Lemma schedule_final st :
  BInv st -> insnNum st = 0%Z ->
  insnList st ≡ₚ seq 0 (length G) /\
  respects G (insnList st) /\
  map insn (insnNodes (scheduler st)) = bb.
Proof.
  intros [(retired & Hinv) _ Hnum] Hz. split_and!.
  - apply submseteq_length_Permutation.
    + apply NoDup_submseteq.
      * pose proof (si_nodup _ _ _ _ _ Hinv) as Hnd.
        by apply NoDup_app in Hnd as (? & _).
      * intros x Hx. apply elem_of_seq. split; [lia|]. cbn.
        apply (si_bound _ _ _ _ _ Hinv). apply elem_of_app. by left.
    + rewrite length_seq. lia.
  - apply (si_topo _ _ _ _ _ Hinv).
  - apply (si_insn _ _ _ _ _ Hinv).
Qed.

(** ** The pre-allocation policy never waits *)

Lemma waiting_zero_nil nds cycle act :
  (forall a, a ∈ act -> (cycle < rcOf nds a)%Z) ->
  waiting nds cycle act = 0%nat -> act = [].
Proof.
  intros Hdue Hw. destruct act as [|a act]; [done|].
  rewrite waiting_cons in Hw.
  assert (cycle < rcOf nds a)%Z by (apply Hdue; left). lia.
Qed.

(** With every active node due, an iteration of the LIFO policy emits an
instruction, leaves the clock alone, and the node it activates is due at
once. *)
Lemma scheduleStep_pre st :
  policy = PRE_ALLOC ->
  BInv st -> insnNum st <> 0%Z -> waitingOf st = 0%nat ->
  BInv (scheduleStep policy st) /\
  insnNum (scheduleStep policy st) = (insnNum st - 1)%Z /\
  cycle (scheduleStep policy st) = cycle st /\
  waitingOf (scheduleStep policy st) = 0%nat.
Proof.
  intros Hpol Hst Hnum0 Hw0.
  destruct (scheduleStep_spec st Hst Hnum0) as (Hst' & Hcase).
  split; [done|].
  destruct (retirePhase_spec st Hst) as (Hst1 & Hc1 & Hn1 & Hl1 & Hdue & Hw).
  unfold scheduleStep in *. set (st1 := retirePhase st) in *.
  assert (Hact : active (scheduler st1) = []).
  { apply (waiting_zero_nil (insnNodes (scheduler st1)) (cycle st1)).
    - intros a Ha. rewrite Hc1. by apply Hdue.
    - unfold waitingOf in *. lia. }
  destruct Hst1 as [(retired & Hinv) Hcycle Hnum].
  unfold issuePhase in *.
  destruct (toSchedule policy (ready (scheduler st1))) as [[n rdy']|] eqn:Hts.
  - apply toSchedule_Some in Hts.
    assert (Hn : (n < length (insnNodes (scheduler st1)))%nat).
    { rewrite (si_len _ _ _ _ _ Hinv). apply (si_bound _ _ _ _ _ Hinv).
      rewrite Hts, elem_of_app. right. left. }
    destruct (lookup_lt_is_Some_2 _ _ Hn) as [nd Hnd].
    rewrite Hnd in *. rewrite Hpol in *.
    rewrite !decide_False by done. cbn.
    split_and!; [lia|done|].
    unfold waitingOf. cbn. rewrite Hact. cbn.
    rewrite rcOf_alter_eq by done. lia.
  - exfalso. apply toSchedule_None in Hts. rewrite Hts, Hact in Hinv.
    pose proof (emitted_all _ _ _ Hinv). lia.
Qed.

(** The LIFO loop takes exactly one iteration per instruction. *)
Lemma scheduleLoop_pre n :
  policy = PRE_ALLOC ->
  forall st, BInv st -> waitingOf st = 0%nat -> insnNum st = Z.of_nat n ->
  (exists st', scheduleLoop policy n st = Some st' /\ BInv st' /\
               insnNum st' = 0%Z /\ cycle st' = cycle st) /\
  (forall fuel, (fuel < n)%nat -> scheduleLoop policy fuel st = None).
Proof.
  intros Hpol. induction n as [|n IH]; intros st Hst Hw Hn.
  - split; [|intros; lia]. exists st. cbn. by rewrite decide_True by done.
  - assert (Hnz : insnNum st <> 0%Z) by lia.
    destruct (scheduleStep_pre st Hpol Hst Hnz Hw) as (Hst' & Hn' & Hc' & Hw').
    destruct (IH _ Hst' Hw') as ((st' & Hrun & Hfin & Hz & Hc) & Hnone);
      [lia|].
    split.
    + exists st'. cbn. rewrite decide_False by done.
      split_and!; [done|done|done|congruence].
    + intros [|fuel] Hf; cbn; rewrite decide_False by done; [done|].
      apply Hnone. lia.
Qed.

(** ** The clock of the post-allocation policy *)

(** Cycles between the clock at which an instruction is picked and the
cycle at which it retires, under the FIFO policy. *)
Definition insnCost (i : SelectionInstruction) : Z :=
  (getThroughputGen7 i (bool_decide (getSimdWidth = 8)) + getLatencyGen7 i)%Z.

Definition costOf (n : nat) : Z := from_option insnCost 0%Z (bb !! n).

Definition totalCost (out : list nat) : Z := foldr Z.add 0%Z (map costOf out).

Section Timing.
Hypothesis Hpost : policy = POST_ALLOC.
Hypothesis cost_nonneg :
  forall i, i ∈ bb ->
            (0 <= getThroughputGen7 i (bool_decide (getSimdWidth = 8)))%Z /\
            (0 <= getLatencyGen7 i)%Z.
Hypothesis total_fits : (totalCost (seq 0 (length G)) < 2 ^ 32)%Z.

Lemma costOf_nonneg n : (0 <= costOf n)%Z.
Proof.
  unfold costOf. destruct (bb !! n) as [i|] eqn:Hi; cbn; [|lia].
  apply list_elem_of_lookup_2 in Hi. destruct (cost_nonneg i Hi).
  unfold insnCost. lia.
Qed.

Lemma totalCost_app l1 l2 :
  totalCost (l1 ++ l2) = (totalCost l1 + totalCost l2)%Z.
Proof. unfold totalCost. induction l1 as [|x l1 IH]; cbn; lia. Qed.

Lemma totalCost_submseteq l1 l2 :
  l1 ⊆+ l2 -> (totalCost l1 <= totalCost l2)%Z.
Proof.
  induction 1 as [|x l1 l2 _ IH|x y l|x l1 l2 _ IH|l1 l2 l3 _ IH1 _ IH2];
    unfold totalCost in *; cbn;
    try pose proof (costOf_nonneg x); lia.
Qed.

Lemma totalCost_le out :
  NoDup out -> (forall x, x ∈ out -> (x < length G)%nat) ->
  (totalCost out <= totalCost (seq 0 (length G)))%Z.
Proof.
  intros Hnd Hb. apply totalCost_submseteq, NoDup_submseteq; [done|].
  intros x Hx. apply elem_of_seq. split; [lia|]. cbn. by apply Hb.
Qed.

(** What the clock has to do with the DAG: a retired node is due; a node
of the block was picked when the nodes it depends on were due; the clock
and the retirement cycles are bounded by the cost of the block so far. *)
Record TInv (retired : list nat) (nds : list ScheduleDAGNode)
       (out : list nat) (cycle : Z) : Prop := {
  ti_retired : forall p, p ∈ retired -> (rcOf nds p <= cycle)%Z;
  ti_edge : forall c p l, c ∈ out -> G !! p = Some l -> c ∈ l ->
                          (rcOf nds p + costOf c <= rcOf nds c)%Z;
  ti_cycle : (0 <= cycle <= totalCost out)%Z;
  ti_rc : forall a, a ∈ out -> (rcOf nds a <= totalCost out)%Z
}.

Lemma TInv_ext retired nds nds' out cycle :
  map retiredCycle nds' = map retiredCycle nds ->
  TInv retired nds out cycle -> TInv retired nds' out cycle.
Proof.
  intros Heq [H1 H2 H3 H4].
  split; intros; rewrite ?(rcOf_ext nds nds' _ Heq); eauto.
Qed.

Lemma retireActive_timing cycle out act :
  forall kept retired s kept' s',
  SInv retired (insnNodes s) (ready s) (kept ++ act) out ->
  TInv retired (insnNodes s) out cycle ->
  retireActive cycle act s = (kept', s') ->
  exists retired',
    SInv retired' (insnNodes s') (ready s') (kept ++ kept') out /\
    TInv retired' (insnNodes s') out cycle.
Proof.
  induction act as [|a act IH]; intros kept retired s kept' s' Hinv Ht Hret.
  - cbn in Hret. injection Hret as <- <-. by exists retired.
  - cbn [retireActive] in Hret.
    assert (Hlt : (a < length (insnNodes s))%nat).
    { rewrite (si_len _ _ _ _ _ Hinv).
      apply (si_bound _ _ _ _ _ Hinv). apply elem_of_app. left.
      rewrite (si_perm _ _ _ _ _ Hinv). rewrite !elem_of_app.
      right. right. left. }
    destruct (lookup_lt_is_Some_2 _ _ Hlt) as [nd Hnd].
    rewrite Hnd in Hret.
    assert (Hrca : rcOf (insnNodes s) a = retiredCycle nd)
      by (unfold rcOf; by rewrite Hnd).
    case_bool_decide as Hdue.
    + destruct (releaseChildren (children nd) s) as [rest s1] eqn:Hrel.
      destruct (retire_one retired s kept a act out nd rest s1 Hinv Hnd Hrel)
        as (Hinv2 & Hrc2 & _).
      cbn zeta in Hinv2, Hrc2.
      set (s2 := withInsnNodes s1
                   (alter (setChildren rest) a (insnNodes s1))) in *.
      apply (IH kept (a :: retired) s2 kept' s' Hinv2); [|done].
      apply (TInv_ext _ (insnNodes s)); [exact Hrc2|].
      destruct Ht as [H1 H2 H3 H4]. split; try done.
      intros p [->|Hp]%elem_of_cons; [lia|by apply H1].
    + destruct (retireActive cycle act s) as [kept2 s2] eqn:Hret2.
      injection Hret as <- <-.
      assert (Hinv' : SInv retired (insnNodes s) (ready s)
                           ((kept ++ [a]) ++ act) out)
        by (by rewrite <- app_assoc).
      destruct (IH (kept ++ [a]) retired s kept2 s2 Hinv' Ht Hret2)
        as (retired' & Hinv2 & Ht2).
      exists retired'. by rewrite <- app_assoc in Hinv2.
Qed.

(** A ready node is picked: the clock moves by its throughput and the
node retires its latency later, without wrapping. *)
Lemma issue_timing retired nds rdy act out n rdy' nd cycle :
  SInv retired nds rdy act out -> TInv retired nds out cycle ->
  rdy ≡ₚ n :: rdy' -> nds !! n = Some nd ->
  let cycle1 :=
    (cycle + getThroughputGen7 (insn nd) (bool_decide (getSimdWidth = 8)))%Z in
  let r := (cycle1 + getLatencyGen7 (insn nd))%Z in
  (0 <= cycle1 < 2 ^ 32)%Z /\ (0 <= r < 2 ^ 32)%Z /\
  TInv retired (alter (setRetiredCycle r) n nds) (out ++ [n]) cycle1.
Proof.
  intros Hinv [T1 T2 T3 T4] Hrdy Hnd. cbn zeta.
  pose proof Hinv
    as [Hlen Hinsn Hperm Hnodup Hbound Hch Href Hfit Hzero Htopo Hrc].
  assert (Hin : n ∈ out ++ rdy).
  { rewrite Hrdy, elem_of_app. right. left. }
  assert (Hn : (n < length G)%nat) by (by apply Hbound).
  assert (Hbn : bb !! n = Some (insn nd)).
  { rewrite <- Hinsn. change (map insn nds) with (insn <$> nds).
    by rewrite list_lookup_fmap, Hnd. }
  assert (Hcost : costOf n = insnCost (insn nd)).
  { unfold costOf. by rewrite Hbn. }
  destruct (cost_nonneg (insn nd)) as [Hthr Hlat];
    [by eapply list_elem_of_lookup_2|].
  assert (Hnd2 : NoDup (out ++ [n]) /\ n ∉ out).
  { rewrite Hrdy in Hnodup.
    apply NoDup_app in Hnodup as (Hno & Hdis & Hnr). split.
    - apply NoDup_app. split_and!; [done| |apply NoDup_singleton].
      intros x Hx ->%list_elem_of_singleton. apply (Hdis n Hx). left.
    - intros Hx. apply (Hdis n Hx). left. }
  destruct Hnd2 as [Hnd2 Hnout].
  assert (Htot : (totalCost out + costOf n < 2 ^ 32)%Z).
  { pose proof (totalCost_le (out ++ [n]) Hnd2) as Hle.
    rewrite totalCost_app in Hle. unfold totalCost at 2 in Hle.
    cbn in Hle. rewrite Z.add_0_r in Hle.
    assert (totalCost out + costOf n
            <= totalCost (seq 0 (length G)))%Z; [|lia].
    apply Hle. intros x [Hx| ->%list_elem_of_singleton]%elem_of_app;
      [|done]. apply Hbound, elem_of_app. by left. }
  assert (Hparents : forall p l, G !! p = Some l -> n ∈ l -> p ∈ retired).
  { intros p l Hp Hl. apply (occ_live_zero G retired n p l); [|done|done].
    by apply Hzero. }
  assert (Hret_out : forall p, p ∈ retired -> p ∈ out).
  { intros p Hp. rewrite Hperm, elem_of_app. by left. }
  rewrite Hcost in Htot. unfold insnCost in *.
  split_and!; try lia.
  split.
  - intros p Hp. rewrite rcOf_alter_ne.
    + specialize (T1 p Hp). lia.
    + intros ->. by apply Hnout, Hret_out.
  - intros c p l [Hc| ->%list_elem_of_singleton]%elem_of_app Hp Hl.
    + assert (Hcn : n <> c) by (by intros ->).
      assert (Hpn : n <> p).
      { intros <-. apply list_elem_of_split in Hc as (l1 & l2 & ->).
        pose proof (Htopo l1 c l2 n l eq_refl Hp Hl) as Hn1.
        apply Hnout, elem_of_app. by left. }
      rewrite !rcOf_alter_ne by done. by eapply T2.
    + assert (Hpr : p ∈ retired) by (by eapply Hparents).
      assert (Hpn : n <> p).
      { intros <-. by apply Hnout, Hret_out. }
      rewrite rcOf_alter_ne by done.
      rewrite rcOf_alter_eq by (by rewrite Hlen).
      specialize (T1 p Hpr). rewrite Hcost. unfold insnCost. lia.
  - rewrite totalCost_app. unfold totalCost at 2. cbn.
    rewrite Hcost. unfold insnCost. lia.
  - intros a [Ha| ->%list_elem_of_singleton]%elem_of_app.
    + rewrite rcOf_alter_ne by (by intros ->).
      specialize (T4 a Ha). rewrite totalCost_app.
      pose proof (costOf_nonneg n). unfold totalCost at 2. cbn. lia.
    + rewrite rcOf_alter_eq by (by rewrite Hlen).
      rewrite totalCost_app. unfold totalCost at 2. cbn.
      rewrite Hcost. unfold insnCost. lia.
Qed.

(** The invariant of the loop, with the clock. *)
Record PInv (st : BlockSched) : Prop := {
  pi_inv : exists retired,
      SInv retired (insnNodes (scheduler st)) (ready (scheduler st))
           (active (scheduler st)) (insnList st) /\
      TInv retired (insnNodes (scheduler st)) (insnList st) (cycle st);
  pi_num : (Z.of_nat (length (insnList st)) + insnNum st
            = Z.of_nat (length G))%Z
}.

Lemma PInv_BInv st : PInv st -> BInv st.
Proof.
  intros [(retired & Hinv & Ht) Hnum]. split; [by exists retired| |done].
  destruct Ht as [_ _ Hc _].
  assert (Hle : (totalCost (insnList st)
                 <= totalCost (seq 0 (length G)))%Z).
  { apply totalCost_le.
    - pose proof (si_nodup _ _ _ _ _ Hinv) as Hnd.
      by apply NoDup_app in Hnd as (? & _).
    - intros x Hx. apply (si_bound _ _ _ _ _ Hinv), elem_of_app. by left. }
  lia.
Qed.

Lemma scheduleStep_timing st :
  PInv st -> insnNum st <> 0%Z -> PInv (scheduleStep policy st).
Proof.
  intros Hp Hnum0. pose proof (PInv_BInv st Hp) as Hst.
  destruct Hp as [(retired0 & Hinv0 & Ht0) Hnum].
  destruct (retirePhase_spec st Hst) as (_ & Hc1 & Hn1 & Hl1 & Hdue & _).
  unfold scheduleStep. unfold retirePhase in *.
  destruct (retireActive (cycle st) (active (scheduler st)) (scheduler st))
    as [kept s] eqn:Hret.
  destruct (retireActive_timing (cycle st) (insnList st)
              (active (scheduler st)) [] retired0 (scheduler st) kept s
              Hinv0 Ht0 Hret) as (retired & Hinv & Ht).
  cbn [app] in Hinv. cbn in Hdue.
  unfold issuePhase. cbn [scheduler cycle insnNum insnList].
  cbn [ready withActive insnNodes active trackerNodes].
  destruct (toSchedule policy (ready s)) as [[n rdy']|] eqn:Hts.
  - apply toSchedule_Some in Hts.
    assert (Hn : (n < length (insnNodes s))%nat).
    { rewrite (si_len _ _ _ _ _ Hinv). apply (si_bound _ _ _ _ _ Hinv).
      rewrite Hts, elem_of_app. right. left. }
    destruct (lookup_lt_is_Some_2 _ _ Hn) as [nd Hnd]. rewrite Hnd.
    rewrite !decide_True by done.
    destruct (issue_timing retired (insnNodes s) (ready s) kept
                (insnList st) n rdy' nd (cycle st) Hinv Ht Hts Hnd)
      as (Hc & Hr & Ht').
    cbn zeta in Hc, Hr, Ht'.
    rewrite (wrap32_small (cycle st + _)) by exact Hc.
    rewrite (wrap32_small (cycle st + _ + _)) by exact Hr.
    split; cbn.
    + exists retired. split; [|exact Ht'].
      by apply (issue_one _ _ _ _ _ _ _ _ Hinv Hts Hr).
    + rewrite length_app. cbn. lia.
  - apply toSchedule_None in Hts.
    destruct kept as [|a act].
    { exfalso. rewrite Hts in Hinv.
      pose proof (emitted_all _ _ _ Hinv) as Hall. lia. }
    assert (Hain : a ∈ insnList st).
    { rewrite (si_perm _ _ _ _ _ Hinv), elem_of_app. right. left. }
    assert (Hra : (cycle st < rcOf (insnNodes s) a)%Z)
      by (apply Hdue; left).
    destruct Ht as [T1 T2 T3 T4]. pose proof (T4 a Hain) as Hrc.
    assert (Hle : (totalCost (insnList st)
                   <= totalCost (seq 0 (length G)))%Z).
    { apply totalCost_le.
      - pose proof (si_nodup _ _ _ _ _ Hinv) as Hnd.
        by apply NoDup_app in Hnd as (? & _).
      - intros x Hx. apply (si_bound _ _ _ _ _ Hinv), elem_of_app. by left. }
    rewrite wrap32_small by lia.
    split; cbn; [|done].
    exists retired. split; [done|]. split; try done.
    + intros p Hp. specialize (T1 p Hp). lia.
    + lia.
Qed.

Lemma scheduleLoop_timing fuel :
  forall st st', PInv st -> scheduleLoop policy fuel st = Some st' ->
                 PInv st' /\ insnNum st' = 0%Z.
Proof.
  induction fuel as [|fuel IH]; intros st st' Hp; cbn;
    destruct (decide (insnNum st = 0%Z)) as [Hz|Hnz]; try done.
  - by intros [= <-].
  - by intros [= <-].
  - apply IH. by apply scheduleStep_timing.
Qed.

(** Once the loop has stopped: every node was picked at a cycle at which
the nodes it depends on had retired. *)
Lemma timing_final st :
  PInv st -> insnNum st = 0%Z ->
  forall p c l, G !! p = Some l -> c ∈ l ->
    (rcOf (insnNodes (scheduler st)) p + costOf c
     <= rcOf (insnNodes (scheduler st)) c < 2 ^ 32)%Z.
Proof.
  intros Hp Hz p c l HG Hc. pose proof (PInv_BInv st Hp) as Hst.
  destruct (schedule_final st Hst Hz) as (Hperm & _ & _).
  destruct Hp as [(retired & Hinv & [T1 T2 T3 T4]) Hnum].
  assert (Hin : c ∈ insnList st).
  { rewrite Hperm. apply elem_of_seq. split; [lia|]. cbn.
    by destruct (G_forward p l c HG Hc). }
  split; [by eapply T2|].
  specialize (T4 c Hin).
  assert (Hle : (totalCost (insnList st)
                 <= totalCost (seq 0 (length G)))%Z); [|lia].
  apply totalCost_le.
  - rewrite Hperm. apply NoDup_seq.
  - intros x Hx. rewrite Hperm in Hx. apply elem_of_seq in Hx. lia.
Qed.

End Timing.

End SchedLoop.

(** ** The loop started on the DAG of a block *)

Section Schedule.
Context {defs : GenDefs} {ctx : GenContext}.
Variable policy : SchedulePolicy.
Variable bb : list SelectionInstruction.

(** The children lists that [buildDAG] leaves for the block. *)
Definition dagOf : list (list nat) :=
  childrenOf (insnNodes (buildDAG policy bb)).

(** The counters [refNum] are 32 bits wide: no node of the block has 2^32
or more dependency edges pointing to it. *)
Definition countersFit : bool :=
  forallb (fun c => (Z.of_nat (occ c dagOf) <? 2 ^ 32)%Z)
          (seq 0 (length bb)).

(** The instructions appended to the block, in order. *)
Definition emitted (st : BlockSched) : list SelectionInstruction :=
  omap (insnOf (scheduler st)) (insnList st).

Lemma dagOf_length : length dagOf = length bb.
Proof.
  unfold dagOf, childrenOf. rewrite length_fmap.
  by destruct (buildDAG_spec policy bb) as (_ & ? & _).
Qed.

Lemma dagOf_forward p l c :
  dagOf !! p = Some l -> c ∈ l -> (p < c < length dagOf)%nat.
Proof.
  destruct (buildDAG_spec policy bb) as ([He _ _] & Hlen & _).
  unfold dagOf, childrenOf. rewrite length_fmap.
  intros (nd & -> & Hnd)%list_lookup_fmap_Some Hc. by eapply He.
Qed.

Lemma dagOf_edge p c :
  hasEdge (buildDAG policy bb) p c <->
  exists l, dagOf !! p = Some l /\ c ∈ l.
Proof.
  unfold hasEdge, dagOf, childrenOf. split.
  - intros (nd & Hp & Hc). exists (children nd).
    by rewrite list_lookup_fmap, Hp.
  - intros (l & (nd & -> & Hnd)%list_lookup_fmap_Some & Hc). eauto.
Qed.

Lemma countersFit_all c :
  countersFit = true -> (Z.of_nat (occ c dagOf) < 2 ^ 32)%Z.
Proof.
  intros Hfit. destruct (decide (c < length bb)%nat) as [Hc|Hc].
  - unfold countersFit in Hfit. rewrite forallb_forall in Hfit.
    apply Z.ltb_lt, Hfit, list_elem_of_In, elem_of_seq. lia.
  - rewrite occ_zero; [done|]. intros l Hl Hcl.
    apply list_elem_of_lookup_1 in Hl as [p Hp].
    pose proof (dagOf_forward p l c Hp Hcl) as Hlt.
    rewrite dagOf_length in Hlt. lia.
Qed.

Lemma scheduleStart_BInv :
  countersFit = true -> BInv bb dagOf (scheduleStart policy bb).
Proof.
  intros Hfit.
  destruct (buildDAG_spec policy bb) as ([He Hr Hi] & Hlen & _ & Hrdy & Hact).
  pose proof dagOf_length as HG.
  assert (Href : forall c nd,
             insnNodes (buildDAG policy bb) !! c = Some nd ->
             refNum nd = Z.of_nat (occ c dagOf)).
  { intros c nd Hc. rewrite (Hr c nd Hc). apply wrap32_small.
    pose proof (countersFit_all c Hfit). unfold indegree. fold dagOf. lia. }
  split; cbn.
  - exists []. rewrite Hact. split; rewrite ?live_nil.
    + by rewrite HG.
    + rewrite Hi, Hlen. by apply take_ge.
    + done.
    + cbn. rewrite Hrdy. apply NoDup_filter, NoDup_seq.
    + cbn. intros x. rewrite Hrdy, list_elem_of_filter, elem_of_seq. lia.
    + done.
    + done.
    + intros c. by apply countersFit_all.
    + intros c Hc. cbn. rewrite Hrdy, list_elem_of_filter, elem_of_seq.
      unfold isRoot.
      destruct (lookup_lt_is_Some_2 (insnNodes (buildDAG policy bb)) c)
        as [nd Hnd]; [lia|].
      rewrite Hnd. cbn. rewrite (Href c nd Hnd). split.
      * intros [[= Hz] _]. lia.
      * intros ->. split; [done|lia].
    + intros l1 c l2 p l Hnil. by destruct l1.
    + by intros a ?%elem_of_nil.
  - lia.
  - lia.
Qed.

(** The loop run on the DAG of the block: it stops, and the block it
leaves holds every node once, each after the nodes it depends on. *)
Lemma scheduleLoop_correct :
  countersFit = true ->
  exists fuel st,
    scheduleLoop policy fuel (scheduleStart policy bb) = Some st /\
    insnNum st = 0%Z /\
    insnList st ≡ₚ seq 0 (length bb) /\
    respects dagOf (insnList st) /\
    map insn (insnNodes (scheduler st)) = bb.
Proof.
  intros Hfit.
  destruct (scheduleLoop_terminates policy bb dagOf dagOf_forward
              (scheduleStart policy bb) (scheduleStart_BInv Hfit))
    as (fuel & st & Hrun & Hst & Hz).
  destruct (schedule_final bb dagOf st Hst Hz) as (Hperm & Htopo & Hinsn).
  exists fuel, st. rewrite dagOf_length in Hperm. done.
Qed.

End Schedule.

(** ** The scheduled block *)

Lemma omap_pointwise {A B : Type} (f g : A -> option B) (l : list A) :
  (forall x, x ∈ l -> f x = g x) -> omap f l = omap g l.
Proof.
  induction l as [|x l IH]; intros H; [done|].
  cbn. rewrite (H x) by left. rewrite IH; [done|].
  intros y Hy. apply H. by right.
Qed.

Lemma omap_lookup_seq {A : Type} (l : list A) :
  forall k, omap (fun i => (k ++ l) !! i) (seq (length k) (length l)) = l.
Proof.
  induction l as [|x l IH]; intros k; [done|].
  cbn [length seq].
  change (omap ?f (?a :: ?r))
    with (match f a with Some y => y :: omap f r | None => omap f r end).
  cbv beta. rewrite list_lookup_middle by done.
  f_equal. specialize (IH (k ++ [x])).
  rewrite <- app_assoc, length_app, Nat.add_1_r in IH. exact IH.
Qed.

Lemma respects_order G out i j p c l :
  NoDup out -> respects G out ->
  out !! i = Some p -> out !! j = Some c ->
  G !! p = Some l -> c ∈ l -> (i < j)%nat.
Proof.
  intros Hnd Hr Hi Hj HG Hc.
  pose proof (take_drop_middle out j c Hj) as Hsplit.
  pose proof (Hr _ _ _ p l (eq_sym Hsplit) HG Hc) as Hp.
  apply list_elem_of_lookup in Hp as [i' Hi'].
  apply lookup_take_Some in Hi' as [Hi' Hlt].
  by rewrite (NoDup_lookup out i i' p Hnd Hi Hi').
Qed.

Section Scheduled.
Context {defs : GenDefs} {ctx : GenContext}.
Variable policy : SchedulePolicy.
Variable bb : list SelectionInstruction.

Lemma scheduleLoop_det fuel fuel' (st st1 st2 : BlockSched) :
  scheduleLoop policy fuel st = Some st1 ->
  scheduleLoop policy fuel' st = Some st2 -> st1 = st2.
Proof.
  intros H1 H2.
  apply (scheduleLoop_mono policy fuel (max fuel fuel')) in H1; [|lia].
  apply (scheduleLoop_mono policy fuel' (max fuel fuel')) in H2; [|lia].
  congruence.
Qed.

Lemma emitted_perm st :
  map insn (insnNodes (scheduler st)) = bb ->
  insnList st ≡ₚ seq 0 (length bb) ->
  emitted st ≡ₚ bb.
Proof.
  intros Hinsn Hperm. unfold emitted. rewrite Hperm.
  assert (Hf : omap (insnOf (scheduler st)) (seq 0 (length bb))
               = omap (fun i => ([] ++ bb) !! i) (seq 0 (length bb))).
  { apply omap_pointwise. intros i _. cbn. unfold insnOf.
    rewrite <- list_lookup_fmap.
    change (insn <$> insnNodes (scheduler st))
      with (map insn (insnNodes (scheduler st))).
    by rewrite Hinsn. }
  rewrite Hf. pose proof (omap_lookup_seq bb []) as Ho. cbn [length] in Ho.
  by rewrite Ho.
Qed.

(** Every run that stops leaves the same block: all the nodes, once each,
in an order that respects every edge of the DAG. *)
Lemma scheduleLoop_spec :
  countersFit policy bb = true ->
  exists fuel0 st,
    (forall fuel, (fuel0 <= fuel)%nat ->
       scheduleLoop policy fuel (scheduleStart policy bb) = Some st) /\
    (forall fuel st', scheduleLoop policy fuel (scheduleStart policy bb)
                      = Some st' -> st' = st) /\
    insnNum st = 0%Z /\
    emitted st ≡ₚ bb /\
    insnList st ≡ₚ seq 0 (length bb) /\
    (forall i j p c, insnList st !! i = Some p -> insnList st !! j = Some c ->
                     hasEdge (buildDAG policy bb) p c -> (i < j)%nat).
Proof.
  intros Hfit.
  destruct (scheduleLoop_correct policy bb Hfit)
    as (fuel0 & st & Hrun & Hz & Hperm & Htopo & Hinsn).
  exists fuel0, st. split_and!; try done.
  - intros fuel Hle. by apply (scheduleLoop_mono policy fuel0).
  - intros fuel st' Hrun'. by eapply scheduleLoop_det.
  - by apply emitted_perm.
  - intros i j p c Hi Hj (l & Hl & Hc)%dagOf_edge.
    apply (respects_order (dagOf policy bb) (insnList st) i j p c l);
      try done.
    rewrite Hperm. apply NoDup_seq.
Qed.

End Scheduled.

Lemma hasEdge_forward (s : Scheduler) p c :
  edgesForward (insnNodes s) -> tc (hasEdge s) p c -> (p < c)%nat.
Proof.
  intros He Htc. induction Htc as [p c (nd & Hp & Hc)|p m c (nd & Hp & Hm) _ IH].
  - specialize (He p nd c Hp Hc). lia.
  - specialize (He p nd m Hp Hm). lia.
Qed.

Section Claims.
Context {defs : GenDefs} {ctx : GenContext}.
Variable policy : SchedulePolicy.
Variable bb : list SelectionInstruction.

(** C2: [buildDAG] followed by [scheduleDAG] leaves a block that holds
the same instructions as before, the instruction of every node appended
exactly once, and in which an instruction never comes before one it depends
on in the DAG built from the original order. Stated for the blocks whose
32-bit [refNum] counters do not wrap ([countersFit]); the run stops, and
every run that stops ends in the same state. *)
Theorem scheduleDAG_reorders :
  countersFit policy bb = true ->
  exists fuel st,
    scheduleLoop policy fuel (scheduleStart policy bb) = Some st /\
    (forall fuel' st', scheduleLoop policy fuel' (scheduleStart policy bb)
                       = Some st' -> st' = st) /\
    emitted st ≡ₚ bb /\
    insnList st ≡ₚ seq 0 (length bb) /\
    (forall i j p c, insnList st !! i = Some p -> insnList st !! j = Some c ->
                     hasEdge (buildDAG policy bb) p c -> (i < j)%nat).
Proof.
  intros Hfit.
  destruct (scheduleLoop_spec policy bb Hfit)
    as (fuel0 & st & Hrun & Hdet & _ & Hem & Hperm & Hord).
  exists fuel0, st. split_and!; try done. by apply Hrun.
Qed.

(** C3: in the DAG that [buildDAG] leaves, a branch, a label or the EOT
instruction at position [b] depends on every instruction before it, and
every instruction after it depends on it; hence, in the scheduled block,
the instructions that were before it stay before it and those that were
after it stay after it (the latter for the blocks whose counters do not
wrap). *)
Theorem buildDAG_barriers b i :
  bb !! b = Some i -> isBarrierInsn i = true ->
  (forall p, (p < b)%nat -> hasEdge (buildDAG policy bb) p b) /\
  (forall c, (b < c < length bb)%nat -> hasEdge (buildDAG policy bb) b c) /\
  (countersFit policy bb = true ->
   forall fuel out, scheduleBlock policy fuel bb = Some out ->
   forall j k x, out !! j = Some b -> out !! k = Some x ->
                 ((x < b)%nat -> (k < j)%nat) /\ ((b < x)%nat -> (j < k)%nat)).
Proof.
  intros Hb Hbar.
  destruct (buildDAG_spec policy bb) as (_ & _ & Hedges & _).
  assert (Hbn : (b < length bb)%nat) by (by eapply lookup_lt_Some).
  assert (Hin : b ∈ seq 0 (length bb)) by (apply elem_of_seq; lia).
  assert (Hbefore : forall p, (p < b)%nat -> hasEdge (buildDAG policy bb) p b).
  { intros p Hp. apply Hedges. exists b, i. split_and!; try done.
    left. done. }
  assert (Hafter : forall c, (b < c < length bb)%nat ->
                             hasEdge (buildDAG policy bb) b c).
  { intros c Hc. apply Hedges. exists b, i. split_and!; try done.
    right. done. }
  split_and!; try done.
  intros Hfit fuel out Hout j k x Hj Hk.
  destruct (scheduleLoop_spec policy bb Hfit)
    as (fuel0 & st & _ & Hdet & _ & _ & Hperm & Hord).
  unfold scheduleBlock in Hout.
  destruct (scheduleLoop policy fuel (scheduleStart policy bb)) as [st'|]
    eqn:Hrun; [|done].
  cbn in Hout. injection Hout as <-. rewrite (Hdet fuel st' Hrun) in *.
  split.
  - intros Hx. apply (Hord k j x b Hk Hj). by apply Hbefore.
  - intros Hx. apply (Hord j k b x Hj Hk). apply Hafter. split; [done|].
    apply list_elem_of_lookup_2 in Hk. rewrite Hperm in Hk.
    apply elem_of_seq in Hk. lia.
Qed.

(** C10: [addDependency] never links a node to itself, every edge that
[buildDAG] creates goes from an earlier instruction of the block to a later
one, so that no node reaches itself; and [scheduleDAG], started with the
number of instructions [buildDAG] counted, stops after emitting exactly that
many instructions (for the blocks whose 32-bit [refNum] counters do not
wrap). *)
Theorem scheduleDAG_terminates :
  (forall n s, addDependency (Some n) (Some n) s = s) /\
  length (insnNodes (buildDAG policy bb)) = length bb /\
  edgesForward (insnNodes (buildDAG policy bb)) /\
  (forall p, ~ tc (hasEdge (buildDAG policy bb)) p p) /\
  (countersFit policy bb = true ->
   exists fuel0 out,
     length out = length bb /\
     forall fuel, (fuel0 <= fuel)%nat ->
                  scheduleBlock policy fuel bb = Some out).
Proof.
  destruct (buildDAG_spec policy bb) as ([He _ _] & Hlen & _).
  split_and!; try done.
  - intros n s. unfold addDependency.
    rewrite bool_decide_eq_false_2; [done|]. by intros H.
  - intros p Hp%hasEdge_forward; [lia|done].
  - intros Hfit.
    destruct (scheduleLoop_spec policy bb Hfit)
      as (fuel0 & st & Hrun & _ & _ & _ & Hperm & _).
    exists fuel0, (insnList st). split.
    + by rewrite Hperm, length_seq.
    + intros fuel Hle. unfold scheduleBlock. by rewrite (Hrun fuel Hle).
Qed.

End Claims.

Lemma scheduleDAG_reorders_witness :
  countersFit POST_ALLOC demoBB = true /\
  exists fuel st,
    scheduleLoop POST_ALLOC fuel (scheduleStart POST_ALLOC demoBB) = Some st /\
    emitted st ≡ₚ demoBB /\ insnList st ≡ₚ seq 0 5.
Proof.
  split; [vm_compute; reflexivity|].
  destruct (scheduleDAG_reorders POST_ALLOC demoBB)
    as (fuel & st & Hrun & _ & Hem & Hperm & _); [vm_compute; reflexivity|].
  exists fuel, st. split_and!; done.
Defined.

Lemma buildDAG_barriers_witness :
  demoBB !! 4%nat = Some (demoInsn 5 1 [] []) /\
  isBarrierInsn (demoInsn 5 1 [] []) = true /\
  forall p, (p < 4)%nat -> hasEdge (buildDAG PRE_ALLOC demoBB) p 4.
Proof.
  split; [reflexivity|]. split; [reflexivity|].
  apply (buildDAG_barriers PRE_ALLOC demoBB 4 (demoInsn 5 1 [] []));
    reflexivity.
Defined.

Lemma scheduleDAG_terminates_witness :
  countersFit PRE_ALLOC demoBB = true /\
  exists fuel0 out,
    length out = length demoBB /\
    forall fuel, (fuel0 <= fuel)%nat ->
                 scheduleBlock PRE_ALLOC fuel demoBB = Some out.
Proof.
  split; [vm_compute; reflexivity|].
  apply (scheduleDAG_terminates PRE_ALLOC demoBB). vm_compute; reflexivity.
Defined.

(** ** Dependences kept by the schedule *)

Section Dependences.
Context {defs : GenDefs} {ctx : GenContext}.
Variable policy : SchedulePolicy.
Variable bb : list SelectionInstruction.

(** Every slot that [updateWrites] assigns for an instruction of the block
is one of the slots the write-after-write statements look up for it (the
latter go through [ignoreDependency] for the flag and the accumulator, the
former do not). *)
Definition writesTracked : bool :=
  forallb (fun i => forallb (fun x => bool_decide (x ∈ wawIndices policy i))
                            (writeIndices policy i)) bb.

(** Two instructions, the first one earlier in the block, touch the same
slot, and one of them at least writes it. *)
Definition conflict (x : Z) (ia ib : SelectionInstruction) : Prop :=
  (x ∈ writeIndices policy ia /\
   (x ∈ readIndices policy ib \/ x ∈ writeIndices policy ib)) \/
  (x ∈ readIndices policy ia /\ x ∈ writeIndices policy ib).

Lemma writesTracked_waw m i x :
  writesTracked = true -> bb !! m = Some i ->
  x ∈ writeIndices policy i -> x ∈ wawIndices policy i.
Proof.
  unfold writesTracked. rewrite forallb_forall. intros H Hm Hx.
  apply list_elem_of_lookup_2, list_elem_of_In in Hm.
  specialize (H i Hm). rewrite forallb_forall in H.
  apply list_elem_of_In in Hx. specialize (H x Hx).
  by apply bool_decide_eq_true in H.
Qed.

Lemma writesAt_decide m x :
  writesAt policy bb m x \/ ~ writesAt policy bb m x.
Proof.
  unfold writesAt. destruct (bb !! m) as [i|] eqn:Hm.
  - destruct (decide (x ∈ writeIndices policy i)) as [Hx|Hx].
    + left. by exists i.
    + right. intros (i' & [= <-] & ?). done.
  - right. by intros (i' & ? & _).
Qed.

Lemma lastWriter_exists x i j :
  (i < j)%nat -> writesAt policy bb i x ->
  exists m, (i <= m)%nat /\ lastWriter policy bb x j m.
Proof.
  intros Hij Hw. induction j as [|j IH]; [lia|].
  destruct (writesAt_decide j x) as [Hj|Hj].
  - exists j. split; [lia|]. split_and!; [lia|done|intros; lia].
  - assert (i <> j) by (by intros ->).
    destruct IH as (m & Him & Hm & Hwm & Hno); [lia|].
    exists m. split; [done|]. split_and!; [lia|done|].
    intros m' Hm'. destruct (decide (m' = j)) as [->|]; [done|].
    apply Hno. lia.
Qed.

Lemma nextWriter_exists x d :
  forall i j, (j = i + d)%nat -> writesAt policy bb j x ->
  exists m, (m <= j)%nat /\ nextWriter policy bb x i m.
Proof.
  induction d as [|d IH]; intros i j Hj Hw.
  - replace j with i in * by lia. exists i. split; [done|].
    split_and!; [lia|done|intros; lia].
  - destruct (writesAt_decide i x) as [Hi|Hi].
    + exists i. split; [lia|]. split_and!; [lia|done|intros; lia].
    + destruct (IH (S i) j) as (m & Hmj & Hm & Hwm & Hno); [lia|done|].
      exists m. split; [done|]. split_and!; [lia|done|].
      intros m' Hm'. destruct (decide (m' = i)) as [->|]; [done|].
      apply Hno. lia.
Qed.

(** A write, then a read or a write of the same slot: a path. *)
Lemma path_write_use x :
  writesTracked = true ->
  forall j i ij,
  (i < j)%nat -> writesAt policy bb i x -> bb !! j = Some ij ->
  x ∈ readIndices policy ij ++ wawIndices policy ij ->
  tc (hasEdge (buildDAG policy bb)) i j.
Proof.
  intros Htr j. induction (lt_wf j) as [j _ IH]. intros i ij Hij Hw Hj Hx.
  destruct (lastWriter_exists x i j Hij Hw) as (m & Him & Hlast).
  assert (Hedge : hasEdge (buildDAG policy bb) m j).
  { apply buildDAG_deps. left. split; [by eapply lookup_lt_Some|].
    by exists ij, x. }
  destruct (decide (m = i)) as [->|Hne]; [by apply tc_once|].
  destruct Hlast as (Hmj & (im & Him' & Hxm) & _).
  eapply tc_r; [|exact Hedge].
  apply (IH m Hmj i im); [lia|done|done|].
  apply elem_of_app. right. by eapply writesTracked_waw.
Qed.

(** A read, then a write of the same slot: a path. *)
Lemma path_read_write x i j ii :
  writesTracked = true ->
  (i < j)%nat -> bb !! i = Some ii -> x ∈ readIndices policy ii ->
  writesAt policy bb j x ->
  tc (hasEdge (buildDAG policy bb)) i j.
Proof.
  intros Htr Hij Hi Hx Hw.
  destruct (nextWriter_exists x (j - S i) (S i) j) as (m & Hmj & Hnext);
    [lia|done|].
  assert (Hedge : hasEdge (buildDAG policy bb) i m).
  { apply buildDAG_deps. right. split; [lia|]. by exists ii, x. }
  destruct (decide (m = j)) as [->|Hne]; [by apply tc_once|].
  destruct Hnext as (Him & Hwm & _). destruct Hw as (ij & Hj & Hxj).
  eapply tc_l; [exact Hedge|].
  apply (path_write_use x Htr j m ij); [lia|done|done|].
  apply elem_of_app. right. by eapply writesTracked_waw.
Qed.

Lemma conflict_path x a b ia ib :
  writesTracked = true ->
  (a < b)%nat -> bb !! a = Some ia -> bb !! b = Some ib ->
  conflict x ia ib ->
  tc (hasEdge (buildDAG policy bb)) a b.
Proof.
  intros Htr Hab Ha Hb [[Hwa [Hrb|Hwb]]|[Hra Hwb]].
  - apply (path_write_use x Htr b a ib); [done|by exists ia|done|].
    apply elem_of_app. by left.
  - apply (path_write_use x Htr b a ib); [done|by exists ia|done|].
    apply elem_of_app. right. by eapply writesTracked_waw.
  - apply (path_read_write x a b ia); try done. by exists ib.
Qed.

(** An order that respects the edges respects the paths. *)
Lemma order_paths out :
  out ≡ₚ seq 0 (length bb) ->
  (forall i j p c, out !! i = Some p -> out !! j = Some c ->
                   hasEdge (buildDAG policy bb) p c -> (i < j)%nat) ->
  forall p c, tc (hasEdge (buildDAG policy bb)) p c ->
  forall i j, out !! i = Some p -> out !! j = Some c -> (i < j)%nat.
Proof.
  intros Hperm Hord p c Htc.
  destruct (buildDAG_spec policy bb) as ([He _ _] & Hlen & _).
  induction Htc as [p c Hpc|p m c (nd & Hp & Hm) _ IH]; intros i j Hi Hj.
  - by eapply Hord.
  - assert (Hmn : (m < length bb)%nat).
    { specialize (He p nd m Hp Hm). lia. }
    assert (Hmo : m ∈ out) by (rewrite Hperm; apply elem_of_seq; lia).
    apply list_elem_of_lookup in Hmo as [k Hk].
    assert (i < k)%nat by (eapply Hord; [done|done|by exists nd]).
    assert (k < j)%nat by (by apply IH). lia.
Qed.

End Dependences.

Lemma barrier_position (out : list nat) (n b j : nat) :
  out ≡ₚ seq 0 n -> (b < n)%nat -> out !! j = Some b ->
  (forall k x, out !! k = Some x ->
               ((x < b)%nat -> (k < j)%nat) /\ ((b < x)%nat -> (j < k)%nat)) ->
  j = b.
Proof.
  intros Hperm Hb Hj Hord.
  assert (Hnd : NoDup out) by (rewrite Hperm; apply NoDup_seq).
  assert (Hjl : (j < length out)%nat) by (by eapply lookup_lt_Some).
  assert (H1 : take j out ⊆+ seq 0 b).
  { apply NoDup_submseteq.
    - rewrite <- (take_drop j out) in Hnd.
      by apply NoDup_app in Hnd as (? & _).
    - intros x (k & Hk)%list_elem_of_lookup.
      apply lookup_take_Some in Hk as [Hk Hkj].
      apply elem_of_seq. split; [lia|]. cbn.
      destruct (lt_eq_lt_dec x b) as [[?| ->]|Hgt]; [done| |].
      + pose proof (NoDup_lookup out k j b Hnd Hk Hj). lia.
      + destruct (Hord k x Hk) as [_ H]. specialize (H Hgt). lia. }
  assert (H2 : seq 0 b ⊆+ take j out).
  { apply NoDup_submseteq; [apply NoDup_seq|].
    intros x Hx%elem_of_seq.
    assert (Hxo : x ∈ out) by (rewrite Hperm; apply elem_of_seq; lia).
    apply list_elem_of_lookup in Hxo as [k Hk].
    destruct (Hord k x Hk) as [H _].
    apply list_elem_of_lookup. exists k. apply lookup_take_Some.
    split; [done|]. apply H. lia. }
  apply submseteq_length in H1, H2.
  rewrite length_seq in H1, H2. rewrite length_take in H1, H2. lia.
Qed.

Section Extras.
Context {defs : GenDefs} {ctx : GenContext}.
Variable policy : SchedulePolicy.
Variable bb : list SelectionInstruction.

(** X1: the DAG holds the read-after-write and write-after-write edges:
for every slot an instruction reads or writes, an edge from the last
earlier instruction that writes the slot; and the write-after-read edges:
for every slot an instruction reads, an edge to the next later instruction
that writes the slot. *)
Theorem buildDAG_dependence_edges j i x m :
  bb !! j = Some i ->
  (x ∈ readIndices policy i ++ wawIndices policy i ->
   lastWriter policy bb x j m -> hasEdge (buildDAG policy bb) m j) /\
  (x ∈ readIndices policy i ->
   nextWriter policy bb x (S j) m -> hasEdge (buildDAG policy bb) j m).
Proof.
  intros Hj. split; intros Hx Hw; apply buildDAG_deps.
  - left. split; [by eapply lookup_lt_Some|]. by exists i, x.
  - right. split; [lia|]. by exists i, x.
Qed.

(** X2: the schedule keeps every dependence of the original order: two
instructions that touch the same slot, one of them at least writing it,
are emitted in their original order. Stated for the blocks whose counters
do not wrap and in which the slots written are slots checked
([writesTracked]). *)
Theorem scheduleDAG_keeps_dependences :
  countersFit policy bb = true -> writesTracked policy bb = true ->
  forall fuel out, scheduleBlock policy fuel bb = Some out ->
  forall a b ia ib x p q,
    (a < b)%nat -> bb !! a = Some ia -> bb !! b = Some ib ->
    conflict policy x ia ib ->
    out !! p = Some a -> out !! q = Some b -> (p < q)%nat.
Proof.
  intros Hfit Htr fuel out Hout a b ia ib x p q Hab Ha Hb Hconf Hp Hq.
  destruct (scheduleLoop_spec policy bb Hfit)
    as (fuel0 & st & _ & Hdet & _ & _ & Hperm & Hord).
  unfold scheduleBlock in Hout.
  destruct (scheduleLoop policy fuel (scheduleStart policy bb)) as [st'|]
    eqn:Hrun; [|done].
  cbn in Hout. injection Hout as <-. rewrite (Hdet fuel st' Hrun) in *.
  eapply (order_paths policy bb (insnList st) Hperm Hord a b); [|done|done].
  by eapply conflict_path.
Qed.

(** X3: what [buildDAG] leaves: node [c] wraps instruction [c], its
[refNum] is the number of edges that end in it (counted with repetitions,
modulo 2^32), the ready list holds the nodes whose [refNum] is zero, in
block order, and the active list is empty. *)
Theorem buildDAG_counters :
  map insn (insnNodes (buildDAG policy bb)) = bb /\
  map refNum (insnNodes (buildDAG policy bb))
  = map (fun c => wrap32 (Z.of_nat
                            (indegree (insnNodes (buildDAG policy bb)) c)))
        (seq 0 (length bb)) /\
  ready (buildDAG policy bb)
  = filter (fun c => refNum <$> insnNodes (buildDAG policy bb) !! c = Some 0)
           (seq 0 (length bb)) /\
  active (buildDAG policy bb) = [].
Proof.
  destruct (buildDAG_spec policy bb) as ([He Hr Hi] & Hlen & _ & Hrdy & Hact).
  split_and!.
  - rewrite Hi, Hlen. by apply take_ge.
  - apply list_eq. intros c. rewrite !list_lookup_fmap.
    destruct (insnNodes (buildDAG policy bb) !! c) as [nd|] eqn:Hc.
    + rewrite lookup_seq_lt by (apply lookup_lt_Some in Hc; lia).
      cbn. f_equal. by apply Hr.
    + rewrite lookup_seq_ge by (apply lookup_ge_None in Hc; lia). done.
  - exact Hrdy.
  - exact Hact.
Qed.

(** X4: a branch, a label or the EOT instruction keeps its position in the
scheduled block (for the blocks whose counters do not wrap). *)
Theorem scheduleDAG_barrier_position b i :
  countersFit policy bb = true ->
  bb !! b = Some i -> isBarrierInsn i = true ->
  forall fuel out, scheduleBlock policy fuel bb = Some out ->
                   out !! b = Some b.
Proof.
  intros Hfit Hb Hbar fuel out Hout.
  destruct (buildDAG_spec policy bb) as (_ & _ & Hedges & _).
  destruct (scheduleLoop_spec policy bb Hfit)
    as (fuel0 & st & _ & Hdet & _ & _ & Hperm & Hord).
  unfold scheduleBlock in Hout.
  destruct (scheduleLoop policy fuel (scheduleStart policy bb)) as [st'|]
    eqn:Hrun; [|done].
  cbn in Hout. injection Hout as <-. rewrite (Hdet fuel st' Hrun) in *.
  assert (Hbn : (b < length bb)%nat) by (by eapply lookup_lt_Some).
  assert (Hbo : b ∈ insnList st) by (rewrite Hperm; apply elem_of_seq; lia).
  apply list_elem_of_lookup in Hbo as [j Hj].
  assert (j = b) as ->; [|done].
  apply (barrier_position (insnList st) (length bb) b j Hperm Hbn Hj).
  intros k x Hk.
  assert (Hxn : (x < length bb)%nat).
  { apply list_elem_of_lookup_2 in Hk. rewrite Hperm in Hk.
    apply elem_of_seq in Hk. lia. }
  split; intros Hx.
  - apply (Hord k j x b Hk Hj). apply Hedges. exists b, i.
    split_and!; [apply elem_of_seq; lia|done|done|by left].
  - apply (Hord j k b x Hj Hk). apply Hedges. exists b, i.
    split_and!; [apply elem_of_seq; lia|done|done|right; split; [done|lia]].
Qed.

(** X5: before register allocation the loop never waits: it runs exactly
one iteration per instruction of the block, each one emitting an
instruction, and the simulated clock stays at zero (for the blocks whose
counters do not wrap). *)
Theorem scheduleDAG_pre_never_waits (bbl : list SelectionInstruction) :
  countersFit PRE_ALLOC bbl = true ->
  (exists st, scheduleLoop PRE_ALLOC (length bbl)
                           (scheduleStart PRE_ALLOC bbl) = Some st /\
              cycle st = 0 /\ length (insnList st) = length bbl) /\
  (forall fuel, (fuel < length bbl)%nat ->
                scheduleLoop PRE_ALLOC fuel (scheduleStart PRE_ALLOC bbl)
                = None).
Proof.
  intros Hfit.
  pose proof (scheduleStart_BInv PRE_ALLOC bbl Hfit) as Hst.
  destruct (scheduleLoop_pre PRE_ALLOC bbl (dagOf PRE_ALLOC bbl)
              (dagOf_forward PRE_ALLOC bbl) (length bbl) eq_refl
              (scheduleStart PRE_ALLOC bbl) Hst)
    as ((st & Hrun & Hfin & Hz & Hc) & Hnone); [|done|].
  { unfold waitingOf. cbn.
    by destruct (buildDAG_spec PRE_ALLOC bbl) as (_ & _ & _ & _ & ->). }
  split; [|done]. exists st. split_and!; [done|done|].
  destruct (schedule_final bbl (dagOf PRE_ALLOC bbl) st Hfin Hz)
    as (Hperm & _).
  by rewrite Hperm, length_seq, dagOf_length.
Qed.

End Extras.

(** ** The slots of the tracker *)

Lemma nibbles_of_flag (F f : Z) :
  0 <= F < 256 -> Z.land F 15 = 0 -> 0 <= f <= 1 ->
  Z.land (Z.lor F f mod 2 ^ 8) 240 = F /\
  Z.land (Z.lor F f mod 2 ^ 8) 15 = f.
Proof.
  intros HF Hlow Hf.
  change 15 with (Z.ones 4) in Hlow. rewrite Z.land_ones in Hlow by lia.
  assert (Hk : exists k, 0 <= k < 16 /\ F = 16 * k).
  { exists (F / 16). split; [split|].
    - apply Z.div_pos; lia.
    - apply Z.div_lt_upper_bound; lia.
    - change (2 ^ 4) with 16 in Hlow.
      pose proof (Z.div_mod F 16 ltac:(lia)). lia. }
  destruct Hk as (k & Hk & ->).
  assert (Hf' : f = 0 \/ f = 1) by lia.
  assert (Hk' : k = 0 \/ k = 1 \/ k = 2 \/ k = 3 \/ k = 4 \/ k = 5 \/ k = 6 \/
                k = 7 \/ k = 8 \/ k = 9 \/ k = 10 \/ k = 11 \/ k = 12 \/
                k = 13 \/ k = 14 \/ k = 15) by lia.
  destruct Hf' as [-> | ->];
    repeat (destruct Hk' as [-> | Hk']; [by vm_compute|]);
    subst; by vm_compute.
Qed.

Section Slots.
Context {defs : GenDefs} {ctx : GenContext}.
Variable policy : SchedulePolicy.

Lemma grfNum_nonneg : 0 <= grfNum policy.
Proof.
  unfold grfNum. destruct policy; [apply wrap32_range|].
  case_decide; lia.
Qed.




(** X7: the flag an instruction state names ([flag] and [subFlag] are
one-bit fields) always gets one of the first four flag slots, whatever the
policy; a virtual flag gets, before allocation, the slot of its virtual
register. *)
Theorem getFlag_slot (insn : SelectionInstruction) :
  0 <= GEN_ARF_FLAG < 256 -> Z.land GEN_ARF_FLAG 15 = 0 ->
  grfNum policy + 256 <= 2 ^ 32 ->
  0 <= flag (state insn) <= 1 -> 0 <= subFlag (state insn) <= 1 ->
  (physicalFlag (state insn) = true ->
   getIndex policy (getFlag insn)
   = grfNum policy + 2 * flag (state insn) + subFlag (state insn)) /\
  (physicalFlag (state insn) = false -> policy = PRE_ALLOC ->
   getIndex policy (getFlag insn) = wrap16 (flagIndex (state insn))).
Proof.
  intros HF Hlow Hfit Hflag Hsub. pose proof grfNum_nonneg as Hg. split.
  - intros Hphys. unfold getFlag. rewrite Hphys.
    unfold getIndex, GenRegister_flag. cbn [physical nr subnr].
    destruct (nibbles_of_flag GEN_ARF_FLAG (flag (state insn)) HF Hlow Hflag)
      as [Hhigh Hlown].
    cbn zeta. rewrite Hhigh, Hlown. rewrite decide_True by done.
    assert (Hs : (subFlag (state insn) * 2) mod 2 ^ 8 / 2
                 = subFlag (state insn)).
    { rewrite Z.mod_small by lia. by rewrite Z.div_mul. }
    rewrite Hs. rewrite wrap32_small; lia.
  - intros Hphys ->. unfold getFlag. rewrite Hphys. done.
Qed.

End Slots.

(** ** [addDependency] and existing edges *)

Lemma edgesForward_add n0 n1 nds :
  edgesForward nds -> (n1 < n0 < length nds)%nat ->
  edgesForward (alter (pushChild n0) n1 (alter incrRefNum n0 nds)).
Proof.
  intros He Hlt p nd c. rewrite !length_alter, !list_lookup_alter.
  destruct (nds !! p) as [x|] eqn:Hp;
    [|repeat case_decide; subst; rewrite ?Hp; done].
  specialize (He p x).
  repeat case_decide; subst; rewrite ?Hp; cbn; intros [= <-]; cbn;
    rewrite ?elem_of_app, ?list_elem_of_singleton;
    try (intros [?| ->]; [eauto|lia]); eauto.
Qed.

(** X8: [dependsOn] never sees an existing edge of a forward DAG, so that
[addDependency] called twice for the same pair of nodes appends the child
twice and counts two references. *)
Theorem addDependency_repeats (s : Scheduler) (n0 n1 : nat)
        (nd0 nd1 : ScheduleDAGNode) :
  edgesForward (insnNodes s) -> (n1 < n0)%nat ->
  insnNodes s !! n0 = Some nd0 -> insnNodes s !! n1 = Some nd1 ->
  let s2 := addDependency (Some n0) (Some n1)
                          (addDependency (Some n0) (Some n1) s) in
  children <$> insnNodes s2 !! n1 = Some (children nd1 ++ [n0; n0]) /\
  refNum <$> insnNodes s2 !! n0
  = Some (wrap32 (wrap32 (refNum nd0 + 1) + 1)).
Proof.
  intros He Hlt H0 H1. cbn zeta.
  assert (Hlen : (n1 < n0 < length (insnNodes s))%nat).
  { split; [done|]. by eapply lookup_lt_Some. }
  assert (Hadd : forall s', edgesForward (insnNodes s') -> n0 <> n1 ->
             addDependency (Some n0) (Some n1) s'
             = withInsnNodes s' (alter (pushChild n0) n1
                                       (alter incrRefNum n0 (insnNodes s')))).
  { intros s' He' Hne. unfold addDependency.
    rewrite (dependsOn_false s' n0 n1 He').
    by rewrite bool_decide_eq_true_2. }
  rewrite (Hadd s He) by lia.
  rewrite Hadd; [|cbn; by apply edgesForward_add|lia].
  cbn [insnNodes withInsnNodes].
  rewrite !list_lookup_alter.
  repeat (first [ rewrite decide_True by done
                | rewrite decide_False by lia ]).
  rewrite ?H0, ?H1. cbn. split; [|done].
  by rewrite <- app_assoc.
Qed.


(** ** The theorems above, on the block [demoBB] *)

Lemma buildDAG_dependence_edges_witness :
  hasEdge (buildDAG PRE_ALLOC demoBB) 1 3.
Proof.
  apply (proj1 (buildDAG_dependence_edges PRE_ALLOC demoBB 3
                  (demoInsn 4 0 [] [3; 2]) 2 1 eq_refl)).
  - apply (bool_decide_unpack _). vm_compute. exact I.
  - split_and!; [lia| |].
    + exists (demoInsn 1 0 [2] [0; 1]). split; [reflexivity|].
      apply (bool_decide_unpack _). vm_compute. exact I.
    + intros m' Hm'. assert (m' = 2%nat) as -> by lia.
      intros (i & [= <-] & Hx). revert Hx.
      apply (bool_decide_eq_false_1 _). vm_compute. reflexivity.
Defined.

Lemma scheduleDAG_keeps_dependences_witness :
  scheduleBlock PRE_ALLOC 5 demoBB = Some [0; 2; 1; 3; 4]%nat /\
  conflict PRE_ALLOC 2 (demoInsn 1 0 [2] [0; 1]) (demoInsn 4 0 [] [3; 2]) /\
  (2 < 3)%nat.
Proof.
  assert (Hc : conflict PRE_ALLOC 2 (demoInsn 1 0 [2] [0; 1])
                        (demoInsn 4 0 [] [3; 2])).
  { left. split; [|left]; apply (bool_decide_unpack _); vm_compute;
      exact I. }
  assert (Hfit : countersFit PRE_ALLOC demoBB = true)
    by (vm_compute; reflexivity).
  assert (Htr : writesTracked PRE_ALLOC demoBB = true)
    by (vm_compute; reflexivity).
  assert (Hout : scheduleBlock PRE_ALLOC 5 demoBB
                 = Some [0; 2; 1; 3; 4]%nat) by (vm_compute; reflexivity).
  split; [exact Hout|]. split; [exact Hc|].
  apply (scheduleDAG_keeps_dependences PRE_ALLOC demoBB Hfit Htr
           5%nat [0; 2; 1; 3; 4]%nat Hout
           1%nat 3%nat (demoInsn 1 0 [2] [0; 1]) (demoInsn 4 0 [] [3; 2])
           2 2%nat 3%nat); [lia|reflexivity|reflexivity|exact Hc|
                             reflexivity|reflexivity].
Defined.

Lemma scheduleDAG_barrier_position_witness :
  scheduleBlock POST_ALLOC 200 demoBB = Some [0; 1; 2; 3; 4]%nat /\
  [0; 1; 2; 3; 4]%nat !! 4%nat = Some 4%nat.
Proof.
  assert (Hfit : countersFit POST_ALLOC demoBB = true)
    by (vm_compute; reflexivity).
  assert (Hout : scheduleBlock POST_ALLOC 200 demoBB
                 = Some [0; 1; 2; 3; 4]%nat) by (vm_compute; reflexivity).
  split; [exact Hout|].
  apply (scheduleDAG_barrier_position POST_ALLOC demoBB 4
           (demoInsn 5 1 [] []) Hfit eq_refl eq_refl
           200%nat [0; 1; 2; 3; 4]%nat Hout).
Defined.

Lemma scheduleDAG_pre_never_waits_witness :
  countersFit PRE_ALLOC demoBB = true /\
  exists st, scheduleLoop PRE_ALLOC 5 (scheduleStart PRE_ALLOC demoBB)
             = Some st /\ cycle st = 0.
Proof.
  assert (Hfit : countersFit PRE_ALLOC demoBB = true)
    by (vm_compute; reflexivity).
  split; [exact Hfit|].
  destruct (scheduleDAG_pre_never_waits demoBB Hfit)
    as [(st & Hrun & Hc & _) _].
  exists st. split; [exact Hrun|exact Hc].
Defined.


Lemma getFlag_slot_witness :
  getIndex PRE_ALLOC (getFlag (demoInsn 2 0 [] [4; 4])) = 8.
Proof.
  assert (HF : 0 <= GEN_ARF_FLAG < 256) by (cbn; lia).
  assert (Hfit : grfNum PRE_ALLOC + 256 <= 2 ^ 32)
    by (vm_compute; congruence).
  assert (Hflag : 0 <= flag (state (demoInsn 2 0 [] [4; 4])) <= 1)
    by (cbn; lia).
  assert (Hsub : 0 <= subFlag (state (demoInsn 2 0 [] [4; 4])) <= 1)
    by (cbn; lia).
  apply (proj1 (getFlag_slot PRE_ALLOC (demoInsn 2 0 [] [4; 4])
                  HF eq_refl Hfit Hflag Hsub)).
  reflexivity.
Defined.

Lemma addDependency_repeats_witness :
  children <$> insnNodes
     (addDependency (Some 4%nat) (Some 2%nat)
        (addDependency (Some 4%nat) (Some 2%nat)
                       (buildDAG PRE_ALLOC demoBB))) !! 2%nat
  = Some [4; 4; 4; 4]%nat.
Proof.
  destruct (buildDAG_spec PRE_ALLOC demoBB) as ([He _ _] & _).
  apply (proj1 (addDependency_repeats (buildDAG PRE_ALLOC demoBB) 4 2
                  {| insn := demoInsn 5 1 [] []; children := [];
                     refNum := 6; retiredCycle := 0 |}
                  {| insn := demoInsn 2 0 [] [4; 4];
                     children := [4; 4]%nat;
                     refNum := 1; retiredCycle := 0 |}
                  He ltac:(lia) ltac:(vm_compute; reflexivity)
                  ltac:(vm_compute; reflexivity))).
Defined.

(** ** The post-allocation schedule and the latencies *)

Section PostLatency.
Context {defs : GenDefs} {ctx : GenContext}.
Variable bb : list SelectionInstruction.

(** The clock is 32 bits wide: the latencies and throughputs of the block
are [uint32_t] values whose sum does not wrap. *)
Definition clockFits : bool :=
  forallb (fun i =>
             (0 <=? getThroughputGen7 i (bool_decide (getSimdWidth = 8)))%Z
             && (0 <=? getLatencyGen7 i)%Z) bb
  && (foldr Z.add 0 (map insnCost bb) <? 2 ^ 32)%Z.

Lemma totalCost_block :
  totalCost bb (seq 0 (length bb)) = foldr Z.add 0%Z (map insnCost bb).
Proof.
  unfold totalCost. f_equal. apply list_eq. intros i.
  change (map (costOf bb) (seq 0 (length bb)))
    with (costOf bb <$> seq 0 (length bb)).
  change (map insnCost bb) with (insnCost <$> bb).
  rewrite !list_lookup_fmap. unfold costOf.
  destruct (bb !! i) as [x|] eqn:Hx.
  - rewrite lookup_seq_lt by (by eapply lookup_lt_Some). cbn.
    by rewrite Hx.
  - rewrite lookup_seq_ge; [done|]. by apply lookup_ge_None.
Qed.

Lemma scheduleStart_PInv :
  countersFit POST_ALLOC bb = true ->
  PInv bb (dagOf POST_ALLOC bb) (scheduleStart POST_ALLOC bb).
Proof.
  intros Hfit.
  destruct (scheduleStart_BInv POST_ALLOC bb Hfit)
    as [(retired & Hinv) _ Hnum].
  split; [|done]. exists retired. split; [done|].
  pose proof (si_perm _ _ _ _ _ _ _ Hinv) as Hperm. cbn in Hperm.
  symmetry in Hperm. apply Permutation_nil_r in Hperm.
  apply app_eq_nil in Hperm as [-> _].
  split; cbn; try done.
  - by intros p ?%elem_of_nil.
  - by intros c p l ?%elem_of_nil.
  - by intros a ?%elem_of_nil.
Qed.

(** X20: in the block that the post-allocation scheduler leaves, every
instruction was picked at a clock at which all the instructions it depends
on had retired: its own retirement cycle is at least the retirement cycle
of each of them plus its throughput and its latency. Stated for the blocks
whose counters and clock do not wrap. *)
Theorem scheduleDAG_post_latency :
  countersFit POST_ALLOC bb = true -> clockFits = true ->
  exists fuel st,
    scheduleLoop POST_ALLOC fuel (scheduleStart POST_ALLOC bb) = Some st /\
    (forall fuel' st',
        scheduleLoop POST_ALLOC fuel' (scheduleStart POST_ALLOC bb)
        = Some st' -> st' = st) /\
    forall p c ndp ndc,
      hasEdge (buildDAG POST_ALLOC bb) p c ->
      insnNodes (scheduler st) !! p = Some ndp ->
      insnNodes (scheduler st) !! c = Some ndc ->
      (retiredCycle ndp
       + getThroughputGen7 (insn ndc) (bool_decide (getSimdWidth = 8))
       + getLatencyGen7 (insn ndc)
       <= retiredCycle ndc < 2 ^ 32)%Z.
Proof.
  intros Hfit Hclock.
  destruct (scheduleLoop_spec POST_ALLOC bb Hfit)
    as (fuel0 & st & Hrun & Hdet & Hz & _).
  exists fuel0, st. split_and!; [by apply Hrun|done|].
  unfold clockFits in Hclock. apply andb_prop in Hclock as [Hnn Htot].
  rewrite forallb_forall in Hnn. apply Z.ltb_lt in Htot.
  assert (Hcost : forall i, i ∈ bb ->
            (0 <= getThroughputGen7 i (bool_decide (getSimdWidth = 8)))%Z /\
            (0 <= getLatencyGen7 i)%Z).
  { intros i Hi%list_elem_of_In. specialize (Hnn i Hi).
    apply andb_prop in Hnn as [H1%Z.leb_le H2%Z.leb_le]. done. }
  assert (Htotal : (totalCost bb (seq 0 (length (dagOf POST_ALLOC bb)))
                    < 2 ^ 32)%Z).
  { by rewrite dagOf_length, totalCost_block. }
  destruct (scheduleLoop_timing POST_ALLOC bb (dagOf POST_ALLOC bb)
              (dagOf_forward POST_ALLOC bb) eq_refl Hcost Htotal
              fuel0 _ st (scheduleStart_PInv Hfit) (Hrun fuel0 (le_n _)))
    as [Hp _].
  intros p c ndp ndc (l & Hl & Hc)%dagOf_edge Hndp Hndc.
  pose proof (timing_final bb (dagOf POST_ALLOC bb)
                (dagOf_forward POST_ALLOC bb) Hcost Htotal st Hp Hz
                p c l Hl Hc) as Ht.
  unfold rcOf in Ht. rewrite Hndp, Hndc in Ht.
  pose proof (PInv_BInv bb (dagOf POST_ALLOC bb) Hcost Htotal st Hp) as Hst.
  destruct (schedule_final bb (dagOf POST_ALLOC bb) st Hst Hz)
    as (_ & _ & Hinsn).
  assert (Hbc : bb !! c = Some (insn ndc)).
  { rewrite <- Hinsn.
    change (map insn (insnNodes (scheduler st)))
      with (insn <$> insnNodes (scheduler st)).
    by rewrite list_lookup_fmap, Hndc. }
  unfold costOf in Ht. rewrite Hbc in Ht. cbn in Ht.
  unfold insnCost in Ht. lia.
Qed.

End PostLatency.

Lemma scheduleDAG_post_latency_witness :
  exists fuel st,
    scheduleLoop POST_ALLOC fuel (scheduleStart POST_ALLOC demoBB) = Some st.
Proof.
  assert (Hfit : countersFit POST_ALLOC demoBB = true)
    by (vm_compute; reflexivity).
  assert (Hclock : clockFits demoBB = true) by (vm_compute; reflexivity).
  destruct (scheduleDAG_post_latency demoBB Hfit Hclock)
    as (fuel & st & Hrun & _).
  exists fuel, st. exact Hrun.
Defined.

End Scheduling.
